(** * nvblox: vertex welding and the blocks-to-update tracker

    A shallow embedding of
    - [nvblox/tests/lib/cuda/mesh_utils.cu] (the thrust based welding pass and
      the single-block cub kernels),
    - [nvblox/src/mesh/mesh_block.cu] (the mesh block container), and
    - the [BlocksToUpdateTracker] translation unit,
    together with the properties of these that the specification states and
    further properties of the same functions: edge cases, invariants and the
    way the calls compose. *)

From Stdlib Require Import ZArith Lia Bool List Permutation Sorted.
From Stdlib Require Import Floats.SpecFloat.
From stdpp Require Import base tactics option list sets gmap strings sorting.

Local Open Scope Z_scope.

(** [Index3D] is [Eigen::Vector3i]; its components are kept as integers. *)
Definition Index3D : Type := (Z * Z * Z)%type.

(* ===================================================================== *)
(** * The blocks-to-update tracker *)
(* ===================================================================== *)

Module Tracker.

(** [BlocksToUpdateType]: the selector of one of the four pending sets.  The
    [default:] branch of the switches ([LOG(FATAL)]) is not reachable for a
    value of this enumeration. *)
Inductive BlocksToUpdateType : Type :=
  | kEsdf
  | kMesh
  | kFreespace
  | kLayerStreamer.

#[global] Instance BlocksToUpdateType_eq_dec : EqDecision BlocksToUpdateType.
Proof. solve_decision. Defined.

(** The closure handed to [std::async] by one of the three mutating calls,
    together with the argument it was given by value. *)
Inductive Task : Type :=
  | AddTask (vec : list Index3D)
  | RemoveTask (vec : list Index3D)
  | MarkTask (type : BlocksToUpdateType).

Definition kMaxSize : Z := 100000.

Section WithLayerType.

(** The layer type enumeration and [hasFreespaceLayer] are declared in headers
    that are not part of the sources at hand: they are parameters. *)
Variable ProjectiveLayerType : Type.
Variable hasFreespaceLayer : ProjectiveLayerType -> bool.

(** The members of [BlocksToUpdateTracker].  [future_] is [Some task] while the
    task launched last has not run yet and [None] once it has finished (a
    future that is ready).  [log_] collects the names given to [LOG(ERROR)] by
    [clearIfTooLarge], most recent first. *)
Record BlocksToUpdateTracker : Type := mkTracker {
  projective_layer_type_ : ProjectiveLayerType;
  esdf_blocks_to_update_ : gset Index3D;
  mesh_blocks_to_update_ : gset Index3D;
  freespace_blocks_to_update_ : gset Index3D;
  layer_streamer_blocks_to_update_ : gset Index3D;
  future_ : option Task;
  log_ : list string
}.

(** A freshly constructed tracker: four empty sets, nothing in flight. *)
Definition init (ty : ProjectiveLayerType) : BlocksToUpdateTracker :=
  mkTracker ty ∅ ∅ ∅ ∅ None [].

(** The set a selector names. *)
Definition blocks_of (type : BlocksToUpdateType) (t : BlocksToUpdateTracker)
  : gset Index3D :=
  match type with
  | kEsdf => esdf_blocks_to_update_ t
  | kMesh => mesh_blocks_to_update_ t
  | kFreespace => freespace_blocks_to_update_ t
  | kLayerStreamer => layer_streamer_blocks_to_update_ t
  end.

Definition with_blocks (type : BlocksToUpdateType) (s : gset Index3D)
    (t : BlocksToUpdateTracker) : BlocksToUpdateTracker :=
  match type with
  | kEsdf =>
      mkTracker (projective_layer_type_ t) s (mesh_blocks_to_update_ t)
        (freespace_blocks_to_update_ t) (layer_streamer_blocks_to_update_ t)
        (future_ t) (log_ t)
  | kMesh =>
      mkTracker (projective_layer_type_ t) (esdf_blocks_to_update_ t) s
        (freespace_blocks_to_update_ t) (layer_streamer_blocks_to_update_ t)
        (future_ t) (log_ t)
  | kFreespace =>
      mkTracker (projective_layer_type_ t) (esdf_blocks_to_update_ t)
        (mesh_blocks_to_update_ t) s (layer_streamer_blocks_to_update_ t)
        (future_ t) (log_ t)
  | kLayerStreamer =>
      mkTracker (projective_layer_type_ t) (esdf_blocks_to_update_ t)
        (mesh_blocks_to_update_ t) (freespace_blocks_to_update_ t) s
        (future_ t) (log_ t)
  end.

Definition with_future (f : option Task) (t : BlocksToUpdateTracker)
  : BlocksToUpdateTracker :=
  mkTracker (projective_layer_type_ t) (esdf_blocks_to_update_ t)
    (mesh_blocks_to_update_ t) (freespace_blocks_to_update_ t)
    (layer_streamer_blocks_to_update_ t) f (log_ t).

Definition with_log (name : string) (t : BlocksToUpdateTracker)
  : BlocksToUpdateTracker :=
  mkTracker (projective_layer_type_ t) (esdf_blocks_to_update_ t)
    (mesh_blocks_to_update_ t) (freespace_blocks_to_update_ t)
    (layer_streamer_blocks_to_update_ t) (future_ t) (name :: log_ t).

(** [clearIfTooLarge(set, name)], on the set that [type] selects. *)
Definition clearIfTooLarge (type : BlocksToUpdateType) (name : string)
    (t : BlocksToUpdateTracker) : BlocksToUpdateTracker :=
  if kMaxSize <? Z.of_nat (size (blocks_of type t))
  then with_blocks type ∅ (with_log name t)
  else t.

(** [set.insert(vec.begin(), vec.end())]. *)
Definition insert_all (vec : list Index3D) (s : gset Index3D) : gset Index3D :=
  s ∪ list_to_set vec.

(** [for (idx : vec) set.erase(idx)]. *)
Definition erase_all (vec : list Index3D) (s : gset Index3D) : gset Index3D :=
  s ∖ list_to_set vec.

(** The body of the lambda of each mutating call. *)
Definition run_task (task : Task) (t : BlocksToUpdateTracker)
  : BlocksToUpdateTracker :=
  let fs := hasFreespaceLayer (projective_layer_type_ t) in
  match task with
  | AddTask vec =>
      mkTracker (projective_layer_type_ t)
        (insert_all vec (esdf_blocks_to_update_ t))
        (insert_all vec (mesh_blocks_to_update_ t))
        (if fs then insert_all vec (freespace_blocks_to_update_ t)
         else freespace_blocks_to_update_ t)
        (insert_all vec (layer_streamer_blocks_to_update_ t))
        (future_ t) (log_ t)
  | RemoveTask vec =>
      mkTracker (projective_layer_type_ t)
        (erase_all vec (esdf_blocks_to_update_ t))
        (erase_all vec (mesh_blocks_to_update_ t))
        (if fs then erase_all vec (freespace_blocks_to_update_ t)
         else freespace_blocks_to_update_ t)
        (erase_all vec (layer_streamer_blocks_to_update_ t))
        (future_ t) (log_ t)
  | MarkTask type => with_blocks type ∅ t
  end.

(** The task in flight, if any, runs to its end: what [future_.wait()]
    guarantees on return, and what may happen on its own at any earlier
    moment. *)
Definition wait (t : BlocksToUpdateTracker) : BlocksToUpdateTracker :=
  match future_ t with
  | None => t
  | Some task => with_future None (run_task task t)
  end.

(** The four [clearIfTooLarge] calls of [addBlocksToUpdate], in source order.
    They run on the calling thread before [future_.wait()]. *)
Definition cap_checks : list (BlocksToUpdateTracker -> BlocksToUpdateTracker) :=
  [ clearIfTooLarge kEsdf "esdf";
    clearIfTooLarge kMesh "mesh";
    clearIfTooLarge kLayerStreamer "layer_streamer";
    clearIfTooLarge kFreespace "freespace" ].

Definition run_checks (fs : list (BlocksToUpdateTracker -> BlocksToUpdateTracker))
    (t : BlocksToUpdateTracker) : BlocksToUpdateTracker :=
  foldl (fun acc f => f acc) t fs.

(** [addBlocksToUpdate].  The task of the previous call may still be in flight
    while the cap checks run; [k] is the number of checks the caller gets
    through before that task finishes ([k = 0]: it had finished already,
    [k >= 4]: it finishes inside [future_.wait()]).  The call returns with its
    own task in flight. *)
Definition addBlocksToUpdate (k : nat) (blocks_to_update : list Index3D)
    (t : BlocksToUpdateTracker) : BlocksToUpdateTracker :=
  let t1 := run_checks (take k cap_checks) t in
  let t2 := wait t1 in
  let t3 := run_checks (drop k cap_checks) t2 in
  let t4 := wait t3 in
  with_future (Some (AddTask blocks_to_update)) t4.

(** [removeBlocksToUpdate]. *)
Definition removeBlocksToUpdate (blocks_to_remove : list Index3D)
    (t : BlocksToUpdateTracker) : BlocksToUpdateTracker :=
  with_future (Some (RemoveTask blocks_to_remove)) (wait t).

(** [getBlocksToUpdate]: the vector built from the selected set, and the
    tracker after the wait. *)
Definition getBlocksToUpdate (type : BlocksToUpdateType)
    (t : BlocksToUpdateTracker) : list Index3D * BlocksToUpdateTracker :=
  let t' := wait t in
  (elements (blocks_of type t'), t').

(** [markBlocksAsUpdated]. *)
Definition markBlocksAsUpdated (type : BlocksToUpdateType)
    (t : BlocksToUpdateTracker) : BlocksToUpdateTracker :=
  with_future (Some (MarkTask type)) (wait t).

(** The trackers a program can hold: built by the constructor and changed by
    the four member functions only, under any scheduling of the tasks. *)
Inductive reachable : BlocksToUpdateTracker -> Prop :=
  | reach_init ty : reachable (init ty)
  | reach_add k vec t : reachable t -> reachable (addBlocksToUpdate k vec t)
  | reach_remove vec t : reachable t -> reachable (removeBlocksToUpdate vec t)
  | reach_get type t : reachable t -> reachable (getBlocksToUpdate type t).2
  | reach_mark type t : reachable t -> reachable (markBlocksAsUpdated type t).

(** The freespace set is only ever filled under a layer type with freespace. *)
Definition freespace_gated (t : BlocksToUpdateTracker) : Prop :=
  hasFreespaceLayer (projective_layer_type_ t) = false ->
  freespace_blocks_to_update_ t = ∅.

(** Every pending set is within the soft cap. *)
Definition under_cap (t : BlocksToUpdateTracker) : Prop :=
  forall type, Z.of_nat (size (blocks_of type t)) <= kMaxSize.

(** The functions that are one call of [clearIfTooLarge]. *)
Definition is_check (f : BlocksToUpdateTracker -> BlocksToUpdateTracker) : Prop :=
  exists type name, f = clearIfTooLarge type name.

(** The sets that [addBlocksToUpdate] checks against the cap, each with the
    name it gives to [clearIfTooLarge], in source order. *)
Definition cap_names : list (BlocksToUpdateType * string) :=
  [ (kEsdf, "esdf"); (kMesh, "mesh"); (kLayerStreamer, "layer_streamer");
    (kFreespace, "freespace") ].

(** The names of the sets of [t] that are over the cap, in that order. *)
Definition too_large_names (t : BlocksToUpdateTracker) : list string :=
  omap (fun p : BlocksToUpdateType * string =>
          if kMaxSize <? Z.of_nat (size (blocks_of p.1 t)) then Some p.2 else None)
       cap_names.

End WithLayerType.

Arguments mkTracker {_}.
Arguments projective_layer_type_ {_}.
Arguments esdf_blocks_to_update_ {_}.
Arguments mesh_blocks_to_update_ {_}.
Arguments freespace_blocks_to_update_ {_}.
Arguments layer_streamer_blocks_to_update_ {_}.
Arguments future_ {_}.
Arguments log_ {_}.
Arguments init {_}.
Arguments blocks_of {_}.
Arguments with_blocks {_}.
Arguments with_future {_}.
Arguments with_log {_}.
Arguments clearIfTooLarge {_}.
Arguments run_task {_}.
Arguments wait {_}.
Arguments cap_checks {_}.
Arguments run_checks {_}.
Arguments addBlocksToUpdate {_}.
Arguments removeBlocksToUpdate {_}.
Arguments getBlocksToUpdate {_}.
Arguments markBlocksAsUpdated {_}.
Arguments reachable {_}.
Arguments freespace_gated {_}.
Arguments under_cap {_}.
Arguments is_check {_}.
Arguments too_large_names {_}.

(** 100001 distinct block indices, one more than the cap. *)
Definition many_blocks : list Index3D :=
  (fun i : Z => (i, 0, 0)) <$> seqZ 0 (kMaxSize + 1).

(** A two-valued layer type for the examples: [true] has a freespace layer. *)
Definition example_has_freespace (ty : bool) : bool := ty.

End Tracker.

(* ===================================================================== *)
(** * Mesh blocks and the thrust based welding pass *)
(* ===================================================================== *)

Module MeshUtils.

(** ** Single precision floats

    A [float] is an IEEE 754 binary32 value, in the representation of the
    standard library's [SpecFloat] ([prec = 24], [emax = 128]): signed zeros,
    infinities, NaN, and [S754_finite s m e] for (-1)^s * m * 2^e.  Comparison
    is [SFcompare]: the two zeros are equal, NaN is unordered. *)
Definition float : Type := spec_float.
Definition prec : Z := 24.
Definition emax : Z := 128.

(** The float nearest to [m * 2^e]. *)
Definition f32 (m e : Z) : float := binary_normalize prec emax m e false.

(** The values that binary32 has: the finite ones have a canonical mantissa
    and an exponent within range. *)
Definition is_binary32 (f : float) : bool := valid_binary prec emax f.

#[global] Instance spec_float_eq_dec : EqDecision spec_float.
Proof. solve_decision. Defined.

Definition is_nan (f : float) : bool :=
  match f with S754_nan => true | _ => false end.

(** Floats that compare equal have the same [canon_float]: it sends -0 to +0. *)
Definition canon_float (f : float) : float :=
  match f with S754_zero _ => S754_zero false | _ => f end.

(** [Vector3f] is [Eigen::Vector3f]. *)
Record Vector3f : Type := mkVector3f { vec_x : float; vec_y : float; vec_z : float }.

#[global] Instance Vector3f_eq_dec : EqDecision Vector3f.
Proof. solve_decision. Defined.

(** [Vector3f::Zero()]. *)
Definition Vector3f_Zero : Vector3f :=
  mkVector3f (S754_zero false) (S754_zero false) (S754_zero false).

Definition valid_vector (v : Vector3f) : bool :=
  is_binary32 (vec_x v) && is_binary32 (vec_y v) && is_binary32 (vec_z v).

Definition nan_free (v : Vector3f) : bool :=
  negb (is_nan (vec_x v)) && negb (is_nan (vec_y v)) && negb (is_nan (vec_z v)).

Definition canon (v : Vector3f) : Vector3f :=
  mkVector3f (canon_float (vec_x v)) (canon_float (vec_y v)) (canon_float (vec_z v)).

(** [operator==] of two [Vector3f]: all coefficients compare equal. *)
Definition vec_eqb (a b : Vector3f) : bool :=
  SFeqb (vec_x a) (vec_x b) && SFeqb (vec_y a) (vec_y b) && SFeqb (vec_z a) (vec_z b).

(** Modelled from the spec: [VectorCompare<Vector3f>] of [nvblox/core/hash.h],
    which is not among the sources.  The spec calls it the lexicographic order
    of the positions; the comparisons are those of the float coordinates. *)
Definition VectorCompare (p_1 p_2 : Vector3f) : bool :=
  if negb (SFeqb (vec_x p_1) (vec_x p_2)) then SFltb (vec_x p_1) (vec_x p_2)
  else if negb (SFeqb (vec_y p_1) (vec_y p_2)) then SFltb (vec_y p_1) (vec_y p_2)
  else SFltb (vec_z p_1) (vec_z p_2).

(** The three-way comparison of two floats that are not NaN, and its
    lexicographic extension to vectors: on vectors free of NaN,
    [VectorCompare a b] says that [vcmp a b] is [Lt] and [vec_eqb a b] that it
    is [Eq]. *)
Definition fcmp (a b : float) : comparison := default Eq (SFcompare a b).

Definition lex (c d : comparison) : comparison :=
  match c with Eq => d | _ => c end.

Definition vcmp (a b : Vector3f) : comparison :=
  lex (fcmp (vec_x a) (vec_x b))
      (lex (fcmp (vec_y a) (vec_y b)) (fcmp (vec_z a) (vec_z b))).

(** Modelled from the spec: [Color] is declared in [nvblox/core/color.h],
    which is not among the sources; the spec only has colors as one of the
    four sequences of a block.  A color is kept as four channel values. *)
Record Color : Type := mkColor { red : Z; green : Z; blue : Z; alpha : Z }.

(** ** The mesh block ([mesh_block.cu]) *)

Record MeshBlock : Type := mkMeshBlock {
  vertices : list Vector3f;
  normals : list Vector3f;
  colors : list Color;
  triangles : list Z
}.

(** [MeshBlock::MeshBlock]. *)
Definition MeshBlock_new : MeshBlock := mkMeshBlock [] [] [] [].

(** [MeshBlock::clear]. *)
Definition MeshBlock_clear (b : MeshBlock) : MeshBlock := mkMeshBlock [] [] [] [].

(** [MeshBlock::size]. *)
Definition MeshBlock_size (b : MeshBlock) : nat := length (vertices b).

(** [MeshBlock::expandColorsToMatchVerticesAsync]: [colors] is resized to the
    size of [vertices].  A resize keeps the elements below the new size and
    does not initialize the ones it adds: [fresh i] is what the buffer holds
    at slot [i]. *)
Definition expandColorsToMatchVertices (fresh : nat -> Color) (b : MeshBlock)
  : MeshBlock :=
  let n := length (vertices b) in
  mkMeshBlock (vertices b) (normals b)
    (take n (colors b) ++ (fresh <$> seq (length (colors b)) (n - length (colors b))))
    (triangles b).

(** [sizeof(int)]. *)
Definition sizeof_int : Z := 4.

(** [sizeInBytes], in the arithmetic of [size_t].  [sizeof(Vector3f)] and
    [sizeof(Color)] come with the declarations of these types, which are not
    among the sources: they are parameters. *)
Definition sizeInBytes (sizeof_Vector3f sizeof_Color : Z) (mesh_block : MeshBlock) : Z :=
  (Z.of_nat (length (vertices mesh_block)) * sizeof_Vector3f +
   Z.of_nat (length (normals mesh_block)) * sizeof_Vector3f +
   Z.of_nat (length (colors mesh_block)) * sizeof_Color +
   Z.of_nat (length (triangles mesh_block)) * sizeof_int) mod 2 ^ 64.

(** ** What thrust leaves open

    [thrust::sort] is given by the permutation it applies: [sort_order l] lists,
    for each position of the sorted range, the slot of [l] its element comes
    from.  [thrust::scatter] assigns [output[map[i]] = first[i]] for every [i]
    of the range, on the device and in no order.  Where the map holds the same
    index more than once the assignments to that slot race, and thrust leaves
    the result undefined: [scatter_race first map output i] is what the slot
    [i] holds afterwards in that case. *)
Class Thrust : Type := {
  sort_order : list Vector3f -> list nat;
  scatter_race : list Vector3f -> list Z -> list Vector3f -> nat -> Vector3f
}.

(** [out[k] = l[order[k]]]. *)
Definition gather {A} (l : list A) (order : list nat) : list A :=
  omap (fun i => l !! i) order.

Definition sorted_by (comp : Vector3f -> Vector3f -> bool) (l : list Vector3f) : Prop :=
  StronglySorted (fun a b => comp b a = false) l.

Definition strictly_sorted (l : list Vector3f) : Prop :=
  StronglySorted (fun a b => VectorCompare a b = true) l.

Definition all_nan_free (l : list Vector3f) : Prop :=
  Forall (fun v => nan_free v = true) l.

(** The assignments of a scatter of [n] elements that write the output slot
    [i]: the positions [j] of the range with [map[j] = i]. *)
Definition scatter_writers (map : list Z) (n : nat) (i : nat) : list nat :=
  filter (fun j => map !! j = Some (Z.of_nat i)) (seq 0 n).

Section WithThrust.
Context {T : Thrust}.

(** [thrust::sort(first, last, VectorCompare<Vector3f>())]. *)
Definition thrust_sort (l : list Vector3f) : list Vector3f :=
  gather l (sort_order l).

(** [thrust::scatter(first, last, map, output)]: [output[map[i]] = first[i]].
    A slot that no assignment writes keeps its value, a slot that one
    assignment writes gets the element of that assignment, and a slot that
    several assignments write holds what their race leaves.  An assignment
    whose map entry is not a slot of [output] (in the code a write out of
    bounds) writes no slot. *)
Definition thrust_scatter (src : list Vector3f) (map : list Z)
    (output : list Vector3f) : list Vector3f :=
  imap (fun i old =>
          match scatter_writers map (length src) i with
          | [] => old
          | [j] => default old (src !! j)
          | _ => scatter_race src map output i
          end) output.

End WithThrust.

(** The contract of the sort, for a range free of NaN (on which
    [VectorCompare] is a strict weak ordering): it permutes the range into one
    that is sorted.  Nothing is required of what a race of the scatter
    leaves. *)
Record thrust_contract (T : Thrust) : Prop := {
  sort_order_perm : forall l,
    all_nan_free l -> sort_order l ≡ₚ seq 0 (length l);
  sort_sorted : forall l,
    all_nan_free l -> sorted_by VectorCompare (thrust_sort l)
}.

(** [thrust::unique(first, last)]: of every run of consecutive elements that
    are [==] the first one is kept. *)
Fixpoint unique_from (prev : Vector3f) (l : list Vector3f) : list Vector3f :=
  match l with
  | [] => []
  | v :: rest =>
      if vec_eqb prev v then unique_from v rest else v :: unique_from v rest
  end.

Definition thrust_unique (l : list Vector3f) : list Vector3f :=
  match l with
  | [] => []
  | v :: rest => v :: unique_from v rest
  end.

(** [thrust::lower_bound] for one value: the furthest position [i] such that
    [comp(first[j], value)] holds for every [j < i]. *)
Fixpoint lower_bound (first : list Vector3f) (value : Vector3f) : nat :=
  match first with
  | [] => 0%nat
  | e :: rest => if VectorCompare e value then S (lower_bound rest value) else 0%nat
  end.

(** The vectorized [thrust::lower_bound]: one result per value. *)
Definition lower_bound_all (first values : list Vector3f) : list Z :=
  (fun v => Z.of_nat (lower_bound first v)) <$> values.

Section WithThrust.
Context {T : Thrust}.

(** The body of the loop of [weldVerticesThrustAsync] for a block that is not
    skipped.  The results of the binary search overwrite the head of
    [triangles]; [normals] is resized before the scatter writes into it. *)
Definition weld_block (mesh_block : MeshBlock) : MeshBlock :=
  let input_vertices := vertices mesh_block in
  let input_normals := normals mesh_block in
  let sorted := thrust_sort (vertices mesh_block) in
  let welded := thrust_unique sorted in
  let new_size := length welded in
  let resized_normals := resize new_size Vector3f_Zero (normals mesh_block) in
  let new_triangles :=
    list_inserts 0 (lower_bound_all welded input_vertices) (triangles mesh_block) in
  mkMeshBlock welded
    (thrust_scatter input_normals new_triangles resized_normals)
    (colors mesh_block)
    new_triangles.

(** One iteration of the loop, on the block that [getBlockAtIndex] returned. *)
Definition weld_or_skip (mesh_block : MeshBlock) : MeshBlock :=
  if (MeshBlock_size mesh_block <=? 3)%nat then mesh_block
  else weld_block mesh_block.

(** The body of the loop for one index: the block of the layer, if there is
    one, is changed in place. *)
Definition weld_at (mesh_layer : gmap Index3D MeshBlock) (index : Index3D)
  : gmap Index3D MeshBlock :=
  match mesh_layer !! index with
  | None => mesh_layer
  | Some mesh_block => <[index := weld_or_skip mesh_block]> mesh_layer
  end.

(** [weldVerticesThrustAsync]. *)
Definition weldVerticesThrustAsync (block_indices : list Index3D)
    (mesh_layer : gmap Index3D MeshBlock) : gmap Index3D MeshBlock :=
  foldl weld_at mesh_layer block_indices.

(** [weldSingleBlockThrustAsync]: the output vertices and the output indices. *)
Definition weldSingleBlockThrustAsync (input_vertices : list Vector3f)
    (input_indices : list Z) : list Vector3f * list Z :=
  let output_vertices := thrust_unique (thrust_sort input_vertices) in
  (output_vertices,
   list_inserts 0 (lower_bound_all output_vertices input_vertices) input_indices).

End WithThrust.

(** ** The single-block cub kernels

    The kernels are launched on one block of [BLOCK_THREADS] threads, each
    holding [ITEMS_PER_THREAD] items in a blocked arrangement: item [i] of
    thread [t] is slot [t * ITEMS_PER_THREAD + i] of the block
    ([block_offset + i] in the source, [blockIdx.x] being 0).  A collective
    of the block is a function on the list of the values of all slots. *)

Definition kNumThreads : nat := 128.
Definition kNumItemsPerThread : nat := 16.

(** [kValueScale], converted to [float] for the product with a coordinate. *)
Definition kValueScale : float := f32 1000 0.

Definition INT_MAX : Z := 2147483647.
Definition INT_MIN : Z := -2147483648.

(** [SIZE_MAX], the key of the slots past the input. *)
Definition SIZE_MAX : Z := 2 ^ 64 - 1.

(** The conversion of a [float] to [int] in device code: towards zero,
    saturating, NaN to 0. *)
Definition float_to_int (f : float) : Z :=
  match f with
  | S754_zero _ => 0
  | S754_nan => 0
  | S754_infinity s => if s then INT_MIN else INT_MAX
  | S754_finite s m e =>
      let magnitude := Z.shiftl (Z.pos m) e in
      if s then Z.max INT_MIN (- magnitude) else Z.min INT_MAX magnitude
  end.

(** [Index3D(v.x() * kValueScale, v.y() * kValueScale, v.z() * kValueScale)]. *)
Definition quantize (v : Vector3f) : Index3D :=
  (float_to_int (SFmul prec emax (vec_x v) kValueScale),
   float_to_int (SFmul prec emax (vec_y v) kValueScale),
   float_to_int (SFmul prec emax (vec_z v) kValueScale)).

(** [cub::BlockRadixSort::Sort(keys, values)]: ascending in the keys, and
    stable.  Written as an insertion sort on the (key, value) pairs. *)
Fixpoint insert_by_key {V} (kv : Z * V) (l : list (Z * V)) : list (Z * V) :=
  match l with
  | [] => [kv]
  | kv' :: rest =>
      if kv'.1 <? kv.1 then kv' :: insert_by_key kv rest else kv :: l
  end.

Definition BlockRadixSort {V} (items : list (Z * V)) : list (Z * V) :=
  foldr insert_by_key [] items.

(** [cub::BlockDiscontinuity::FlagHeads(flags, keys, cub::Inequality())]: the
    first item of the block is flagged, and every item that differs from the
    one before it. *)
Fixpoint flags_from (prev : Z) (keys : list Z) : list Z :=
  match keys with
  | [] => []
  | k :: rest => (if prev =? k then 0 else 1) :: flags_from k rest
  end.

Definition FlagHeads (keys : list Z) : list Z :=
  match keys with
  | [] => []
  | k :: rest => 1 :: flags_from k rest
  end.

(** [cub::BlockScan::InclusiveSum]. *)
Fixpoint sums_from (acc : Z) (items : list Z) : list Z :=
  match items with
  | [] => []
  | x :: rest => (acc + x) :: sums_from (acc + x) rest
  end.

Definition InclusiveSum (items : list Z) : list Z := sums_from 0 items.

(** [array[i] = v] for an [int] index; nothing is written out of range. *)
Definition write_at {A} (array : list A) (i : Z) (v : A) : list A :=
  if 0 <=? i then <[Z.to_nat i := v]> array else array.

Section Kernels.

(** [Index3DHash::operator()] is defined in [nvblox/core/hash.h], which is
    not among the sources: it is a parameter.  Its result is a [size_t]. *)
Variable index_hash : Index3D -> Z.

(** The key of a vertex: the hash of its quantized coordinates, as a 64-bit
    unsigned integer. *)
Definition vertex_key (v : Vector3f) : Z := index_hash (quantize v) mod 2 ^ 64.

Section Templates.
Variables BLOCK_THREADS ITEMS_PER_THREAD : nat.

Definition slots : list nat := seq 0 (BLOCK_THREADS * ITEMS_PER_THREAD).

(** The first loop of [blockSortKernel] and [blockUniqueKernel]: the key and
    the value of every slot. *)
Definition load_values (num_vals : nat) (d_in : list Vector3f)
  : list (Z * Vector3f) :=
  (fun s =>
     if (num_vals <=? s)%nat then (SIZE_MAX, Vector3f_Zero)
     else let v := default Vector3f_Zero (d_in !! s) in (vertex_key v, v))
  <$> slots.

(** The first loop of [combinedSingleBlockKernel]: the key and the index. *)
Definition load_inds (num_vals : nat) (d_in : list Vector3f) (inds_in : list Z)
  : list (Z * Z) :=
  (fun s =>
     if (num_vals <=? s)%nat then (SIZE_MAX, -1)
     else (vertex_key (default Vector3f_Zero (d_in !! s)),
           default 0 (inds_in !! s)))
  <$> slots.

(** [blockSortKernel]: the contents of [d_out] after the kernel. *)
Definition blockSortKernel (num_vals : nat) (d_in d_out : list Vector3f)
  : list Vector3f :=
  let sorted := BlockRadixSort (load_values num_vals d_in) in
  foldl (fun out '(s, (_, value)) =>
           if (s <? num_vals)%nat then <[s := value]> out else out)
        d_out (zip slots sorted).

(** [blockUniqueKernel]: [d_out] and [*num_out] after the kernel.  The slots
    reach the [atomicAdd] in the order [schedule]. *)
Definition blockUniqueKernel (schedule : list nat) (num_vals : nat)
    (d_in d_out : list Vector3f) : list Vector3f * Z :=
  let loaded := load_values num_vals d_in in
  let head_flags := FlagHeads (loaded.*1) in
  foldl (fun '(out, output_index) s =>
           match loaded !! s, head_flags !! s with
           | Some (_, value), Some flag =>
               if (s <? num_vals)%nat && (flag =? 1)
               then (write_at out output_index value, output_index + 1)
               else (out, output_index)
           | _, _ => (out, output_index)
           end)
        (d_out, 0) schedule.

(** One iteration of the last loop of [combinedSingleBlockKernel], for the
    slot [s] holding the index [ind], the flag and the scanned flag. *)
Definition combined_write (num_vals : nat) (d_in : list Vector3f)
    (st : list Vector3f * list Z * Z) (slot : nat * (Z * (Z * Z)))
  : list Vector3f * list Z * Z :=
  let '(d_out, inds_out, output_index) := st in
  let '(s, (ind, (flag, head))) := slot in
  if (s <? num_vals)%nat then
    let '(d_out', output_index') :=
      if flag =? 1 then
        (match d_in !! Z.to_nat ind with
         | Some v => write_at d_out (head - 1) v
         | None => d_out
         end,
         Z.max output_index head)
      else (d_out, output_index) in
    (d_out', write_at inds_out ind (head - 1), output_index')
  else st.

(** [combinedSingleBlockKernel]: [d_out], [inds_out] and [*num_out] after the
    kernel.  With distinct indices in [inds_in] no two slots write the same
    cell, and the loop is run slot by slot. *)
Definition combinedSingleBlockKernel (num_vals : nat) (d_in : list Vector3f)
    (inds_in : list Z) (d_out : list Vector3f) (inds_out : list Z)
  : list Vector3f * list Z * Z :=
  let sorted := BlockRadixSort (load_inds num_vals d_in inds_in) in
  let head_flags := FlagHeads (sorted.*1) in
  let head_indices := InclusiveSum head_flags in
  foldl (combined_write num_vals d_in) (d_out, inds_out, 0)
        (zip slots (zip (sorted.*2) (zip head_flags head_indices))).

End Templates.

(** The size check shared by the three host functions: whether
    "Input vertices vector too long!" is logged. *)
Definition too_long (input_vertices : list Vector3f) : bool :=
  (kNumThreads * kNumItemsPerThread <=? length input_vertices)%nat.

(** [sortSingleBlockCubAsync]: whether the error is logged, and the output
    vertices. *)
Definition sortSingleBlockCubAsync (input_vertices output_vertices : list Vector3f)
  : bool * list Vector3f :=
  (too_long input_vertices,
   blockSortKernel kNumThreads kNumItemsPerThread
     (length input_vertices) input_vertices output_vertices).

(** [uniqueSingleBlockCubAsync]. *)
Definition uniqueSingleBlockCubAsync (schedule : list nat)
    (input_vertices output_vertices : list Vector3f) : bool * list Vector3f :=
  let '(d_out, num_out) :=
    blockUniqueKernel kNumThreads kNumItemsPerThread schedule
      (length input_vertices) input_vertices output_vertices in
  (too_long input_vertices, resize (Z.to_nat num_out) Vector3f_Zero d_out).

(** [combinedSingleBlockCubAsync]: whether the error is logged, the output
    vertices and the output indices. *)
Definition combinedSingleBlockCubAsync (input_vertices : list Vector3f)
    (input_indices : list Z) (output_vertices : list Vector3f)
    (output_indices : list Z) : bool * list Vector3f * list Z :=
  let '(d_out, inds_out, num_out) :=
    combinedSingleBlockKernel kNumThreads kNumItemsPerThread
      (length input_vertices) input_vertices input_indices
      output_vertices output_indices in
  (too_long input_vertices, resize (Z.to_nat num_out) Vector3f_Zero d_out, inds_out).

End Kernels.

(** ** Notions used to state the properties of the kernels *)

Definition keys_sorted {V} (l : list (Z * V)) : Prop :=
  StronglySorted (fun a b => a.1 <= b.1) l.

(** The order of the pairs (key, index): by key, then by index. *)
Definition pair_lt (a b : Z * Z) : Prop :=
  a.1 < b.1 \/ (a.1 = b.1 /\ a.2 < b.2).

(** The number of distinct keys of the list below [k]: the place of the run of
    [k] among the runs of the sorted keys. *)
Definition rank (keys : list Z) (k : Z) : nat :=
  size (filter (fun k' => k' < k) (list_to_set keys : gset Z)).

Definition distinct_keys (keys : list Z) : nat := size (list_to_set keys : gset Z).

Definition ascending (keys : list Z) : Prop := StronglySorted Z.le keys.

(** A loop in which an item either writes a value at an index or does
    nothing, and a loop of [atomicMax]. *)
Definition write_step {A B} (target : B -> option (Z * A)) (out : list A) (w : B)
  : list A :=
  match target w with
  | Some (i, v) => write_at out i v
  | None => out
  end.

Definition max_step {B} (bid : B -> option Z) (acc : Z) (w : B) : Z :=
  match bid w with Some h => Z.max acc h | None => acc end.

(** What an iteration of the last loop writes to [inds_out], to [d_out], and
    offers to [atomicMax]. *)
Definition inds_target (num_vals : nat) (w : nat * (Z * (Z * Z))) : option (Z * Z) :=
  let '(s, (ind, (flag, head))) := w in
  if (s <? num_vals)%nat then Some (ind, head - 1) else None.

Definition d_target (num_vals : nat) (d_in : list Vector3f)
    (w : nat * (Z * (Z * Z))) : option (Z * Vector3f) :=
  let '(s, (ind, (flag, head))) := w in
  if (s <? num_vals)%nat && (flag =? 1)
  then (fun v => (head - 1, v)) <$> d_in !! Z.to_nat ind
  else None.

Definition max_bid (num_vals : nat) (w : nat * (Z * (Z * Z))) : option Z :=
  let '(s, (ind, (flag, head))) := w in
  if (s <? num_vals)%nat && (flag =? 1) then Some head else None.

(** The pairs (key, position) of the vertices. *)
Definition keyed_inds (index_hash : Index3D -> Z) (vs : list Vector3f) : list (Z * Z) :=
  imap (fun s v => (vertex_key index_hash v, Z.of_nat s)) vs.

(** The pairs (key, vertex) of the vertices, and the vertices as the block
    sort arranges them. *)
Definition keyed_values (index_hash : Index3D -> Z) (vs : list Vector3f)
  : list (Z * Vector3f) :=
  (fun v => (vertex_key index_hash v, v)) <$> vs.

Definition sorted_values (index_hash : Index3D -> Z) (vs : list Vector3f)
  : list Vector3f :=
  (BlockRadixSort (keyed_values index_hash vs)).*2.

Definition sort_target (num_vals : nat) (w : nat * (Z * Vector3f))
  : option (Z * Vector3f) :=
  let '(s, (_, value)) := w in
  if (s <? num_vals)%nat then Some (Z.of_nat s, value) else None.

(** The items that open a run of equal keys: the first item, and every item
    whose key differs from the key of the item before it. *)
Fixpoint heads_from {V} (key : V -> Z) (prev : Z) (vs : list V) : list V :=
  match vs with
  | [] => []
  | v :: rest =>
      if prev =? key v then heads_from key (key v) rest
      else v :: heads_from key (key v) rest
  end.

Definition run_heads {V} (key : V -> Z) (vs : list V) : list V :=
  match vs with
  | [] => []
  | v :: rest => v :: heads_from key (key v) rest
  end.

(** What the slot [s] of [blockUniqueKernel] writes at the place it gets from
    [atomicAdd], if it writes; and the loop of these writes, the counter
    going up by one with each. *)
Definition unique_emit (num_vals : nat) (loaded : list (Z * Vector3f))
    (head_flags : list Z) (s : nat) : option Vector3f :=
  match loaded !! s, head_flags !! s with
  | Some (_, value), Some flag =>
      if (s <? num_vals)%nat && (flag =? 1) then Some value else None
  | _, _ => None
  end.

Definition append_step {A} (st : list A * Z) (w : option A) : list A * Z :=
  match w with
  | Some v => (write_at st.1 st.2 v, st.2 + 1)
  | None => st
  end.

(** The flagged items of a list. *)
Definition flagged {A} (l : list A) (flags : list Z) : list A :=
  omap (fun vf : A * Z => if vf.2 =? 1 then Some vf.1 else None) (zip l flags).

(** Two blocks that are the same up to what thrust leaves open: the same
    vertices up to the sign of the zeros, as many normals, the same colors and
    the same triangle indices. *)
Definition same_weld (b1 b2 : MeshBlock) : Prop :=
  canon <$> vertices b1 = canon <$> vertices b2 /\
  length (normals b1) = length (normals b2) /\
  colors b1 = colors b2 /\
  triangles b1 = triangles b2.

(** ** Two sequential thrusts

    A stable insertion sort, and a scatter in which, of the assignments to one
    slot, the last one stays (what a sequential back end does) or the first
    one. *)
Fixpoint insert_slot (l : list Vector3f) (i : nat) (order : list nat) : list nat :=
  match order with
  | [] => [i]
  | j :: rest =>
      match l !! j, l !! i with
      | Some vj, Some vi =>
          if VectorCompare vj vi then j :: insert_slot l i rest else i :: order
      | _, _ => i :: order
      end
  end.

Definition stable_sort_order (l : list Vector3f) : list nat :=
  foldr (insert_slot l) [] (seq 0 (length l)).

Definition sequential_thrust : Thrust :=
  {| sort_order := stable_sort_order;
     scatter_race := fun src map output i =>
       default Vector3f_Zero
         (last (omap (fun j => src !! j) (scatter_writers map (length src) i))) |}.

Definition first_writer_thrust : Thrust :=
  {| sort_order := stable_sort_order;
     scatter_race := fun src map output i =>
       default Vector3f_Zero
         (head (omap (fun j => src !! j) (scatter_writers map (length src) i))) |}.

(** The identity index list [0, 1, ..., n-1]. *)
Definition iota (n : nat) : list Z := Z.of_nat <$> seq 0 n.

(** ** Example inputs *)

Definition origin : Index3D := (0, 0, 0).
Definition on_x_axis (m : Z) : Vector3f :=
  mkVector3f (f32 m 0) (S754_zero false) (S754_zero false).
Definition along_z (m : Z) : Vector3f :=
  mkVector3f (S754_zero false) (S754_zero false) (f32 m 0).
Definition minus_zero : Vector3f :=
  mkVector3f (S754_zero true) (S754_zero false) (S754_zero false).

Definition duplicate_block : MeshBlock :=
  mkMeshBlock
    [on_x_axis 3; on_x_axis 1; on_x_axis 2; on_x_axis 1; on_x_axis 4]
    [along_z 1; along_z 2; along_z 3; along_z 4; along_z 5]
    [mkColor 255 0 0 255]
    (iota 5).

Definition signed_zero_block : MeshBlock :=
  mkMeshBlock
    [Vector3f_Zero; minus_zero; on_x_axis 1; on_x_axis 2]
    [along_z 1; along_z 2; along_z 3; along_z 4]
    []
    (iota 4).


Definition example_hash (index : Index3D) : Z :=
  let '(x, y, z) := index in x + y * 17191 + z * (17191 * 17191).

Definition full_input : list Vector3f :=
  replicate (kNumThreads * kNumItemsPerThread) Vector3f_Zero.

Definition over_full_input : list Vector3f := full_input ++ [on_x_axis 1].

End MeshUtils.

(* ===================================================================== *)
(** * Properties of the tracker *)
(* ===================================================================== *)

Module TrackerFacts.
Import Tracker.

Section Facts.
Context {ProjectiveLayerType : Type}.
Variable hasFreespaceLayer : ProjectiveLayerType -> bool.

Abbreviation tracker := (BlocksToUpdateTracker ProjectiveLayerType).

Lemma clearIfTooLarge_under_cap type name (t : tracker) :
  under_cap t -> clearIfTooLarge type name t = t.
Proof.
  intros Hc. unfold clearIfTooLarge.
  destruct (Z.ltb_spec kMaxSize (Z.of_nat (size (blocks_of type t)))) as [Hlt|]; [|done].
  specialize (Hc type). lia.
Qed.

Lemma run_checks_under_cap k (t : tracker) :
  under_cap t ->
  run_checks (take k cap_checks) t = t /\ run_checks (drop k cap_checks) t = t.
Proof.
  intros Hc.
  assert (Hall : forall fs, Forall (fun f => f t = t) fs -> run_checks fs t = t).
  { induction fs as [|f fs IH]; [done|].
    intros Hf. inversion Hf as [|? ? Hft Hfs]; subst. cbn. rewrite Hft. by apply IH. }
  assert (Hcaps : Forall (fun f : tracker -> tracker => f t = t) cap_checks).
  { repeat constructor; by apply clearIfTooLarge_under_cap. }
  split; apply Hall.
  - by apply Forall_take.
  - by apply Forall_drop.
Qed.

Lemma future_wait (t : tracker) : future_ (wait hasFreespaceLayer t) = None.
Proof. unfold wait. by destruct (future_ t) eqn:E. Qed.

Lemma wait_idem (t : tracker) :
  wait hasFreespaceLayer (wait hasFreespaceLayer t) = wait hasFreespaceLayer t.
Proof. unfold wait at 1. by rewrite future_wait. Qed.

Lemma addBlocksToUpdate_under_cap k vec (t : tracker) :
  under_cap t -> under_cap (wait hasFreespaceLayer t) ->
  addBlocksToUpdate hasFreespaceLayer k vec t
  = with_future (Some (AddTask vec)) (wait hasFreespaceLayer t).
Proof.
  intros Hc Hw. unfold addBlocksToUpdate.
  destruct (run_checks_under_cap k t Hc) as [-> _].
  destruct (run_checks_under_cap k _ Hw) as [_ ->].
  by rewrite wait_idem.
Qed.

Lemma elements_pair (B C : Index3D) (s : gset Index3D) :
  B <> C -> s = {[B]} ∪ {[C]} -> elements s ≡ₚ [B; C].
Proof.
  intros Hne ->. rewrite elements_union_singleton by set_solver.
  by rewrite elements_singleton.
Qed.

(** C2.  From a fresh tracker, [addBlocksToUpdate([A,B])],
    [removeBlocksToUpdate([A])], [addBlocksToUpdate([C])], each returning with
    its task still in flight and whatever the moment at which the earlier task
    finishes, followed by [getBlocksToUpdate(kEsdf)], yields the two blocks
    [B] and [C] and nothing else. *)
Theorem linearizable_replay (ty : ProjectiveLayerType) (A B C : Index3D)
    (k1 k2 : nat) :
  A <> B -> A <> C -> B <> C ->
  (getBlocksToUpdate hasFreespaceLayer kEsdf
     (addBlocksToUpdate hasFreespaceLayer k2 [C]
        (removeBlocksToUpdate hasFreespaceLayer [A]
           (addBlocksToUpdate hasFreespaceLayer k1 [A; B] (init ty))))).1
  ≡ₚ [B; C].
Proof.
  intros HAB HAC HBC.
  assert (Hsmall : forall s : gset Index3D, s ⊆ {[A]} ∪ {[B]} ->
            (Z.of_nat (size s) <= kMaxSize)%Z).
  { intros s Hs. apply subseteq_size in Hs.
    rewrite size_union in Hs by set_solver. rewrite !size_singleton in Hs.
    unfold kMaxSize. lia. }
  rewrite (addBlocksToUpdate_under_cap k1).
  2,3: intros []; cbn; apply Hsmall; set_solver.
  rewrite (addBlocksToUpdate_under_cap k2).
  2,3: intros []; cbn; unfold insert_all, erase_all;
       destruct (hasFreespaceLayer ty); apply Hsmall; set_solver.
  cbn. apply elements_pair; [done|].
  unfold insert_all, erase_all. set_solver.
Qed.

(** ** The freespace gate is an invariant *)

Lemma projective_layer_type_run_task task (t : tracker) :
  projective_layer_type_ (run_task hasFreespaceLayer task t) = projective_layer_type_ t.
Proof. destruct task as [vec|vec|[]]; reflexivity. Qed.

Lemma projective_layer_type_wait (t : tracker) :
  projective_layer_type_ (wait hasFreespaceLayer t) = projective_layer_type_ t.
Proof.
  unfold wait. destruct (future_ t); [|done].
  cbn. apply projective_layer_type_run_task.
Qed.

Lemma freespace_gated_wait (t : tracker) :
  freespace_gated hasFreespaceLayer t ->
  freespace_gated hasFreespaceLayer (wait hasFreespaceLayer t).
Proof.
  unfold freespace_gated, wait. intros Hg.
  destruct (future_ t) as [[vec|vec|type]|]; cbn; try done.
  - intros Hfs. rewrite Hfs. auto.
  - intros Hfs. rewrite Hfs. auto.
  - destruct type; cbn; auto.
Qed.

Lemma freespace_gated_clearIfTooLarge type name (t : tracker) :
  freespace_gated hasFreespaceLayer t ->
  freespace_gated hasFreespaceLayer (clearIfTooLarge type name t).
Proof.
  unfold freespace_gated, clearIfTooLarge. intros Hg.
  destruct (kMaxSize <? _); [|done].
  destruct type; cbn; auto.
Qed.

Lemma cap_checks_are_checks :
  Forall is_check (cap_checks : list (tracker -> tracker)).
Proof. repeat constructor; unfold is_check; eauto. Qed.

Lemma run_checks_cons f fs (t : tracker) :
  run_checks (f :: fs) t = run_checks fs (f t).
Proof. reflexivity. Qed.

(** Whatever every single cap check keeps, a run of them keeps. *)
Lemma run_checks_keeps (P : tracker -> Prop) fs (t : tracker) :
  (forall type name u, P u -> P (clearIfTooLarge type name u)) ->
  Forall is_check fs -> P t -> P (run_checks fs t).
Proof.
  intros Hstep Hfs. revert t.
  induction Hfs as [|f fs (type & name & ->) _ IH]; intros t Ht; [done|].
  rewrite run_checks_cons. apply IH, Hstep, Ht.
Qed.

Lemma freespace_gated_run_checks fs (t : tracker) :
  Forall is_check fs ->
  freespace_gated hasFreespaceLayer t ->
  freespace_gated hasFreespaceLayer (run_checks fs t).
Proof.
  intros Hfs. apply (run_checks_keeps (freespace_gated hasFreespaceLayer)); [|done].
  intros. by apply freespace_gated_clearIfTooLarge.
Qed.

Lemma freespace_gated_reachable (t : tracker) :
  reachable hasFreespaceLayer t -> freespace_gated hasFreespaceLayer t.
Proof.
  induction 1 as [ty|k vec t _ IH|vec t _ IH|type t _ IH|type t _ IH].
  - by intros _.
  - unfold addBlocksToUpdate.
    assert (Hg : freespace_gated hasFreespaceLayer
                   (wait hasFreespaceLayer
                      (run_checks (drop k cap_checks)
                         (wait hasFreespaceLayer (run_checks (take k cap_checks) t))))).
    { apply freespace_gated_wait, freespace_gated_run_checks;
        [apply Forall_drop, cap_checks_are_checks|].
      apply freespace_gated_wait, freespace_gated_run_checks;
        [apply Forall_take, cap_checks_are_checks|done]. }
    exact Hg.
  - apply (freespace_gated_wait t) in IH. exact IH.
  - cbn. by apply freespace_gated_wait.
  - apply (freespace_gated_wait t) in IH. exact IH.
Qed.

(** C9.  On every tracker a program can hold, for every list of block indices
    and every layer type, once the task launched by [removeBlocksToUpdate] has
    run each of the four sets is what it was (after the earlier task) minus the
    given indices, so that no removed index is left in any of the four. *)
Theorem remove_erases_from_every_set (t : tracker) (vec : list Index3D) :
  reachable hasFreespaceLayer t ->
  let before := wait hasFreespaceLayer t in
  let after := wait hasFreespaceLayer (removeBlocksToUpdate hasFreespaceLayer vec t) in
  (forall type, blocks_of type after = blocks_of type before ∖ list_to_set vec) /\
  (forall idx type, idx ∈ vec -> idx ∉ blocks_of type after).
Proof.
  intros Hr before after.
  assert (Hg : freespace_gated hasFreespaceLayer before)
    by apply freespace_gated_wait, freespace_gated_reachable, Hr.
  assert (Heq : forall type,
            blocks_of type after = blocks_of type before ∖ list_to_set vec).
  { intros type. subst after. unfold removeBlocksToUpdate, wait at 1. cbn.
    fold before. unfold erase_all.
    destruct type; cbn; try done.
    destruct (hasFreespaceLayer (projective_layer_type_ before)) eqn:Hfs; [done|].
    rewrite (Hg Hfs). set_solver. }
  split; [exact Heq|].
  intros idx type Hin. rewrite Heq. set_solver.
Qed.

(** ** The soft cap *)

Lemma future_clearIfTooLarge type name (t : tracker) :
  future_ (clearIfTooLarge type name t) = future_ t.
Proof. unfold clearIfTooLarge. destruct (kMaxSize <? _); [|done]. by destruct type. Qed.

Lemma run_checks_app fs gs (t : tracker) :
  run_checks (fs ++ gs) t = run_checks gs (run_checks fs t).
Proof. unfold run_checks. apply foldl_app. Qed.

Lemma wait_ready (t : tracker) : future_ t = None -> wait hasFreespaceLayer t = t.
Proof. unfold wait. by intros ->. Qed.

Lemma projective_layer_type_clearIfTooLarge type name (t : tracker) :
  projective_layer_type_ (clearIfTooLarge type name t) = projective_layer_type_ t.
Proof. unfold clearIfTooLarge. destruct (kMaxSize <? _); [|done]. by destruct type. Qed.

Lemma future_run_checks fs (t : tracker) :
  Forall is_check fs -> future_ (run_checks fs t) = future_ t.
Proof.
  intros Hfs.
  apply (run_checks_keeps (fun u => future_ u = future_ t)); [|done..].
  intros type name u Hu. by rewrite future_clearIfTooLarge.
Qed.

Lemma projective_layer_type_run_checks fs (t : tracker) :
  Forall is_check fs ->
  projective_layer_type_ (run_checks fs t) = projective_layer_type_ t.
Proof.
  intros Hfs.
  apply (run_checks_keeps
           (fun u => projective_layer_type_ u = projective_layer_type_ t)); [|done..].
  intros type name u Hu. by rewrite projective_layer_type_clearIfTooLarge.
Qed.

Lemma projective_layer_type_add k vec (t : tracker) :
  projective_layer_type_ (addBlocksToUpdate hasFreespaceLayer k vec t)
  = projective_layer_type_ t.
Proof.
  unfold addBlocksToUpdate. cbn.
  rewrite projective_layer_type_wait.
  rewrite projective_layer_type_run_checks by apply Forall_drop, cap_checks_are_checks.
  rewrite projective_layer_type_wait.
  apply projective_layer_type_run_checks, Forall_take, cap_checks_are_checks.
Qed.

Lemma addBlocksToUpdate_ready k vec (t : tracker) :
  future_ t = None ->
  addBlocksToUpdate hasFreespaceLayer k vec t
  = with_future (Some (AddTask vec)) (run_checks cap_checks t).
Proof.
  intros Hf. unfold addBlocksToUpdate.
  rewrite (wait_ready (run_checks (take k cap_checks) t)).
  2: { rewrite future_run_checks; [done|apply Forall_take, cap_checks_are_checks]. }
  rewrite <- run_checks_app, take_drop.
  rewrite wait_ready; [done|].
  rewrite future_run_checks; [done|apply cap_checks_are_checks].
Qed.

Lemma blocks_of_run_checks type (t : tracker) :
  blocks_of type (run_checks cap_checks t)
  = if kMaxSize <? Z.of_nat (size (blocks_of type t)) then ∅ else blocks_of type t.
Proof.
  unfold cap_checks, run_checks, clearIfTooLarge. cbn.
  destruct t as [ty e m f l fut lg]; cbn.
  destruct (kMaxSize <? Z.of_nat (size e)) eqn:He; cbn;
  destruct (kMaxSize <? Z.of_nat (size m)) eqn:Hm; cbn;
  destruct (kMaxSize <? Z.of_nat (size l)) eqn:Hl; cbn;
  destruct (kMaxSize <? Z.of_nat (size f)) eqn:Hf; cbn;
  destruct type; cbn; rewrite ?He, ?Hm, ?Hl, ?Hf; reflexivity.
Qed.

(** What [getBlocksToUpdate] reads after a call of [addBlocksToUpdate]: the
    selected set as the cap checks and the earlier task left it, with the new
    blocks inserted (the freespace set only under a layer with freespace). *)
Lemma blocks_of_add_then_wait k vec type (t : tracker) :
  (type = kFreespace -> hasFreespaceLayer (projective_layer_type_ t) = true) ->
  exists s,
    blocks_of type
      (wait hasFreespaceLayer (addBlocksToUpdate hasFreespaceLayer k vec t))
    = s ∪ list_to_set vec.
Proof.
  intros Hfs.
  pose proof (projective_layer_type_add k vec t) as Hty.
  unfold addBlocksToUpdate in *.
  set (t4 := wait hasFreespaceLayer (run_checks (drop k cap_checks) _)) in *.
  cbn in Hty. unfold wait at 1. cbn. unfold insert_all. rewrite Hty.
  destruct type; cbn; eauto.
  rewrite Hfs by done. eauto.
Qed.

Lemma getBlocksToUpdate_fst type (t : tracker) :
  (getBlocksToUpdate hasFreespaceLayer type t).1
  = elements (blocks_of type (wait hasFreespaceLayer t)).
Proof. reflexivity. Qed.

Lemma getBlocksToUpdate_snd type (t : tracker) :
  (getBlocksToUpdate hasFreespaceLayer type t).2 = wait hasFreespaceLayer t.
Proof. reflexivity. Qed.

(** C5, as the code has it.  The call of [addBlocksToUpdate] that takes a set
    over the cap does not clear it: [getBlocksToUpdate] right after the call
    reads back every block the call inserted.  The set is cleared by the cap
    check at the start of the next [addBlocksToUpdate], after which it holds
    the blocks of that next call only. *)
Theorem soft_cap_applies_on_next_add (t : tracker) (type : BlocksToUpdateType)
    (k k' : nat) (vec vec' : list Index3D) :
  NoDup vec -> (kMaxSize < Z.of_nat (length vec))%Z ->
  (type = kFreespace -> hasFreespaceLayer (projective_layer_type_ t) = true) ->
  let r := getBlocksToUpdate hasFreespaceLayer type
             (addBlocksToUpdate hasFreespaceLayer k vec t) in
  let r' := getBlocksToUpdate hasFreespaceLayer type
              (addBlocksToUpdate hasFreespaceLayer k' vec' r.2) in
  (forall idx, idx ∈ vec -> idx ∈ r.1) /\
  (kMaxSize < Z.of_nat (length r.1))%Z /\
  (forall idx, idx ∈ r'.1 <-> idx ∈ vec').
Proof.
  intros Hnd Hlen Hfs r r'.
  destruct (blocks_of_add_then_wait k vec type t Hfs) as [s Hs].
  assert (Hr1 : r.1 = elements (s ∪ list_to_set vec)).
  { subst r. by rewrite getBlocksToUpdate_fst, Hs. }
  assert (Hr2 : r.2 = wait hasFreespaceLayer (addBlocksToUpdate hasFreespaceLayer k vec t))
    by reflexivity.
  assert (Hsize : (kMaxSize < Z.of_nat (size (s ∪ list_to_set vec)))%Z).
  { assert (size (list_to_set vec : gset Index3D) <= size (s ∪ list_to_set vec))%nat
      as Hle by (apply subseteq_size; set_solver).
    rewrite size_list_to_set in Hle by done. lia. }
  split; [|split].
  - intros idx Hin. rewrite Hr1, elem_of_elements. set_solver.
  - rewrite Hr1. exact Hsize.
  - intros idx. subst r'. rewrite getBlocksToUpdate_fst.
    rewrite addBlocksToUpdate_ready by (rewrite Hr2; apply future_wait).
    assert (Hty : projective_layer_type_ (run_checks cap_checks r.2)
                  = projective_layer_type_ t).
    { rewrite projective_layer_type_run_checks by apply cap_checks_are_checks.
      by rewrite Hr2, projective_layer_type_wait, projective_layer_type_add. }
    assert (Hcl : blocks_of type (run_checks cap_checks r.2) = ∅).
    { rewrite blocks_of_run_checks, Hr2, Hs.
      destruct (Z.ltb_spec kMaxSize (Z.of_nat (size (s ∪ list_to_set vec)))); [done|lia]. }
    rewrite elem_of_elements.
    generalize dependent (run_checks cap_checks r.2). intros u Hty Hcl.
    unfold wait. cbn. unfold insert_all. rewrite Hty.
    destruct type; cbn in *; rewrite ?Hfs by done; rewrite Hcl; set_solver.
Qed.

(** X1.  Under a layer type without freespace, [addBlocksToUpdate([A, B])] on a
    fresh tracker fills the esdf, mesh and layer-streamer sets with the two
    blocks and leaves the freespace set empty. *)
Theorem freespace_conditional (ty : ProjectiveLayerType) (A B : Index3D) (k : nat) :
  hasFreespaceLayer ty = false -> A <> B ->
  let t := addBlocksToUpdate hasFreespaceLayer k [A; B] (init ty) in
  (getBlocksToUpdate hasFreespaceLayer kFreespace t).1 = [] /\
  (getBlocksToUpdate hasFreespaceLayer kEsdf t).1 ≡ₚ [A; B] /\
  (getBlocksToUpdate hasFreespaceLayer kMesh t).1 ≡ₚ [A; B] /\
  (getBlocksToUpdate hasFreespaceLayer kLayerStreamer t).1 ≡ₚ [A; B].
Proof.
  intros Hfs HAB t. subst t.
  rewrite (addBlocksToUpdate_under_cap k).
  2,3: intros []; cbn; rewrite size_empty; unfold kMaxSize; lia.
  rewrite !getBlocksToUpdate_fst. unfold wait. cbn. rewrite Hfs. unfold insert_all.
  split; [apply elements_empty|].
  repeat split; apply elements_pair; try done; set_solver.
Qed.

End Facts.

Lemma freespace_conditional_witness :
  let t := addBlocksToUpdate example_has_freespace 1 [(0, 0, 0); (1, 0, 0)] (init false) in
  (getBlocksToUpdate example_has_freespace kFreespace t).1 = [] /\
  (getBlocksToUpdate example_has_freespace kEsdf t).1 ≡ₚ [(0, 0, 0); (1, 0, 0)] /\
  (getBlocksToUpdate example_has_freespace kMesh t).1 ≡ₚ [(0, 0, 0); (1, 0, 0)] /\
  (getBlocksToUpdate example_has_freespace kLayerStreamer t).1
  ≡ₚ [(0, 0, 0); (1, 0, 0)].
Proof.
  apply (freespace_conditional example_has_freespace false (0, 0, 0) (1, 0, 0) 1);
    [reflexivity|discriminate].
Defined.

Lemma NoDup_many_blocks : NoDup many_blocks.
Proof.
  unfold many_blocks. apply NoDup_fmap_2; [|apply NoDup_seqZ].
  intros i j Hij. by inversion Hij.
Qed.

Lemma length_many_blocks : Z.of_nat (length many_blocks) = kMaxSize + 1.
Proof.
  unfold many_blocks. rewrite length_fmap, length_seqZ.
  unfold kMaxSize. lia.
Qed.

Lemma linearizable_replay_witness :
  (getBlocksToUpdate example_has_freespace kEsdf
     (addBlocksToUpdate example_has_freespace 2 [(2, 0, 0)]
        (removeBlocksToUpdate example_has_freespace [(0, 0, 0)]
           (addBlocksToUpdate example_has_freespace 4 [(0, 0, 0); (1, 0, 0)]
              (init true))))).1
  ≡ₚ [(1, 0, 0); (2, 0, 0)].
Proof.
  apply (linearizable_replay example_has_freespace true
           (0, 0, 0) (1, 0, 0) (2, 0, 0) 4 2); discriminate.
Defined.

Lemma remove_erases_from_every_set_witness :
  let t := addBlocksToUpdate example_has_freespace 0 [(0, 0, 0); (1, 0, 0)] (init false) in
  let after := wait example_has_freespace
                 (removeBlocksToUpdate example_has_freespace [(0, 0, 0)] t) in
  (forall type,
     blocks_of type after
     = blocks_of type (wait example_has_freespace t) ∖ list_to_set [(0, 0, 0)]) /\
  (forall idx type, idx ∈ [(0, 0, 0)] -> idx ∉ blocks_of type after).
Proof.
  exact (remove_erases_from_every_set example_has_freespace
           (addBlocksToUpdate example_has_freespace 0 [(0, 0, 0); (1, 0, 0)] (init false))
           [(0, 0, 0)]
           (reach_add _ _ 0 [(0, 0, 0); (1, 0, 0)] _ (reach_init _ _ false))).
Defined.

(** C5 as it is worded fails: a single [addBlocksToUpdate] with 100001
    distinct blocks on a fresh tracker, then [getBlocksToUpdate(kEsdf)], reads
    back all 100001 blocks and not an empty vector. *)
Lemma soft_cap_not_applied_by_triggering_call :
  let r := getBlocksToUpdate example_has_freespace kEsdf
             (addBlocksToUpdate example_has_freespace 0 many_blocks (init true)) in
  NoDup many_blocks /\
  kMaxSize < Z.of_nat (size (list_to_set many_blocks : gset Index3D)) /\
  Z.of_nat (length r.1) = kMaxSize + 1 /\
  r.1 <> [].
Proof.
  intros r.
  assert (Hr : r.1 ≡ₚ many_blocks).
  { subst r. rewrite getBlocksToUpdate_fst.
    rewrite addBlocksToUpdate_under_cap.
    2,3: intros []; cbn; rewrite size_empty; unfold kMaxSize; lia.
    unfold wait. cbn - [many_blocks]. unfold insert_all.
    rewrite (left_id_L ∅ (∪)).
    apply elements_list_to_set, NoDup_many_blocks. }
  pose proof length_many_blocks as Hlen. unfold kMaxSize in *.
  split; [apply NoDup_many_blocks|]. split; [|split].
  - rewrite size_list_to_set by apply NoDup_many_blocks. lia.
  - by rewrite Hr.
  - intros Hnil. rewrite Hnil in Hr. apply Permutation_length in Hr.
    change (length (@nil Index3D)) with 0%nat in Hr. lia.
Qed.

Lemma soft_cap_applies_on_next_add_witness :
  let r := getBlocksToUpdate example_has_freespace kEsdf
             (addBlocksToUpdate example_has_freespace 0 many_blocks (init true)) in
  let r' := getBlocksToUpdate example_has_freespace kEsdf
              (addBlocksToUpdate example_has_freespace 0 [(7, 7, 7)] r.2) in
  (forall idx, idx ∈ many_blocks -> idx ∈ r.1) /\
  kMaxSize < Z.of_nat (length r.1) /\
  (forall idx, idx ∈ r'.1 <-> idx ∈ [(7, 7, 7)]).
Proof.
  apply (soft_cap_applies_on_next_add example_has_freespace (init true) kEsdf
           0 0 many_blocks [(7, 7, 7)]).
  - apply NoDup_many_blocks.
  - rewrite length_many_blocks. lia.
  - discriminate.
Defined.

(** ** The member functions in use *)

Section Calls.
Context {ProjectiveLayerType : Type}.
Variable hasFreespaceLayer : ProjectiveLayerType -> bool.

Local Abbreviation tracker := (BlocksToUpdateTracker ProjectiveLayerType).

(** The sets once the task in flight has run. *)
Lemma blocks_of_with_future type f (t : tracker) :
  blocks_of type (with_future f t) = blocks_of type t.
Proof. by destruct type. Qed.

Lemma blocks_of_wait_add type vec (t : tracker) :
  future_ t = Some (AddTask vec) ->
  blocks_of type (wait hasFreespaceLayer t)
  = if decide (type = kFreespace)
    then (if hasFreespaceLayer (projective_layer_type_ t)
          then blocks_of type t ∪ list_to_set vec else blocks_of type t)
    else blocks_of type t ∪ list_to_set vec.
Proof. unfold wait. intros ->. by destruct type. Qed.

Lemma blocks_of_wait_remove type vec (t : tracker) :
  future_ t = Some (RemoveTask vec) ->
  blocks_of type (wait hasFreespaceLayer t)
  = if decide (type = kFreespace)
    then (if hasFreespaceLayer (projective_layer_type_ t)
          then blocks_of type t ∖ list_to_set vec else blocks_of type t)
    else blocks_of type t ∖ list_to_set vec.
Proof. unfold wait. intros ->. by destruct type. Qed.

Lemma blocks_of_add_idle k vec type (t : tracker) :
  future_ t = None ->
  (type = kFreespace -> hasFreespaceLayer (projective_layer_type_ t) = true) ->
  blocks_of type (wait hasFreespaceLayer (addBlocksToUpdate hasFreespaceLayer k vec t))
  = (if kMaxSize <? Z.of_nat (size (blocks_of type t)) then ∅ else blocks_of type t)
    ∪ list_to_set vec.
Proof.
  intros Hf Hen. rewrite addBlocksToUpdate_ready by done.
  erewrite blocks_of_wait_add by reflexivity.
  rewrite blocks_of_with_future, blocks_of_run_checks.
  cbn [projective_layer_type_ with_future].
  rewrite projective_layer_type_run_checks by apply cap_checks_are_checks.
  destruct (decide (type = kFreespace)) as [E|E]; [|done].
  by rewrite (Hen E).
Qed.


Lemma blocks_of_clearIfTooLarge_subseteq type type' name (t : tracker) :
  blocks_of type (clearIfTooLarge type' name t) ⊆ blocks_of type t.
Proof.
  unfold clearIfTooLarge. destruct (kMaxSize <? _); [|done].
  destruct type, type'; cbn; set_solver.
Qed.

Lemma blocks_of_run_checks_subseteq type fs (t : tracker) :
  Forall is_check fs -> blocks_of type (run_checks fs t) ⊆ blocks_of type t.
Proof.
  intros Hfs.
  apply (run_checks_keeps (fun u => blocks_of type u ⊆ blocks_of type t)); [|done|done].
  intros type' name u Hu. etrans; [apply blocks_of_clearIfTooLarge_subseteq|done].
Qed.

Lemma getBlocksToUpdate_elem type (t : tracker) idx :
  idx ∈ (getBlocksToUpdate hasFreespaceLayer type t).1
  <-> idx ∈ blocks_of type (wait hasFreespaceLayer t).
Proof. rewrite getBlocksToUpdate_fst. apply elem_of_elements. Qed.

Lemma under_cap_with_future f (t : tracker) : under_cap t -> under_cap (with_future f t).
Proof. intros H type. rewrite blocks_of_with_future. apply H. Qed.

(** X2.  After [markBlocksAsUpdated(type)], [getBlocksToUpdate] returns an
    empty vector for [type] and, for every other selector, the vector it would
    have returned without the call. *)
Theorem mark_then_get (t : tracker) (type type' : BlocksToUpdateType) :
  (getBlocksToUpdate hasFreespaceLayer type'
     (markBlocksAsUpdated hasFreespaceLayer type t)).1
  = if decide (type' = type) then []
    else (getBlocksToUpdate hasFreespaceLayer type' t).1.
Proof.
  rewrite !getBlocksToUpdate_fst.
  unfold markBlocksAsUpdated, wait at 1. cbn.
  destruct type, type'; cbn; try done; apply elements_empty.
Qed.

(** X3.  While every set is within the cap, before and after the task in
    flight has run, [addBlocksToUpdate(vec)] followed by
    [getBlocksToUpdate(type)] returns, without duplicates, exactly the blocks
    that were pending for [type] and the blocks of [vec] (for the freespace
    selector: under a layer type with freespace), at whatever moment the
    earlier task finishes.  The cap is inclusive: a set of exactly 100000
    blocks is within it. *)
Theorem add_then_get_within_cap (t : tracker) (type : BlocksToUpdateType)
    (k : nat) (vec : list Index3D) :
  under_cap t -> under_cap (wait hasFreespaceLayer t) ->
  (type = kFreespace -> hasFreespaceLayer (projective_layer_type_ t) = true) ->
  let r := (getBlocksToUpdate hasFreespaceLayer type
              (addBlocksToUpdate hasFreespaceLayer k vec t)).1 in
  NoDup r /\
  forall idx,
    idx ∈ r <-> idx ∈ (getBlocksToUpdate hasFreespaceLayer type t).1 \/ idx ∈ vec.
Proof.
  intros Hc Hcw Hen r. subst r. split.
  { rewrite getBlocksToUpdate_fst. apply NoDup_elements. }
  intros idx. rewrite !getBlocksToUpdate_elem.
  rewrite (addBlocksToUpdate_under_cap _ k) by done.
  erewrite blocks_of_wait_add by reflexivity.
  rewrite blocks_of_with_future. cbn [projective_layer_type_ with_future].
  rewrite projective_layer_type_wait.
  destruct (decide (type = kFreespace)) as [E|E]; [rewrite (Hen E)|]; set_solver.
Qed.

(** X4.  A block handed to [addBlocksToUpdate] is returned by the next
    [getBlocksToUpdate] of every selector (the freespace one under a layer
    type with freespace), whatever the tracker held, whether or not a cap
    check cleared a set, and at whatever moment the earlier task finishes. *)
Theorem added_blocks_are_pending (t : tracker) (type : BlocksToUpdateType)
    (k : nat) (vec : list Index3D) (idx : Index3D) :
  (type = kFreespace -> hasFreespaceLayer (projective_layer_type_ t) = true) ->
  idx ∈ vec ->
  idx ∈ (getBlocksToUpdate hasFreespaceLayer type
           (addBlocksToUpdate hasFreespaceLayer k vec t)).1.
Proof.
  intros Hen Hin. rewrite getBlocksToUpdate_elem.
  destruct (blocks_of_add_then_wait hasFreespaceLayer k vec type t Hen) as [s ->].
  set_solver.
Qed.

Lemma size_list_to_set_le (vec : list Index3D) :
  (size (list_to_set vec : gset Index3D) <= length vec)%nat.
Proof.
  induction vec as [|idx vec IH]; cbn.
  - by rewrite size_empty.
  - rewrite size_union_alt, size_singleton.
    assert (size ((list_to_set vec : gset Index3D) ∖ {[idx]})
            <= size (list_to_set vec : gset Index3D))%nat
      by (apply subseteq_size; set_solver).
    lia.
Qed.

Lemma size_union_le (s u : gset Index3D) : (size (s ∪ u) <= size s + size u)%nat.
Proof.
  rewrite size_union_alt. apply Nat.add_le_mono_l, subseteq_size. set_solver.
Qed.

(** X5.  On a tracker with no task in flight, after [addBlocksToUpdate(vec)]
    every selector has at most 100000 blocks plus the length of [vec]
    pending. *)
Theorem pending_set_bounded (t : tracker) (type : BlocksToUpdateType)
    (k : nat) (vec : list Index3D) :
  future_ t = None ->
  Z.of_nat (length (getBlocksToUpdate hasFreespaceLayer type
                      (addBlocksToUpdate hasFreespaceLayer k vec t)).1)
  <= kMaxSize + Z.of_nat (length vec).
Proof.
  intros Hf. rewrite getBlocksToUpdate_fst.
  change (length (elements ?s)) with (size s).
  rewrite addBlocksToUpdate_ready by done.
  erewrite blocks_of_wait_add by reflexivity.
  rewrite blocks_of_with_future, blocks_of_run_checks.
  set (s := if kMaxSize <? Z.of_nat (size (blocks_of type t)) then ∅ else blocks_of type t).
  assert (Hs : Z.of_nat (size s) <= kMaxSize).
  { subst s. destruct (Z.ltb_spec kMaxSize (Z.of_nat (size (blocks_of type t)))).
    - rewrite size_empty. unfold kMaxSize. lia.
    - done. }
  pose proof (size_list_to_set_le vec) as Hv.
  pose proof (size_union_le s (list_to_set vec)) as Hu.
  destruct (decide (type = kFreespace)); [destruct (hasFreespaceLayer _)|]; lia.
Qed.

(** X6.  [removeBlocksToUpdate] of blocks none of which is pending for [type]
    leaves what [getBlocksToUpdate(type)] returns unchanged. *)
Theorem remove_absent_is_noop (t : tracker) (type : BlocksToUpdateType)
    (vec : list Index3D) :
  (forall idx, idx ∈ vec -> idx ∉ (getBlocksToUpdate hasFreespaceLayer type t).1) ->
  (getBlocksToUpdate hasFreespaceLayer type
     (removeBlocksToUpdate hasFreespaceLayer vec t)).1
  = (getBlocksToUpdate hasFreespaceLayer type t).1.
Proof.
  intros Hab. rewrite !getBlocksToUpdate_fst. f_equal.
  unfold removeBlocksToUpdate.
  erewrite blocks_of_wait_remove by reflexivity.
  rewrite blocks_of_with_future.
  assert (Hd : blocks_of type (wait hasFreespaceLayer t) ∖ list_to_set vec
               = blocks_of type (wait hasFreespaceLayer t)).
  { apply set_eq. intros idx. rewrite elem_of_difference, elem_of_list_to_set.
    split; [by intros [? _]|]. intros Hin. split; [done|].
    intros Hv. apply (Hab idx Hv). by apply getBlocksToUpdate_elem. }
  rewrite Hd. by repeat case_match.
Qed.

Lemma blocks_of_add_explicit k vec type (t : tracker) :
  (type = kFreespace -> hasFreespaceLayer (projective_layer_type_ t) = true) ->
  blocks_of type (wait hasFreespaceLayer (addBlocksToUpdate hasFreespaceLayer k vec t))
  = blocks_of type
      (wait hasFreespaceLayer
         (run_checks (drop k cap_checks)
            (wait hasFreespaceLayer (run_checks (take k cap_checks) t))))
    ∪ list_to_set vec.
Proof.
  intros Hen.
  pose proof (projective_layer_type_add hasFreespaceLayer k vec t) as Hty.
  unfold addBlocksToUpdate in *.
  erewrite blocks_of_wait_add by reflexivity.
  rewrite blocks_of_with_future, Hty.
  destruct (decide (type = kFreespace)) as [E|E]; [by rewrite (Hen E)|done].
Qed.

(** X7.  Within the cap, [addBlocksToUpdate(vec)] followed by
    [removeBlocksToUpdate(vec)] leaves pending for [type] (for the freespace
    selector: under a layer type with freespace) the blocks that were pending
    before and are not in [vec]: the removal cancels the addition, and drops
    the blocks of [vec] that were pending already. *)
Theorem add_then_remove_cancels (t : tracker) (type : BlocksToUpdateType)
    (k : nat) (vec : list Index3D) :
  under_cap t -> under_cap (wait hasFreespaceLayer t) ->
  (type = kFreespace -> hasFreespaceLayer (projective_layer_type_ t) = true) ->
  forall idx,
    idx ∈ (getBlocksToUpdate hasFreespaceLayer type
             (removeBlocksToUpdate hasFreespaceLayer vec
                (addBlocksToUpdate hasFreespaceLayer k vec t))).1
    <-> idx ∈ (getBlocksToUpdate hasFreespaceLayer type t).1 /\ idx ∉ vec.
Proof.
  intros Hc Hcw Hen idx. rewrite !getBlocksToUpdate_elem.
  unfold removeBlocksToUpdate.
  erewrite blocks_of_wait_remove by reflexivity.
  rewrite blocks_of_with_future. cbn [projective_layer_type_ with_future].
  rewrite projective_layer_type_wait, projective_layer_type_add.
  rewrite (addBlocksToUpdate_under_cap _ k) by done.
  erewrite blocks_of_wait_add by reflexivity.
  rewrite blocks_of_with_future. cbn [projective_layer_type_ with_future].
  rewrite projective_layer_type_wait.
  destruct (decide (type = kFreespace)) as [E|E]; [rewrite (Hen E)|]; set_solver.
Qed.

(** X8.  [getBlocksToUpdate] returns no block twice and consumes nothing: a
    second call, with any selector, on the tracker it leaves returns what it
    would have returned on the tracker before. *)
Theorem get_is_repeatable (t : tracker) (type type' : BlocksToUpdateType) :
  let r := getBlocksToUpdate hasFreespaceLayer type t in
  NoDup r.1 /\
  (getBlocksToUpdate hasFreespaceLayer type' r.2).1
  = (getBlocksToUpdate hasFreespaceLayer type' t).1.
Proof.
  intros r. subst r. split.
  - rewrite getBlocksToUpdate_fst. apply NoDup_elements.
  - by rewrite !getBlocksToUpdate_fst, getBlocksToUpdate_snd, wait_idem.
Qed.

(** X9.  Under a layer type without freespace, on every tracker a program can
    hold, [getBlocksToUpdate(kFreespace)] returns an empty vector. *)
Theorem freespace_never_pending (t : tracker) :
  reachable hasFreespaceLayer t ->
  hasFreespaceLayer (projective_layer_type_ t) = false ->
  (getBlocksToUpdate hasFreespaceLayer kFreespace t).1 = [].
Proof.
  intros Hr Hfs. rewrite getBlocksToUpdate_fst.
  pose proof (freespace_gated_wait hasFreespaceLayer t
                (freespace_gated_reachable hasFreespaceLayer t Hr)) as Hg.
  cbn. rewrite Hg; [apply elements_empty|].
  by rewrite projective_layer_type_wait.
Qed.

(** X10.  [markBlocksAsUpdated(type)] followed by [addBlocksToUpdate(vec)],
    for a selector other than the freespace one, and for the freespace one
    under a layer type with freespace: the next [getBlocksToUpdate(type)]
    returns the blocks of [vec] and no other, whatever was pending and at
    whatever moment the marking task finishes relative to the cap checks. *)
Theorem mark_then_add (t : tracker) (type : BlocksToUpdateType)
    (k : nat) (vec : list Index3D) :
  (type = kFreespace -> hasFreespaceLayer (projective_layer_type_ t) = true) ->
  forall idx,
    idx ∈ (getBlocksToUpdate hasFreespaceLayer type
             (addBlocksToUpdate hasFreespaceLayer k vec
                (markBlocksAsUpdated hasFreespaceLayer type t))).1
    <-> idx ∈ vec.
Proof.
  intros Hen idx. rewrite getBlocksToUpdate_elem.
  set (t' := markBlocksAsUpdated hasFreespaceLayer type t).
  assert (Hty : projective_layer_type_ t' = projective_layer_type_ t).
  { subst t'. unfold markBlocksAsUpdated. cbn. apply projective_layer_type_wait. }
  rewrite blocks_of_add_explicit by (by rewrite Hty).
  set (u1 := run_checks (take k cap_checks) t').
  assert (Hf1 : future_ u1 = Some (MarkTask type)).
  { subst u1. by rewrite future_run_checks by apply Forall_take, cap_checks_are_checks. }
  assert (He1 : blocks_of type (wait hasFreespaceLayer u1) = ∅).
  { unfold wait. rewrite Hf1. cbn. by destruct type. }
  set (u2 := run_checks (drop k cap_checks) (wait hasFreespaceLayer u1)).
  assert (Hf2 : future_ u2 = None).
  { subst u2. rewrite future_run_checks by apply Forall_drop, cap_checks_are_checks.
    apply future_wait. }
  assert (He2 : blocks_of type u2 = ∅).
  { pose proof (blocks_of_run_checks_subseteq type (drop k cap_checks)
                  (wait hasFreespaceLayer u1)
                  (Forall_drop _ _ _ cap_checks_are_checks)) as Hsub.
    fold u2 in Hsub. rewrite He1 in Hsub. set_solver. }
  rewrite (wait_ready _ u2) by done. rewrite He2. set_solver.
Qed.

End Calls.

Lemma under_cap_init (ty : bool) : under_cap (init ty).
Proof. intros []; cbn; rewrite size_empty; unfold kMaxSize; lia. Qed.

(** A fresh tracker under the layer type with freespace, after one call of
    [addBlocksToUpdate]: while the task is in flight the sets are empty, and
    once it has run each of them holds the blocks of the call. *)
Lemma under_cap_add_in_flight k vec :
  under_cap (addBlocksToUpdate example_has_freespace k vec (init true)).
Proof.
  intros type.
  rewrite (addBlocksToUpdate_under_cap example_has_freespace k vec (init true))
    by apply under_cap_init.
  rewrite blocks_of_with_future. apply under_cap_init.
Qed.

Lemma blocks_of_add_init k vec type :
  blocks_of type
    (wait example_has_freespace
       (addBlocksToUpdate example_has_freespace k vec (init true)))
  = list_to_set vec.
Proof.
  rewrite blocks_of_add_idle by done.
  assert (Hempty : blocks_of type (init true) = ∅) by by destruct type.
  rewrite Hempty, size_empty.
  destruct (kMaxSize <? Z.of_nat 0); apply (left_id_L ∅ (∪)).
Qed.

Lemma under_cap_add_landed k vec :
  Z.of_nat (length vec) <= kMaxSize ->
  under_cap (wait example_has_freespace
               (addBlocksToUpdate example_has_freespace k vec (init true))).
Proof.
  intros Hlen type. rewrite blocks_of_add_init.
  pose proof (size_list_to_set_le vec). lia.
Qed.

Lemma many_blocks_over_cap type :
  (kMaxSize <? Z.of_nat
                 (size (blocks_of type
                          (wait example_has_freespace
                             (addBlocksToUpdate example_has_freespace 0 many_blocks
                                (init true)))))) = true.
Proof.
  rewrite blocks_of_add_init, size_list_to_set by apply NoDup_many_blocks.
  rewrite length_many_blocks. apply Z.ltb_lt. lia.
Qed.

Lemma add_then_get_within_cap_witness :
  let r := (getBlocksToUpdate example_has_freespace kMesh
              (addBlocksToUpdate example_has_freespace 2 [(1, 2, 3); (1, 2, 3)]
                 (init false))).1 in
  NoDup r /\
  forall idx,
    idx ∈ r <-> idx ∈ (getBlocksToUpdate example_has_freespace kMesh (init false)).1
                \/ idx ∈ [(1, 2, 3); (1, 2, 3)].
Proof.
  apply (add_then_get_within_cap example_has_freespace (init false) kMesh 2
           [(1, 2, 3); (1, 2, 3)]).
  - apply under_cap_init.
  - apply under_cap_init.
  - discriminate.
Defined.

Lemma added_blocks_are_pending_witness :
  (1, 2, 3) ∈ (getBlocksToUpdate example_has_freespace kFreespace
                 (addBlocksToUpdate example_has_freespace 3 [(1, 2, 3)] (init true))).1.
Proof.
  apply (added_blocks_are_pending example_has_freespace (init true) kFreespace 3
           [(1, 2, 3)] (1, 2, 3)).
  - reflexivity.
  - apply list_elem_of_here.
Defined.

Lemma pending_set_bounded_witness :
  Z.of_nat (length (getBlocksToUpdate example_has_freespace kEsdf
                      (addBlocksToUpdate example_has_freespace 0 [(1, 2, 3)]
                         (init true))).1)
  <= kMaxSize + Z.of_nat (length [(1, 2, 3)]).
Proof.
  apply (pending_set_bounded example_has_freespace (init true) kEsdf 0 [(1, 2, 3)]).
  reflexivity.
Defined.

Lemma remove_absent_is_noop_witness :
  let t := addBlocksToUpdate example_has_freespace 0 [(1, 2, 3)] (init true) in
  (1, 2, 3) ∈ (getBlocksToUpdate example_has_freespace kEsdf t).1 /\
  (getBlocksToUpdate example_has_freespace kEsdf
     (removeBlocksToUpdate example_has_freespace [(4, 5, 6)] t)).1
  = (getBlocksToUpdate example_has_freespace kEsdf t).1.
Proof.
  split.
  - apply getBlocksToUpdate_elem. rewrite blocks_of_add_init.
    apply elem_of_list_to_set, list_elem_of_here.
  - apply (remove_absent_is_noop example_has_freespace
             (addBlocksToUpdate example_has_freespace 0 [(1, 2, 3)] (init true))
             kEsdf [(4, 5, 6)]).
    intros idx Hin Hel. apply list_elem_of_singleton in Hin as ->.
    apply getBlocksToUpdate_elem in Hel. rewrite blocks_of_add_init in Hel.
    apply elem_of_list_to_set, list_elem_of_singleton in Hel. discriminate.
Defined.

Lemma add_then_remove_cancels_witness :
  let t := addBlocksToUpdate example_has_freespace 0 [(1, 2, 3); (7, 8, 9)]
             (init true) in
  let before := (getBlocksToUpdate example_has_freespace kEsdf t).1 in
  let after := (getBlocksToUpdate example_has_freespace kEsdf
                  (removeBlocksToUpdate example_has_freespace [(1, 2, 3); (4, 5, 6)]
                     (addBlocksToUpdate example_has_freespace 1
                        [(1, 2, 3); (4, 5, 6)] t))).1 in
  ((1, 2, 3) ∈ before /\ (7, 8, 9) ∈ before) /\
  ((1, 2, 3) ∈ after <-> (1, 2, 3) ∈ before /\ (1, 2, 3) ∉ [(1, 2, 3); (4, 5, 6)]) /\
  ((4, 5, 6) ∈ after <-> (4, 5, 6) ∈ before /\ (4, 5, 6) ∉ [(1, 2, 3); (4, 5, 6)]) /\
  ((7, 8, 9) ∈ after <-> (7, 8, 9) ∈ before /\ (7, 8, 9) ∉ [(1, 2, 3); (4, 5, 6)]).
Proof.
  pose proof (add_then_remove_cancels example_has_freespace
                (addBlocksToUpdate example_has_freespace 0 [(1, 2, 3); (7, 8, 9)]
                   (init true))
                kEsdf 1 [(1, 2, 3); (4, 5, 6)]
                (under_cap_add_in_flight 0 [(1, 2, 3); (7, 8, 9)])
                (under_cap_add_landed 0 [(1, 2, 3); (7, 8, 9)]
                   ltac:(unfold kMaxSize; cbn; lia))
                ltac:(discriminate)) as Hcancel.
  split; [|split; [apply Hcancel|split; apply Hcancel]].
  split; apply getBlocksToUpdate_elem; rewrite blocks_of_add_init;
    apply elem_of_list_to_set; [apply list_elem_of_here|].
  apply list_elem_of_further, list_elem_of_here.
Defined.

Lemma freespace_never_pending_witness :
  (getBlocksToUpdate example_has_freespace kFreespace
     (addBlocksToUpdate example_has_freespace 0 [(1, 2, 3)] (init false))).1 = [].
Proof.
  apply (freespace_never_pending example_has_freespace
           (addBlocksToUpdate example_has_freespace 0 [(1, 2, 3)] (init false))).
  - apply reach_add, reach_init.
  - reflexivity.
Defined.

Lemma mark_then_add_witness :
  (4, 5, 6) ∈ (getBlocksToUpdate example_has_freespace kMesh
                 (addBlocksToUpdate example_has_freespace 2 [(4, 5, 6)]
                    (markBlocksAsUpdated example_has_freespace kMesh
                       (addBlocksToUpdate example_has_freespace 0 [(1, 2, 3)]
                          (init true))))).1
  <-> (4, 5, 6) ∈ [(4, 5, 6)].
Proof.
  apply (mark_then_add example_has_freespace
           (addBlocksToUpdate example_has_freespace 0 [(1, 2, 3)] (init true))
           kMesh 2 [(4, 5, 6)]).
  discriminate.
Defined.

Section Log.
Context {ProjectiveLayerType : Type}.
Variable hasFreespaceLayer : ProjectiveLayerType -> bool.

Lemma log_with_future f (t : BlocksToUpdateTracker ProjectiveLayerType) :
  log_ (with_future f t) = log_ t.
Proof. reflexivity. Qed.

Lemma log_run_task task (t : BlocksToUpdateTracker ProjectiveLayerType) :
  log_ (run_task hasFreespaceLayer task t) = log_ t.
Proof. destruct task as [vec|vec|[]]; reflexivity. Qed.

Lemma log_wait (t : BlocksToUpdateTracker ProjectiveLayerType) :
  log_ (wait hasFreespaceLayer t) = log_ t.
Proof. unfold wait. destruct (future_ t); [|done]. cbn. apply log_run_task. Qed.

Lemma log_run_checks (t : BlocksToUpdateTracker ProjectiveLayerType) :
  log_ (run_checks cap_checks t)
  = reverse (too_large_names t) ++ log_ t.
Proof.
  unfold cap_checks, run_checks, clearIfTooLarge, too_large_names, cap_names. cbn.
  destruct t as [ty e m f l fut lg]; cbn.
  destruct (kMaxSize <? Z.of_nat (size e)) eqn:He; cbn;
  destruct (kMaxSize <? Z.of_nat (size m)) eqn:Hm; cbn;
  destruct (kMaxSize <? Z.of_nat (size l)) eqn:Hl; cbn;
  destruct (kMaxSize <? Z.of_nat (size f)) eqn:Hf; cbn;
  rewrite ?He, ?Hm, ?Hl, ?Hf; reflexivity.
Qed.

Lemma too_large_names_all (t : BlocksToUpdateTracker ProjectiveLayerType) :
  (forall type, (kMaxSize <? Z.of_nat (size (blocks_of type t))) = true) ->
  too_large_names t = ["esdf"; "mesh"; "layer_streamer"; "freespace"]%string.
Proof.
  intros Hall.
  pose proof (Hall kEsdf) as He. pose proof (Hall kMesh) as Hm.
  pose proof (Hall kLayerStreamer) as Hl. pose proof (Hall kFreespace) as Hf.
  unfold too_large_names, cap_names. cbn in *. by rewrite He, Hm, Hl, Hf.
Qed.

(** X11.  On a tracker with no task in flight, [addBlocksToUpdate] logs one
    error for each set that is over the cap, in the order esdf, mesh,
    layer_streamer, freespace, and nothing else; the three other member
    functions log nothing. *)
Theorem cap_errors_are_logged (t : BlocksToUpdateTracker ProjectiveLayerType)
    (k : nat) (vec : list Index3D) (type : BlocksToUpdateType) :
  future_ t = None ->
  log_ (addBlocksToUpdate hasFreespaceLayer k vec t)
  = reverse (too_large_names t) ++ log_ t /\
  log_ (removeBlocksToUpdate hasFreespaceLayer vec t) = log_ t /\
  log_ (markBlocksAsUpdated hasFreespaceLayer type t) = log_ t /\
  log_ (getBlocksToUpdate hasFreespaceLayer type t).2 = log_ t.
Proof.
  intros Hf. split; [|split; [|split]].
  - rewrite addBlocksToUpdate_ready by done.
    rewrite log_with_future. apply log_run_checks.
  - unfold removeBlocksToUpdate. by rewrite log_with_future, log_wait.
  - unfold markBlocksAsUpdated. by rewrite log_with_future, log_wait.
  - rewrite getBlocksToUpdate_snd. apply log_wait.
Qed.

End Log.

Lemma cap_errors_are_logged_witness :
  let t := (getBlocksToUpdate example_has_freespace kEsdf
              (addBlocksToUpdate example_has_freespace 0 many_blocks (init true))).2 in
  too_large_names t = ["esdf"; "mesh"; "layer_streamer"; "freespace"]%string /\
  log_ (addBlocksToUpdate example_has_freespace 0 [(1, 2, 3)] t)
  = reverse (too_large_names t) ++ log_ t /\
  log_ (removeBlocksToUpdate example_has_freespace [(1, 2, 3)] t) = log_ t /\
  log_ (markBlocksAsUpdated example_has_freespace kEsdf t) = log_ t /\
  log_ (getBlocksToUpdate example_has_freespace kEsdf t).2 = log_ t.
Proof.
  split.
  - apply too_large_names_all. intros type. apply many_blocks_over_cap.
  - apply (cap_errors_are_logged example_has_freespace
             (getBlocksToUpdate example_has_freespace kEsdf
                (addBlocksToUpdate example_has_freespace 0 many_blocks (init true))).2
             0 [(1, 2, 3)] kEsdf).
    apply future_wait.
Defined.

End TrackerFacts.

(* ===================================================================== *)
(** * Properties of the welding pass *)
(* ===================================================================== *)

Module MeshFacts.
Import MeshUtils.

(** ** The comparator on positions without NaN *)

Ltac cmp_cases :=
  repeat match goal with
  | |- context [Z.compare ?x ?y] => destruct (Z.compare_spec x y)
  | |- context [Pos.compare_cont Eq ?x ?y] =>
      change (Pos.compare_cont Eq x y) with (Pos.compare x y);
      destruct (Pos.compare_spec x y)
  | H : context [Z.compare ?x ?y] |- _ => destruct (Z.compare_spec x y)
  | H : context [Pos.compare_cont Eq ?x ?y] |- _ =>
      change (Pos.compare_cont Eq x y) with (Pos.compare x y) in H;
      destruct (Pos.compare_spec x y)
  end.

Lemma SFcompare_fcmp a b :
  is_nan a = false -> is_nan b = false -> SFcompare a b = Some (fcmp a b).
Proof. unfold fcmp. by destruct a, b. Qed.

Lemma fcmp_antisym a b : fcmp b a = CompOpp (fcmp a b).
Proof.
  unfold fcmp.
  destruct a as [[]|[]| |[] m1 e1], b as [[]|[]| |[] m2 e2]; cbn; try reflexivity;
    cmp_cases; cbn; try reflexivity; try lia.
Qed.

Lemma fcmp_trans a b c : fcmp a b = Lt -> fcmp b c = Lt -> fcmp a c = Lt.
Proof.
  unfold fcmp.
  destruct a as [[]|[]| |[] m1 e1], b as [[]|[]| |[] m2 e2], c as [[]|[]| |[] m3 e3];
    cbn; try done; intros; cmp_cases; cbn in *; try done; try lia.
Qed.

Lemma fcmp_eq_canon a b :
  is_nan a = false -> is_nan b = false ->
  fcmp a b = Eq <-> canon_float a = canon_float b.
Proof.
  unfold fcmp.
  destruct a as [[]|[]| |[] m1 e1], b as [[]|[]| |[] m2 e2]; cbn; try done;
    intros _ _; split; intros H; try done; try (by inversion H);
    cmp_cases; cbn in *; try done; try (inversion H; lia); try (f_equal; lia).
Qed.

Lemma fcmp_canon_l a a' c : canon_float a = canon_float a' -> fcmp a c = fcmp a' c.
Proof.
  destruct a as [[]|[]| |[] m1 e1], a' as [[]|[]| |[] m2 e2]; cbn; intros H;
    try done; by inversion H.
Qed.

Lemma fcmp_canon_r a a' c : canon_float a = canon_float a' -> fcmp c a = fcmp c a'.
Proof. intros H. by rewrite (fcmp_antisym a c), (fcmp_antisym a' c), (fcmp_canon_l a a'). Qed.

Lemma SFltb_fcmp a b : SFltb a b = true <-> fcmp a b = Lt.
Proof.
  unfold SFltb, fcmp. destruct (SFcompare a b) as [[]|]; cbn; split; done.
Qed.

Lemma SFeqb_fcmp a b :
  is_nan a = false -> is_nan b = false -> SFeqb a b = true <-> fcmp a b = Eq.
Proof.
  intros Ha Hb. unfold SFeqb. rewrite (SFcompare_fcmp a b Ha Hb).
  destruct (fcmp a b); split; done.
Qed.

(** Vectors *)
Lemma nan_free_coords v :
  nan_free v = true ->
  is_nan (vec_x v) = false /\ is_nan (vec_y v) = false /\ is_nan (vec_z v) = false.
Proof.
  unfold nan_free. rewrite !andb_true_iff, !negb_true_iff. tauto.
Qed.

Lemma lex_Lt c d : lex c d = Lt <-> c = Lt \/ (c = Eq /\ d = Lt).
Proof. destruct c, d; cbn; intuition congruence. Qed.

Lemma lex_Eq c d : lex c d = Eq <-> c = Eq /\ d = Eq.
Proof. destruct c, d; cbn; intuition congruence. Qed.

Lemma lex_opp c d : CompOpp (lex c d) = lex (CompOpp c) (CompOpp d).
Proof. by destruct c, d. Qed.

Lemma VectorCompare_vcmp a b :
  nan_free a = true -> nan_free b = true ->
  VectorCompare a b = true <-> vcmp a b = Lt.
Proof.
  intros (Hax & Hay & Haz)%nan_free_coords (Hbx & Hby & Hbz)%nan_free_coords.
  unfold VectorCompare, vcmp.
  pose proof (SFeqb_fcmp _ _ Hax Hbx) as Ex. pose proof (SFeqb_fcmp _ _ Hay Hby) as Ey.
  pose proof (SFltb_fcmp (vec_x a) (vec_x b)) as Lx.
  pose proof (SFltb_fcmp (vec_y a) (vec_y b)) as Ly.
  pose proof (SFltb_fcmp (vec_z a) (vec_z b)) as Lz.
  destruct (SFeqb (vec_x a) (vec_x b)), (SFeqb (vec_y a) (vec_y b)); cbn;
    rewrite !lex_Lt, ?lex_Eq; intuition congruence.
Qed.

Lemma vec_eqb_vcmp a b :
  nan_free a = true -> nan_free b = true ->
  vec_eqb a b = true <-> vcmp a b = Eq.
Proof.
  intros (Hax & Hay & Haz)%nan_free_coords (Hbx & Hby & Hbz)%nan_free_coords.
  unfold vec_eqb, vcmp. rewrite !andb_true_iff, !lex_Eq.
  rewrite !SFeqb_fcmp by done. tauto.
Qed.

Lemma vcmp_antisym a b : vcmp b a = CompOpp (vcmp a b).
Proof. unfold vcmp. by rewrite !lex_opp, <- !fcmp_antisym. Qed.

Lemma vcmp_canon_l a a' c : canon a = canon a' -> vcmp a c = vcmp a' c.
Proof.
  intros H. unfold vcmp. inversion H as [[Hx Hy Hz]].
  by rewrite (fcmp_canon_l _ _ _ Hx), (fcmp_canon_l _ _ _ Hy), (fcmp_canon_l _ _ _ Hz).
Qed.

Lemma vcmp_canon_r a a' c : canon a = canon a' -> vcmp c a = vcmp c a'.
Proof. intros H. by rewrite (vcmp_antisym a c), (vcmp_antisym a' c), (vcmp_canon_l a a'). Qed.

Lemma vcmp_eq_canon a b :
  nan_free a = true -> nan_free b = true -> vcmp a b = Eq <-> canon a = canon b.
Proof.
  intros (Hax & Hay & Haz)%nan_free_coords (Hbx & Hby & Hbz)%nan_free_coords.
  unfold vcmp, canon. rewrite !lex_Eq, !fcmp_eq_canon by done.
  split; [intros (-> & -> & ->); done|]. intros H; by inversion H.
Qed.

Lemma vcmp_trans a b c :
  nan_free a = true -> nan_free b = true -> nan_free c = true ->
  vcmp a b = Lt -> vcmp b c = Lt -> vcmp a c = Lt.
Proof.
  intros (Hax & Hay & Haz)%nan_free_coords (Hbx & Hby & Hbz)%nan_free_coords
         (Hcx & Hcy & Hcz)%nan_free_coords.
  unfold vcmp. rewrite !lex_Lt.
  assert (Hstep : forall p q r, is_nan p = false -> is_nan q = false ->
            (fcmp p q = Eq -> fcmp p r = fcmp q r) /\
            (fcmp q r = Eq -> is_nan r = false -> fcmp p r = fcmp p q)).
  { intros p q r Hp Hq. split.
    - intros E%fcmp_eq_canon; [|done..]. by apply fcmp_canon_l.
    - intros E Hr. apply fcmp_eq_canon in E; [|done..]. symmetry. by apply fcmp_canon_r. }
  pose proof (fcmp_trans (vec_x a) (vec_x b) (vec_x c)) as Tx.
  pose proof (fcmp_trans (vec_y a) (vec_y b) (vec_y c)) as Ty.
  pose proof (fcmp_trans (vec_z a) (vec_z b) (vec_z c)) as Tz.
  destruct (Hstep (vec_x a) (vec_x b) (vec_x c) Hax Hbx) as [X1 X2].
  destruct (Hstep (vec_y a) (vec_y b) (vec_y c) Hay Hby) as [Y1 Y2].
  intros [H1|[H1 [H2|[H2 H3]]]] [G1|[G1 [G2|[G2 G3]]]];
    rewrite ?(X1 H1), ?(X2 G1 Hcx), ?(Y1 H2), ?(Y2 G2 Hcy); intuition congruence.
Qed.

(** The facts about the comparator the list arguments use. *)
Section Order.
Implicit Types a b c : Vector3f.

Lemma VectorCompare_irrefl a : nan_free a = true -> VectorCompare a a = false.
Proof.
  intros Ha. apply not_true_is_false. rewrite VectorCompare_vcmp by done.
  assert (vcmp a a = Eq) as -> by (by apply vcmp_eq_canon). done.
Qed.

Lemma VectorCompare_asym a b :
  nan_free a = true -> nan_free b = true ->
  VectorCompare a b = true -> VectorCompare b a = false.
Proof.
  intros Ha Hb H. apply not_true_is_false.
  rewrite VectorCompare_vcmp in * by done. rewrite vcmp_antisym, H. done.
Qed.

Lemma VectorCompare_trans a b c :
  nan_free a = true -> nan_free b = true -> nan_free c = true ->
  VectorCompare a b = true -> VectorCompare b c = true -> VectorCompare a c = true.
Proof.
  intros Ha Hb Hc. rewrite !VectorCompare_vcmp by done. by apply vcmp_trans.
Qed.

Lemma VectorCompare_total a b :
  nan_free a = true -> nan_free b = true ->
  VectorCompare a b = false -> VectorCompare b a = false -> canon a = canon b.
Proof.
  intros Ha Hb H1 H2. apply vcmp_eq_canon; [done..|].
  apply not_true_iff_false in H1, H2. rewrite VectorCompare_vcmp in * by done.
  rewrite (vcmp_antisym a b) in H2. destruct (vcmp a b); cbn in *; congruence.
Qed.

Lemma VectorCompare_canon a a' b b' :
  nan_free a = true -> nan_free a' = true -> nan_free b = true -> nan_free b' = true ->
  canon a = canon a' -> canon b = canon b' -> VectorCompare a b = VectorCompare a' b'.
Proof.
  intros Ha Ha' Hb Hb' Ea Eb.
  apply eq_true_iff_eq. rewrite !VectorCompare_vcmp by done.
  by rewrite (vcmp_canon_l a a'), (vcmp_canon_r b b').
Qed.

Lemma vec_eqb_canon a b :
  nan_free a = true -> nan_free b = true -> vec_eqb a b = true <-> canon a = canon b.
Proof. intros Ha Hb. rewrite vec_eqb_vcmp by done. by apply vcmp_eq_canon. Qed.

Lemma VectorCompare_canon_ne a b :
  nan_free a = true -> nan_free b = true ->
  VectorCompare a b = true -> canon a <> canon b.
Proof.
  intros Ha Hb H E. apply vcmp_eq_canon in E; [|done..].
  apply VectorCompare_vcmp in H; [|done..]. congruence.
Qed.

End Order.


(** ** Lists of positions *)

Lemma gather_seq {A} (pre l : list A) :
  gather (pre ++ l) (seq (length pre) (length l)) = l.
Proof.
  revert pre. induction l as [|x l IH]; intros pre; [done|].
  cbn. unfold gather in *. cbn. rewrite lookup_app_r, Nat.sub_diag by lia. cbn.
  f_equal. specialize (IH (pre ++ [x])).
  rewrite <- app_assoc, length_app in IH. cbn in IH.
  by rewrite Nat.add_1_r in IH.
Qed.

Lemma gather_perm {A} (l : list A) order :
  order ≡ₚ seq 0 (length l) -> gather l order ≡ₚ l.
Proof.
  intros H. unfold gather. rewrite H.
  pose proof (gather_seq [] l) as E. unfold gather in E. cbn in E. by rewrite E.
Qed.

Lemma all_nan_free_perm l k : l ≡ₚ k -> all_nan_free l -> all_nan_free k.
Proof. intros Hp. unfold all_nan_free. by rewrite Hp. Qed.

(** ** [thrust::unique] *)

Lemma unique_from_sublist p l : unique_from p l `sublist_of` l.
Proof.
  revert p. induction l as [|v l IH]; intros p; cbn; [done|].
  destruct (vec_eqb p v); [by apply sublist_cons|by apply sublist_skip].
Qed.

Lemma thrust_unique_sublist l : thrust_unique l `sublist_of` l.
Proof. destruct l; cbn; [done|]. apply sublist_skip, unique_from_sublist. Qed.

(** Every element has, among the kept ones, one that is equal to it. *)
Lemma unique_from_covers p l x :
  all_nan_free (p :: l) -> x ∈ l ->
  exists u, u ∈ p :: unique_from p l /\ canon u = canon x.
Proof.
  revert p. induction l as [|v l IH]; intros p Hnf Hx; [by inversion Hx|].
  inversion Hnf as [|? ? Hp Hnf']; subst.
  inversion Hnf' as [|? ? Hv Hl]; subst.
  assert (Hrec : x ∈ l -> exists u, u ∈ v :: unique_from v l /\ canon u = canon x)
    by (intros; by apply IH).
  cbn. apply elem_of_cons in Hx as [->|Hx]; destruct (vec_eqb p v) eqn:E.
  - apply vec_eqb_canon in E; [|done..]. exists p. by rewrite elem_of_cons; auto.
  - exists v. rewrite !elem_of_cons; auto.
  - apply vec_eqb_canon in E; [|done..].
    destruct (Hrec Hx) as (u & [->|Hu]%elem_of_cons & Hc).
    + exists p. rewrite elem_of_cons. split; [auto|congruence].
    + exists u. rewrite elem_of_cons; auto.
  - destruct (Hrec Hx) as (u & Hu & Hc).
    exists u. rewrite elem_of_cons; auto.
Qed.

Lemma thrust_unique_covers l x :
  all_nan_free l -> x ∈ l -> exists u, u ∈ thrust_unique l /\ canon u = canon x.
Proof.
  destruct l as [|p l]; intros Hnf Hx; [by inversion Hx|].
  cbn. apply elem_of_cons in Hx as [->|Hx].
  - exists p. rewrite elem_of_cons; auto.
  - by apply unique_from_covers.
Qed.

Lemma all_nan_free_sublist l k :
  k `sublist_of` l -> all_nan_free l -> all_nan_free k.
Proof.
  unfold all_nan_free. rewrite !Forall_forall. intros Hs Hl x Hx.
  eapply Hl, elem_of_sublist; eauto.
Qed.

Lemma unique_from_sorted p l :
  all_nan_free (p :: l) -> sorted_by VectorCompare (p :: l) ->
  strictly_sorted (p :: unique_from p l).
Proof.
  revert p. induction l as [|v l IH]; intros p Hnf Hs.
  { cbn. repeat constructor. }
  inversion Hnf as [|? ? Hp Hnf']; subst.
  inversion Hnf' as [|? ? Hv Hl]; subst.
  inversion Hs as [|? ? Hs' Hle]; subst.
  inversion Hle as [|? ? Hpv Hle']; subst.
  specialize (IH v Hnf' Hs').
  inversion IH as [|? ? IHs IHlt]; subst.
  assert (Hsub : all_nan_free (unique_from v l))
    by (eapply all_nan_free_sublist; [apply unique_from_sublist|done]).
  unfold all_nan_free in Hsub. rewrite Forall_forall in Hsub, IHlt.
  cbn. destruct (vec_eqb p v) eqn:E.
  - apply vec_eqb_canon in E; [|done..].
    constructor; [done|]. apply Forall_forall. intros u Hu.
    rewrite (VectorCompare_canon p v u u); auto.
  - assert (Hlt : VectorCompare p v = true).
    { destruct (VectorCompare p v) eqn:Hc; [done|].
      assert (canon p = canon v) as Hcan by (by apply VectorCompare_total).
      apply vec_eqb_canon in Hcan; [|done..]. congruence. }
    constructor; [done|]. constructor; [done|].
    apply Forall_forall. intros u Hu.
    apply (VectorCompare_trans p v u); auto.
Qed.

Lemma thrust_unique_sorted l :
  all_nan_free l -> sorted_by VectorCompare l -> strictly_sorted (thrust_unique l).
Proof.
  destruct l as [|p l]; [constructor|]. apply unique_from_sorted.
Qed.

Lemma strictly_sorted_nodup_canon l :
  all_nan_free l -> strictly_sorted l -> NoDup (canon <$> l).
Proof.
  intros Hnf Hs. induction Hs as [|a l Hs IH Hlt]; cbn; [constructor|].
  inversion Hnf as [|? ? Ha Hl]; subst.
  constructor; [|by apply IH].
  intros (b & Hab & Hb)%list_elem_of_fmap.
  rewrite Forall_forall in Hlt, Hl.
  by apply (VectorCompare_canon_ne a b); auto.
Qed.

(** A range that is sorted without repetition is left alone by [unique]. *)
Lemma unique_from_strictly_sorted p l :
  all_nan_free (p :: l) -> strictly_sorted (p :: l) -> unique_from p l = l.
Proof.
  revert p. induction l as [|v l IH]; intros p Hnf Hs; [done|].
  inversion Hnf as [|? ? Hp Hnf']; subst.
  inversion Hnf' as [|? ? Hv Hl]; subst.
  inversion Hs as [|? ? Hs' Hlt]; subst.
  inversion Hlt as [|? ? Hpv _]; subst.
  cbn. destruct (vec_eqb p v) eqn:E.
  - apply vec_eqb_canon in E; [|done..].
    by apply VectorCompare_canon_ne in Hpv.
  - f_equal. by apply IH.
Qed.

Lemma thrust_unique_strictly_sorted l :
  all_nan_free l -> strictly_sorted l -> thrust_unique l = l.
Proof.
  destruct l as [|p l]; [done|]. intros Hnf Hs. cbn. f_equal.
  by apply unique_from_strictly_sorted.
Qed.

(** ** [thrust::lower_bound] *)

Lemma lower_bound_found l v i u :
  all_nan_free l -> nan_free v = true -> strictly_sorted l ->
  l !! i = Some u -> canon u = canon v -> lower_bound l v = i.
Proof.
  intros Hnf Hv Hs. revert i.
  induction Hs as [|e l Hs IH Hlt]; intros i Hi Hc; [done|].
  inversion Hnf as [|? ? He Hl]; subst.
  assert (Hu : nan_free u = true).
  { unfold all_nan_free in Hnf. rewrite Forall_forall in Hnf.
    eapply Hnf, list_elem_of_lookup_2, Hi. }
  cbn. destruct i as [|i]; cbn in Hi.
  - inversion Hi; subst.
    rewrite (VectorCompare_canon u v v v), VectorCompare_irrefl; done.
  - rewrite Forall_forall in Hlt.
    rewrite (VectorCompare_canon e e v u), Hlt; try done.
    + f_equal. by apply IH.
    + eapply list_elem_of_lookup_2, Hi.
Qed.

Lemma lower_bound_le l v : (lower_bound l v <= length l)%nat.
Proof. induction l as [|e l IH]; cbn; [lia|]. destruct (VectorCompare e v); cbn; lia. Qed.

(** ** The sorted range and the welded range *)

Section Welded.
Context (T : Thrust) (HT : thrust_contract T).
Variable l : list Vector3f.
Hypothesis Hnf : all_nan_free l.

Let welded := thrust_unique (thrust_sort l).

Lemma thrust_sort_perm : thrust_sort l ≡ₚ l.
Proof. apply gather_perm, (sort_order_perm T HT), Hnf. Qed.

Lemma thrust_sort_nan_free : all_nan_free (thrust_sort l).
Proof. eapply all_nan_free_perm; [symmetry; apply thrust_sort_perm|done]. Qed.

Lemma welded_nan_free : all_nan_free welded.
Proof.
  eapply all_nan_free_sublist; [apply thrust_unique_sublist|apply thrust_sort_nan_free].
Qed.

Lemma welded_strictly_sorted : strictly_sorted welded.
Proof.
  apply thrust_unique_sorted; [apply thrust_sort_nan_free|].
  apply (sort_sorted T HT), Hnf.
Qed.

Lemma welded_elem u : u ∈ welded -> u ∈ l.
Proof.
  intros Hu. rewrite <- thrust_sort_perm.
  eapply elem_of_sublist; [done|apply thrust_unique_sublist].
Qed.

Lemma welded_covers v : v ∈ l -> exists u, u ∈ welded /\ canon u = canon v.
Proof.
  intros Hv. apply thrust_unique_covers; [apply thrust_sort_nan_free|].
  by rewrite thrust_sort_perm.
Qed.

Lemma welded_canon : canon <$> welded ≡ₚ remove_dups (canon <$> l).
Proof.
  apply NoDup_Permutation.
  - apply strictly_sorted_nodup_canon; [apply welded_nan_free|apply welded_strictly_sorted].
  - apply NoDup_remove_dups.
  - intros c. rewrite elem_of_remove_dups, !list_elem_of_fmap. split.
    + intros (u & -> & Hu). exists u. split; [done|by apply welded_elem].
    + intros (v & -> & Hv). destruct (welded_covers v Hv) as (u & Hu & Hc). eauto.
Qed.

Lemma welded_length : length welded = length (remove_dups (canon <$> l)).
Proof. by rewrite <- welded_canon, length_fmap. Qed.

Lemma welded_lower_bound v :
  v ∈ l ->
  exists u, welded !! lower_bound welded v = Some u /\ canon u = canon v.
Proof.
  intros Hv. destruct (welded_covers v Hv) as (u & Hu & Hc).
  apply list_elem_of_lookup_1 in Hu as [i Hi].
  exists u. split; [|done].
  rewrite (lower_bound_found welded v i u); try done.
  - apply welded_nan_free.
  - unfold all_nan_free in Hnf. rewrite Forall_forall in Hnf. by apply Hnf.
  - apply welded_strictly_sorted.
Qed.

Lemma welded_lower_bound_canon v v' :
  v ∈ l -> v' ∈ l -> canon v = canon v' ->
  lower_bound welded v = lower_bound welded v'.
Proof.
  intros Hv Hv' Hc.
  destruct (welded_lower_bound v Hv) as (u & Hu & Hcu).
  symmetry. apply (lower_bound_found welded v' _ u); try done.
  - apply welded_nan_free.
  - unfold all_nan_free in Hnf. rewrite Forall_forall in Hnf. by apply Hnf.
  - apply welded_strictly_sorted.
  - congruence.
Qed.

End Welded.


(** ** [thrust::scatter] *)

Lemma thrust_scatter_length {T : Thrust} src map out :
  length (thrust_scatter src map out) = length out.
Proof. unfold thrust_scatter. apply length_imap. Qed.

Lemma thrust_scatter_lookup {T : Thrust} src map out i old :
  out !! i = Some old ->
  thrust_scatter src map out !! i
  = Some match scatter_writers map (length src) i with
         | [] => old
         | [j] => default old (src !! j)
         | _ => scatter_race src map out i
         end.
Proof. intros Hi. unfold thrust_scatter. by rewrite list_lookup_imap, Hi. Qed.

Lemma scatter_writers_elem map n i j :
  j ∈ scatter_writers map n i <-> (j < n)%nat /\ map !! j = Some (Z.of_nat i).
Proof.
  unfold scatter_writers. rewrite list_elem_of_filter, elem_of_seq.
  split; intros [? ?]; (split; [done || lia|done || lia]).
Qed.

Lemma scatter_writers_NoDup map n i : NoDup (scatter_writers map n i).
Proof. unfold scatter_writers. apply NoDup_filter, NoDup_seq. Qed.

(** The slot has one writer when one position of the range has it in the
    map. *)
Lemma scatter_writers_single map n i j :
  (forall j', j' ∈ scatter_writers map n i <-> j' = j) ->
  scatter_writers map n i = [j].
Proof.
  intros Hj. apply Permutation_singleton_r, NoDup_Permutation.
  - apply scatter_writers_NoDup.
  - apply NoDup_singleton.
  - intros j'. rewrite Hj. symmetry. apply list_elem_of_singleton.
Qed.

(** ** One block *)

Lemma list_inserts_0_all {A} (k l : list A) :
  length k = length l -> list_inserts 0 k l = k.
Proof.
  intros Hlen. apply list_eq. intros i.
  destruct (decide (i < length l)%nat) as [Hi|Hi].
  - rewrite list_lookup_inserts by lia. by rewrite Nat.sub_0_r.
  - rewrite !lookup_ge_None_2; [done|lia|rewrite length_inserts; lia].
Qed.

Lemma lower_bound_all_length first values :
  length (lower_bound_all first values) = length values.
Proof. unfold lower_bound_all. by rewrite length_fmap. Qed.

Lemma lower_bound_all_lookup first values i :
  lower_bound_all first values !! i
  = (fun v => Z.of_nat (lower_bound first v)) <$> values !! i.
Proof. unfold lower_bound_all. by rewrite list_lookup_fmap. Qed.

Lemma iota_length n : length (iota n) = n.
Proof. unfold iota. by rewrite length_fmap, length_seq. Qed.

Lemma iota_lookup n i : (i < n)%nat -> iota n !! i = Some (Z.of_nat i).
Proof. intros Hi. unfold iota. by rewrite list_lookup_fmap, lookup_seq_lt. Qed.

Section Block.
Context (T : Thrust) (HT : thrust_contract T).
Variable b : MeshBlock.
Hypothesis Hnf : all_nan_free (vertices b).
Hypothesis Htri : length (triangles b) = length (vertices b).

Lemma weld_block_vertices :
  vertices (weld_block b) = thrust_unique (thrust_sort (vertices b)).
Proof. reflexivity. Qed.

Lemma weld_block_colors : colors (weld_block b) = colors b.
Proof. reflexivity. Qed.

Lemma weld_block_triangles :
  triangles (weld_block b)
  = lower_bound_all (vertices (weld_block b)) (vertices b).
Proof.
  cbn. apply list_inserts_0_all. by rewrite lower_bound_all_length.
Qed.

Lemma weld_block_normals_length :
  length (normals (weld_block b)) = length (vertices (weld_block b)).
Proof. cbn. by rewrite thrust_scatter_length, length_resize. Qed.

Lemma weld_block_triangle i v :
  vertices b !! i = Some v ->
  exists u, triangles (weld_block b) !! i
            = Some (Z.of_nat (lower_bound (vertices (weld_block b)) v)) /\
            vertices (weld_block b) !! lower_bound (vertices (weld_block b)) v = Some u /\
            canon u = canon v.
Proof.
  intros Hi. rewrite weld_block_triangles, lower_bound_all_lookup, Hi. cbn.
  destruct (welded_lower_bound T HT (vertices b) Hnf v) as (u & Hu & Hc).
  { eapply list_elem_of_lookup_2, Hi. }
  exists u. split; [done|]. split; [exact Hu|exact Hc].
Qed.

End Block.


(** ** The sequential thrust meets the contract *)

Lemma VectorCompare_neg_trans a b c :
  nan_free a = true -> nan_free b = true -> nan_free c = true ->
  VectorCompare a b = false -> VectorCompare b c = false -> VectorCompare a c = false.
Proof.
  intros Ha Hb Hc Hab Hbc.
  destruct (VectorCompare a c) eqn:Hac; [|done].
  destruct (VectorCompare c b) eqn:Hcb.
  - rewrite (VectorCompare_trans a c b) in Hab; done.
  - assert (canon b = canon c) as E by (by apply VectorCompare_total).
    rewrite (VectorCompare_canon a a b c) in Hab; congruence.
Qed.

Lemma insert_slot_perm l i order : insert_slot l i order ≡ₚ i :: order.
Proof.
  induction order as [|j order IH]; cbn; [done|].
  destruct (l !! j), (l !! i); try done.
  destruct (VectorCompare _ _); [|done].
  rewrite IH. apply perm_swap.
Qed.

Lemma stable_sort_order_perm l : stable_sort_order l ≡ₚ seq 0 (length l).
Proof.
  unfold stable_sort_order. generalize (seq 0 (length l)) as js.
  induction js as [|i js IH]; cbn; [done|].
  by rewrite insert_slot_perm, IH.
Qed.

Lemma gather_cons {A} (l : list A) j order v :
  l !! j = Some v -> gather l (j :: order) = v :: gather l order.
Proof. intros H. unfold gather. cbn. by rewrite H. Qed.

Lemma gather_nan_free l order : all_nan_free l -> all_nan_free (gather l order).
Proof.
  unfold all_nan_free. rewrite !Forall_forall. intros Hl v Hv.
  unfold gather in Hv. apply list_elem_of_omap in Hv as (i & _ & Hi).
  eapply Hl, list_elem_of_lookup_2, Hi.
Qed.

Lemma insert_slot_sorted l i order :
  all_nan_free l -> (i < length l)%nat -> Forall (fun j => (j < length l)%nat) order ->
  sorted_by VectorCompare (gather l order) ->
  sorted_by VectorCompare (gather l (insert_slot l i order)).
Proof.
  intros Hnf Hi Hord Hs.
  destruct (lookup_lt_is_Some_2 l i Hi) as [vi Hvi].
  assert (Hnfi : nan_free vi = true).
  { unfold all_nan_free in Hnf. rewrite Forall_forall in Hnf.
    eapply Hnf, list_elem_of_lookup_2, Hvi. }
  induction order as [|j order IH].
  { cbn [insert_slot]. rewrite (gather_cons l i [] vi Hvi). repeat constructor. }
  inversion Hord as [|? ? Hj Hord']; subst.
  destruct (lookup_lt_is_Some_2 l j Hj) as [vj Hvj].
  assert (Hnfj : nan_free vj = true).
  { unfold all_nan_free in Hnf. rewrite Forall_forall in Hnf.
    eapply Hnf, list_elem_of_lookup_2, Hvj. }
  rewrite (gather_cons l j order vj Hvj) in Hs.
  inversion Hs as [|? ? Hs' Hle]; subst.
  pose proof (gather_nan_free l order Hnf) as Hnfo.
  unfold all_nan_free in Hnfo. rewrite Forall_forall in Hle, Hnfo.
  cbn [insert_slot]. rewrite Hvj, Hvi.
  destruct (VectorCompare vj vi) eqn:Hc.
  - rewrite (gather_cons l j _ vj Hvj). constructor; [by apply IH|].
    apply Forall_forall. intros x Hx.
    assert (Hperm : gather l (insert_slot l i order) ≡ₚ vi :: gather l order).
    { unfold gather. rewrite insert_slot_perm. cbn. by rewrite Hvi. }
    rewrite Hperm in Hx. apply elem_of_cons in Hx as [->|Hx].
    + by apply VectorCompare_asym.
    + by apply Hle.
  - rewrite (gather_cons l i _ vi Hvi), (gather_cons l j _ vj Hvj).
    constructor; [by constructor; [|apply Forall_forall]|].
    constructor; [done|]. apply Forall_forall. intros x Hx.
    apply (VectorCompare_neg_trans x vj vi); auto.
Qed.

Lemma stable_sort_order_sorted l :
  all_nan_free l -> sorted_by VectorCompare (gather l (stable_sort_order l)).
Proof.
  intros Hnf. unfold stable_sort_order.
  assert (Hall : Forall (fun j => (j < length l)%nat) (seq 0 (length l))).
  { apply Forall_forall. intros j Hj%elem_of_seq. lia. }
  revert Hall. generalize (seq 0 (length l)) as js.
  induction js as [|i js IH]; intros Hall; [constructor|].
  inversion Hall as [|? ? Hi Hall']; subst. cbn.
  apply insert_slot_sorted; auto.
  eapply Forall_forall. intros j Hj.
  assert (Hp : foldr (insert_slot l) [] js ≡ₚ js).
  { clear. induction js as [|i js IH]; cbn; [done|]. by rewrite insert_slot_perm, IH. }
  rewrite Hp in Hj. rewrite Forall_forall in Hall'. by apply Hall'.
Qed.

Lemma sequential_thrust_contract : thrust_contract sequential_thrust.
Proof.
  split.
  - intros l _. apply stable_sort_order_perm.
  - intros l Hnf. by apply stable_sort_order_sorted.
Qed.


(** ** The loop over the layer *)

Section Layer.
Context (T : Thrust).
Implicit Types layer : gmap Index3D MeshBlock.

Lemma weldVerticesThrustAsync_cons index block_indices layer :
  weldVerticesThrustAsync (index :: block_indices) layer
  = weldVerticesThrustAsync block_indices (weld_at layer index).
Proof. reflexivity. Qed.

Lemma weld_at_same layer index :
  weld_at layer index !! index = weld_or_skip <$> layer !! index.
Proof.
  unfold weld_at. destruct (layer !! index) eqn:E; cbn.
  - by rewrite lookup_insert_eq.
  - by rewrite E.
Qed.

Lemma weld_at_other layer index index' :
  index <> index' -> weld_at layer index !! index' = layer !! index'.
Proof.
  intros Hne. unfold weld_at. destruct (layer !! index); [|done].
  by rewrite lookup_insert_ne.
Qed.

Lemma weld_layer_other block_indices layer index :
  index ∉ block_indices ->
  weldVerticesThrustAsync block_indices layer !! index = layer !! index.
Proof.
  revert layer. induction block_indices as [|i is_ IH]; intros layer Hin; [done|].
  apply not_elem_of_cons in Hin as [Hne Hin].
  rewrite weldVerticesThrustAsync_cons, IH by done. by apply weld_at_other.
Qed.

Lemma weld_layer_once block_indices layer index :
  NoDup block_indices -> index ∈ block_indices ->
  weldVerticesThrustAsync block_indices layer !! index
  = weld_or_skip <$> layer !! index.
Proof.
  revert layer. induction block_indices as [|i is_ IH]; intros layer Hnd Hin.
  { by inversion Hin. }
  apply NoDup_cons in Hnd as [Hni Hnd].
  rewrite weldVerticesThrustAsync_cons.
  apply elem_of_cons in Hin as [->|Hin].
  - rewrite weld_layer_other by done. apply weld_at_same.
  - rewrite IH by done. rewrite weld_at_other; [done|]. intros ->. done.
Qed.

Lemma weld_or_skip_colors b : colors (weld_or_skip b) = colors b.
Proof. unfold weld_or_skip. by destruct (_ <=? _)%nat. Qed.

End Layer.


(** * The welding pass *)

(** C10.  The pass leaves the colors of every block of the layer as they
    were: same length, same contents, whether the block was welded or not. *)
Theorem weld_keeps_colors (T : Thrust) (block_indices : list Index3D)
    (mesh_layer : gmap Index3D MeshBlock) (index : Index3D) :
  colors <$> weldVerticesThrustAsync block_indices mesh_layer !! index
  = colors <$> mesh_layer !! index.
Proof.
  revert mesh_layer.
  induction block_indices as [|i is_ IH]; intros mesh_layer; [done|].
  rewrite weldVerticesThrustAsync_cons, IH.
  destruct (decide (i = index)) as [->|Hne].
  - rewrite weld_at_same. destruct (mesh_layer !! index); cbn; [|done].
    by rewrite weld_or_skip_colors.
  - by rewrite weld_at_other.
Qed.

Lemma weld_or_skip_welds T b :
  (3 < length (vertices b))%nat -> @weld_or_skip T b = weld_block b.
Proof.
  intros H. unfold weld_or_skip, MeshBlock_size.
  destruct (Nat.leb_spec (length (vertices b)) 3); [lia|done].
Qed.

Lemma canon_fixed_fmap l : Forall (fun v => canon v = v) l -> canon <$> l = l.
Proof.
  induction 1 as [|v l Hv _ IH]; [done|]. cbn. by rewrite Hv, IH.
Qed.

(** C1, as the code has it.  For a block of the layer that the pass visits
    once, with more than 3 vertices, no NaN coordinate and the identity in its
    triangle array: the vertex count after the pass is the number of positions
    that are distinct under the comparison of floats (which takes -0 and +0
    for equal), and it is the number of distinct bit patterns when no
    coordinate is a negative zero; the normals have that length; every
    triangle index is within it; slots whose positions compare equal (so in
    particular bit-identical ones) get the same index, which is the place of a
    vertex equal to theirs. *)
Theorem weld_counts_distinct_positions (T : Thrust) (block_indices : list Index3D)
    (mesh_layer : gmap Index3D MeshBlock) (index : Index3D) (b : MeshBlock) :
  thrust_contract T ->
  NoDup block_indices -> index ∈ block_indices ->
  mesh_layer !! index = Some b ->
  (3 < length (vertices b))%nat ->
  triangles b = iota (length (vertices b)) ->
  all_nan_free (vertices b) ->
  exists b',
    weldVerticesThrustAsync block_indices mesh_layer !! index = Some b' /\
    length (vertices b') = length (remove_dups (canon <$> vertices b)) /\
    (Forall (fun v => canon v = v) (vertices b) ->
     length (vertices b') = length (remove_dups (vertices b))) /\
    length (normals b') = length (vertices b') /\
    length (triangles b') = length (vertices b) /\
    Forall (fun t => 0 <= t < Z.of_nat (length (vertices b'))) (triangles b') /\
    (forall i j vi vj,
       vertices b !! i = Some vi -> vertices b !! j = Some vj ->
       canon vi = canon vj -> triangles b' !! i = triangles b' !! j) /\
    (forall i vi,
       vertices b !! i = Some vi ->
       exists t u, triangles b' !! i = Some (Z.of_nat t) /\
                   vertices b' !! t = Some u /\ canon u = canon vi).
Proof.
  intros HT Hnd Hin Hb Hsize Hid Hnf.
  assert (Htri : length (triangles b) = length (vertices b))
    by (by rewrite Hid, iota_length).
  exists (weld_block b).
  split. { by rewrite weld_layer_once, Hb, <- weld_or_skip_welds. }
  assert (Hlen : length (vertices (weld_block b))
                 = length (remove_dups (canon <$> vertices b))).
  { rewrite weld_block_vertices. by apply welded_length. }
  assert (Hremap : forall i vi, vertices b !! i = Some vi ->
            exists t u, triangles (weld_block b) !! i = Some (Z.of_nat t) /\
                        vertices (weld_block b) !! t = Some u /\ canon u = canon vi).
  { intros i vi Hi.
    destruct (weld_block_triangle T HT b Hnf Htri i vi Hi) as (u & H1 & H2 & H3).
    eauto. }
  split; [done|]. split.
  { intros Hfix. by rewrite Hlen, canon_fixed_fmap. }
  split; [by apply weld_block_normals_length|].
  split. { by rewrite weld_block_triangles, lower_bound_all_length. }
  split.
  { apply Forall_forall. intros t Ht.
    apply list_elem_of_lookup_1 in Ht as [i Hi].
    assert (i < length (vertices b))%nat as Hlt.
    { apply lookup_lt_Some in Hi.
      by rewrite weld_block_triangles, lower_bound_all_length in Hi. }
    destruct (lookup_lt_is_Some_2 _ _ Hlt) as [vi Hvi].
    destruct (Hremap i vi Hvi) as (t' & u & Ht' & Hu & _).
    rewrite Hi in Ht'. inversion Ht'; subst.
    apply lookup_lt_Some in Hu. lia. }
  split; [|done].
  intros i j vi vj Hi Hj Hc.
  rewrite (weld_block_triangles T b Htri), !lower_bound_all_lookup, Hi, Hj. cbn.
  do 2 f_equal.
  apply (welded_lower_bound_canon T HT (vertices b) Hnf);
    [eapply list_elem_of_lookup_2; eauto..|done].
Qed.

(** X27.  After the pass on a block whose normals and triangle array are as
    long as its vertices, [normals] is as long as [vertices]; every vertex of
    the result was held by a slot of the block before; and when one slot [j]
    only held a vertex equal to [vertices[i]], [normals[i]] is the normal of
    slot [j], whatever thrust does.  Of the normal of a vertex that several
    slots held, which the racing assignments of the scatter leave, nothing is
    said. *)
Theorem weld_normals_of_unique_vertices (T : Thrust) (block_indices : list Index3D)
    (mesh_layer : gmap Index3D MeshBlock) (index : Index3D) (b : MeshBlock) :
  thrust_contract T ->
  NoDup block_indices -> index ∈ block_indices ->
  mesh_layer !! index = Some b ->
  (3 < length (vertices b))%nat ->
  length (triangles b) = length (vertices b) ->
  length (normals b) = length (vertices b) ->
  all_nan_free (vertices b) ->
  exists b',
    weldVerticesThrustAsync block_indices mesh_layer !! index = Some b' /\
    length (normals b') = length (vertices b') /\
    forall i u,
      vertices b' !! i = Some u ->
      (exists j v, vertices b !! j = Some v /\ vec_eqb v u = true) /\
      forall j v,
        vertices b !! j = Some v -> vec_eqb v u = true ->
        (forall j' v', vertices b !! j' = Some v' -> vec_eqb v' u = true -> j' = j) ->
        normals b' !! i = normals b !! j.
Proof.
  intros HT Hnd Hin Hb Hsize Htri Hnor Hnf.
  exists (weld_block b).
  split. { by rewrite weld_layer_once, Hb, <- weld_or_skip_welds. }
  split; [by apply weld_block_normals_length|].
  intros i u Hu.
  assert (Hnfw : all_nan_free (vertices (weld_block b)))
    by apply (welded_nan_free T HT (vertices b) Hnf).
  assert (Hsw : strictly_sorted (vertices (weld_block b)))
    by apply (welded_strictly_sorted T HT (vertices b) Hnf).
  assert (Hnfu : nan_free u = true).
  { unfold all_nan_free in Hnfw. rewrite Forall_forall in Hnfw.
    eapply Hnfw, list_elem_of_lookup_2, Hu. }
  assert (Hnfb : forall j v, vertices b !! j = Some v -> nan_free v = true).
  { intros j v Hv. unfold all_nan_free in Hnf. rewrite Forall_forall in Hnf.
    eapply Hnf, list_elem_of_lookup_2, Hv. }
  split.
  { assert (u ∈ vertices b) as [j0 Hj0]%list_elem_of_lookup_1.
    { apply (welded_elem T HT (vertices b) Hnf). eapply list_elem_of_lookup_2, Hu. }
    exists j0, u. split; [done|]. by apply vec_eqb_canon. }
  intros j v Hv Heq Hone.
  apply vec_eqb_canon in Heq; [|by eapply Hnfb|done].
  pose proof (lookup_lt_Some _ _ _ Hv) as Hjv.
  destruct (lookup_lt_is_Some_2 (normals b) j) as [n Hn]; [lia|].
  assert (Hw : scatter_writers (triangles (weld_block b)) (length (normals b)) i = [j]).
  { apply scatter_writers_single. intros j'. rewrite scatter_writers_elem. split.
    - intros [Hlt Hmap].
      destruct (lookup_lt_is_Some_2 (vertices b) j') as [v' Hv']; [lia|].
      destruct (weld_block_triangle T HT b Hnf Htri j' v' Hv') as (u' & H1 & H2 & H3).
      assert (lower_bound (vertices (weld_block b)) v' = i) as Hlb
        by (apply Nat2Z.inj; congruence).
      rewrite Hlb, Hu in H2. inversion H2; subst u'.
      apply (Hone j' v' Hv'). apply vec_eqb_canon; [by eapply Hnfb|done|done].
    - intros ->. split; [lia|].
      rewrite (weld_block_triangles T b Htri), lower_bound_all_lookup, Hv. cbn.
      do 2 f_equal.
      apply (lower_bound_found _ v i u); [done|by eapply Hnfb|done|done|by symmetry]. }
  destruct (lookup_lt_is_Some_2 (resize (length (vertices (weld_block b)))
                                   Vector3f_Zero (normals b)) i) as [old Hold].
  { rewrite length_resize. by eapply lookup_lt_Some. }
  change (normals (weld_block b))
    with (thrust_scatter (normals b) (triangles (weld_block b))
            (resize (length (vertices (weld_block b))) Vector3f_Zero (normals b))).
  rewrite (thrust_scatter_lookup _ _ _ _ old Hold), Hw, Hn. done.
Qed.


(** ** A second pass *)

Lemma strictly_sorted_sorted_by l :
  all_nan_free l -> strictly_sorted l -> sorted_by VectorCompare l.
Proof.
  intros Hnf Hs. induction Hs as [|a l Hs IH Hlt]; [constructor|].
  inversion Hnf as [|? ? Ha Hl]; subst.
  constructor; [by apply IH|].
  unfold all_nan_free in Hl. rewrite Forall_forall in Hlt, Hl.
  apply Forall_forall. intros x Hx. apply VectorCompare_asym; auto.
Qed.

Lemma nodup_fmap_inj {A B} (f : A -> B) (l : list A) x y :
  NoDup (f <$> l) -> x ∈ l -> y ∈ l -> f x = f y -> x = y.
Proof.
  intros Hnd [i Hi]%list_elem_of_lookup_1 [j Hj]%list_elem_of_lookup_1 Hf.
  assert (i = j).
  { apply (NoDup_lookup (f <$> l) i j (f x)); [done|..].
    - by rewrite list_lookup_fmap, Hi.
    - by rewrite list_lookup_fmap, Hj, Hf. }
  congruence.
Qed.

(** Sorting a range that is sorted without repetition gives it back. *)
Lemma thrust_sort_strictly_sorted (T : Thrust) (HT : thrust_contract T) l :
  all_nan_free l -> strictly_sorted l -> thrust_sort l = l.
Proof.
  intros Hnf Hs.
  pose proof (thrust_sort_perm T HT l Hnf) as Hp.
  apply (StronglySorted_unique_strong (fun a b => VectorCompare b a = false));
    [|apply (sort_sorted T HT), Hnf|by apply strictly_sorted_sorted_by|done].
  intros x1 x2 H1 H2 H12 H21. rewrite Hp in H1.
  apply (nodup_fmap_inj canon l); [by apply strictly_sorted_nodup_canon|done..|].
  unfold all_nan_free in Hnf. rewrite Forall_forall in Hnf.
  apply VectorCompare_total; auto.
Qed.

Lemma lower_bound_all_self l :
  all_nan_free l -> strictly_sorted l -> lower_bound_all l l = iota (length l).
Proof.
  intros Hnf Hs. apply list_eq. intros i.
  rewrite lower_bound_all_lookup.
  destruct (l !! i) as [v|] eqn:Hi; cbn.
  - rewrite iota_lookup by (by apply lookup_lt_Some in Hi).
    do 2 f_equal. apply (lower_bound_found l v i v); try done.
    unfold all_nan_free in Hnf. rewrite Forall_forall in Hnf.
    eapply Hnf, list_elem_of_lookup_2, Hi.
  - symmetry. apply lookup_ge_None_2. rewrite iota_length.
    by apply lookup_ge_None_1.
Qed.

(** A scatter through a map that starts with the identity, back into the
    source, changes nothing: no two assignments write the same slot. *)
Lemma thrust_scatter_identity {T : Thrust} (src : list Vector3f) map :
  (forall j, (j < length src)%nat -> map !! j = Some (Z.of_nat j)) ->
  thrust_scatter src map src = src.
Proof.
  intros Hmap. apply list_eq. intros i.
  destruct (src !! i) as [old|] eqn:Hi.
  - rewrite (thrust_scatter_lookup _ _ _ _ old Hi).
    pose proof (lookup_lt_Some _ _ _ Hi) as Hlt.
    rewrite (scatter_writers_single map (length src) i i), Hi; [done|].
    intros j. rewrite scatter_writers_elem. split.
    + intros [Hj Hm]. rewrite Hmap in Hm by done. inversion Hm as [Heq].
      by apply Nat2Z.inj in Heq.
    + intros ->. split; [done|by apply Hmap].
  - apply lookup_ge_None_2. rewrite thrust_scatter_length.
    by apply lookup_ge_None_1.
Qed.

Lemma weld_block_welded (T : Thrust) (HT : thrust_contract T) b1 :
  all_nan_free (vertices b1) -> strictly_sorted (vertices b1) ->
  length (normals b1) = length (vertices b1) ->
  (length (vertices b1) <= length (triangles b1))%nat ->
  weld_block b1
  = mkMeshBlock (vertices b1) (normals b1) (colors b1)
      (list_inserts 0 (iota (length (vertices b1))) (triangles b1)).
Proof.
  intros Hnf Hs Hnor Htri. unfold weld_block.
  rewrite (thrust_sort_strictly_sorted T HT) by done.
  rewrite thrust_unique_strictly_sorted by done.
  rewrite lower_bound_all_self by done.
  rewrite (resize_all_alt (normals b1)) by done.
  f_equal. apply thrust_scatter_identity.
  intros j Hj. rewrite list_lookup_inserts; rewrite ?iota_length; try lia.
  rewrite Nat.sub_0_r. apply iota_lookup. lia.
Qed.

(** C4, as the code has it.  A second pass over a block that has been through
    the pass keeps its vertices, normals and colors, hence its vertex count.
    Of its triangle array it overwrites the first [count] entries, [count]
    being the vertex count, with [0, 1, ..., count-1], unless the block now
    has at most 3 vertices and is skipped. *)
Theorem weld_twice (T : Thrust) (block_indices block_indices' : list Index3D)
    (mesh_layer : gmap Index3D MeshBlock) (index : Index3D) (b : MeshBlock) :
  thrust_contract T ->
  NoDup block_indices -> index ∈ block_indices ->
  NoDup block_indices' -> index ∈ block_indices' ->
  mesh_layer !! index = Some b ->
  length (triangles b) = length (vertices b) ->
  all_nan_free (vertices b) ->
  let once := weldVerticesThrustAsync block_indices mesh_layer in
  let twice := weldVerticesThrustAsync block_indices' once in
  exists b1 b2,
    once !! index = Some b1 /\ twice !! index = Some b2 /\
    vertices b2 = vertices b1 /\
    normals b2 = normals b1 /\
    colors b2 = colors b1 /\
    triangles b2
    = if (length (vertices b1) <=? 3)%nat then triangles b1
      else list_inserts 0 (iota (length (vertices b1))) (triangles b1).
Proof.
  intros HT Hnd Hin Hnd' Hin' Hb Htri Hnf once twice.
  exists (weld_or_skip b), (weld_or_skip (weld_or_skip b)).
  split. { subst once. by rewrite weld_layer_once, Hb. }
  split. { subst twice once. by rewrite !weld_layer_once, Hb. }
  assert (Hskip : forall m, (length (vertices m) <= 3)%nat -> @weld_or_skip T m = m).
  { intros m Hm. unfold weld_or_skip, MeshBlock_size.
    destruct (Nat.leb_spec (length (vertices m)) 3); [done|lia]. }
  destruct (Nat.leb_spec (length (vertices b)) 3) as [Hle|Hgt].
  - rewrite !(Hskip b Hle).
    destruct (Nat.leb_spec (length (vertices b)) 3); [done|lia].
  - rewrite (weld_or_skip_welds T b Hgt).
    destruct (Nat.leb_spec (length (vertices (weld_block b))) 3) as [Hle'|Hgt'].
    + by rewrite (Hskip _ Hle').
    + rewrite (weld_or_skip_welds T _ Hgt').
      rewrite (weld_block_welded T HT (weld_block b)); [done|..].
      * apply (welded_nan_free T HT (vertices b) Hnf).
      * apply (welded_strictly_sorted T HT (vertices b) Hnf).
      * by apply weld_block_normals_length.
      * rewrite (weld_block_triangles T b Htri), lower_bound_all_length.
        rewrite weld_block_vertices.
        etrans; [apply sublist_length, thrust_unique_sublist|].
        by rewrite (thrust_sort_perm T HT (vertices b) Hnf).
Qed.

(** ** Examples *)

Lemma origin_layer_hyps (b : MeshBlock) :
  NoDup [origin] /\ origin ∈ [origin] /\
  ({[origin := b]} : gmap Index3D MeshBlock) !! origin = Some b.
Proof.
  split; [apply NoDup_singleton|]. split; [by left|]. apply lookup_singleton_eq.
Qed.

Lemma weld_counts_distinct_positions_witness :
  exists b',
    weldVerticesThrustAsync (T:=sequential_thrust) [origin]
      {[origin := duplicate_block]} !! origin = Some b' /\
    length (vertices b') = 4%nat /\
    length (normals b') = length (vertices b') /\
    Forall (fun t => 0 <= t < 4) (triangles b').
Proof.
  destruct (origin_layer_hyps duplicate_block) as (Hnd & Hin & Hb).
  destruct (weld_counts_distinct_positions sequential_thrust [origin]
              {[origin := duplicate_block]} origin duplicate_block
              sequential_thrust_contract Hnd Hin Hb)
    as (b' & Hb' & Hlen & _ & Hn & _ & Hr & _).
  - cbn. lia.
  - reflexivity.
  - repeat constructor.
  - exists b'. split; [done|]. split; [by rewrite Hlen|]. split; [done|].
    by rewrite Hlen in Hr.
Defined.

(** C1 as it is worded fails on a block that holds both zeros: the four
    positions (+0,0,0), (-0,0,0), (1,0,0), (2,0,0) are four bit patterns, and
    the pass leaves three vertices, the two zeros being equal as floats. *)
Lemma weld_merges_signed_zeros :
  let b := signed_zero_block in
  let after := weldVerticesThrustAsync (T:=sequential_thrust) [origin]
                 {[origin := b]} !! origin in
  thrust_contract sequential_thrust /\
  (3 < length (vertices b))%nat /\
  triangles b = iota (length (vertices b)) /\
  length (remove_dups (vertices b)) = 4%nat /\
  length ∘ vertices <$> after = Some 3%nat.
Proof.
  split; [apply sequential_thrust_contract|]. by vm_compute.
Qed.

Lemma weld_twice_witness :
  let once := weldVerticesThrustAsync (T:=sequential_thrust) [origin]
                {[origin := duplicate_block]} in
  let twice := weldVerticesThrustAsync (T:=sequential_thrust) [origin] once in
  exists b1 b2,
    once !! origin = Some b1 /\ twice !! origin = Some b2 /\
    vertices b2 = vertices b1 /\ normals b2 = normals b1 /\
    colors b2 = colors b1 /\
    triangles b2
    = if (length (vertices b1) <=? 3)%nat then triangles b1
      else list_inserts 0 (iota (length (vertices b1))) (triangles b1).
Proof.
  destruct (origin_layer_hyps duplicate_block) as (Hnd & Hin & Hb).
  apply (weld_twice sequential_thrust [origin] [origin]
           {[origin := duplicate_block]} origin duplicate_block
           sequential_thrust_contract Hnd Hin Hnd Hin Hb).
  - reflexivity.
  - repeat constructor.
Defined.

(** C4 as it is worded fails: after one pass the triangle array of the block
    is [2; 0; 1; 0; 3], after a second pass it is [0; 1; 2; 3; 3]. *)
Lemma second_weld_rewrites_triangles :
  let once := weldVerticesThrustAsync (T:=sequential_thrust) [origin]
                {[origin := duplicate_block]} in
  let twice := weldVerticesThrustAsync (T:=sequential_thrust) [origin] once in
  triangles <$> once !! origin = Some [2; 0; 1; 0; 3] /\
  triangles <$> twice !! origin = Some [0; 1; 2; 3; 3] /\
  length ∘ vertices <$> once !! origin = Some 4%nat /\
  length ∘ vertices <$> twice !! origin = Some 4%nat.
Proof. by vm_compute. Qed.

Lemma weld_normals_of_unique_vertices_witness :
  exists b',
    weldVerticesThrustAsync (T:=sequential_thrust) [origin]
      {[origin := duplicate_block]} !! origin = Some b' /\
    length (normals b') = length (vertices b') /\
    forall i u,
      vertices b' !! i = Some u ->
      (exists j v, vertices duplicate_block !! j = Some v /\ vec_eqb v u = true) /\
      forall j v,
        vertices duplicate_block !! j = Some v -> vec_eqb v u = true ->
        (forall j' v', vertices duplicate_block !! j' = Some v' ->
                       vec_eqb v' u = true -> j' = j) ->
        normals b' !! i = normals duplicate_block !! j.
Proof.
  destruct (origin_layer_hyps duplicate_block) as (Hnd & Hin & Hb).
  apply (weld_normals_of_unique_vertices sequential_thrust [origin]
           {[origin := duplicate_block]} origin duplicate_block
           sequential_thrust_contract Hnd Hin Hb).
  - cbn. lia.
  - reflexivity.
  - reflexivity.
  - repeat constructor.
Defined.

(** ** Blocks the pass leaves alone *)

Lemma weld_or_skip_small (T : Thrust) b :
  (MeshBlock_size b <= 3)%nat -> weld_or_skip b = b.
Proof.
  intros H. unfold weld_or_skip.
  destruct (Nat.leb_spec (MeshBlock_size b) 3); [done|lia].
Qed.

Lemma weld_at_small (T : Thrust) layer index index' :
  (forall b, layer !! index = Some b -> (MeshBlock_size b <= 3)%nat) ->
  weld_at layer index' !! index = layer !! index.
Proof.
  intros Hsmall. destruct (decide (index' = index)) as [->|Hne].
  - rewrite weld_at_same. destruct (layer !! index) as [b|] eqn:E; [|done].
    cbn. by rewrite weld_or_skip_small by auto.
  - by apply weld_at_other.
Qed.

(** X12.  [weldVerticesThrustAsync] leaves the layer at [index] as it was when
    [index] is not in the list, when the layer has no block there (none is
    created), and when the block there has at most 3 vertices (it is not
    welded, even if the three are equal). *)
Theorem weld_skips_small_and_missing (T : Thrust) (block_indices : list Index3D)
    (mesh_layer : gmap Index3D MeshBlock) (index : Index3D) :
  index ∉ block_indices \/
  (forall b, mesh_layer !! index = Some b -> (MeshBlock_size b <= 3)%nat) ->
  weldVerticesThrustAsync block_indices mesh_layer !! index = mesh_layer !! index.
Proof.
  intros [Hout|Hsmall]; [by apply weld_layer_other|].
  revert mesh_layer Hsmall.
  induction block_indices as [|index' block_indices IH]; intros mesh_layer Hsmall;
    [done|].
  rewrite weldVerticesThrustAsync_cons.
  rewrite IH; [by apply weld_at_small|].
  intros b. rewrite weld_at_small by done. apply Hsmall.
Qed.

Lemma weld_skips_small_and_missing_witness :
  weldVerticesThrustAsync (T:=sequential_thrust) [origin; (1, 0, 0)]
    {[origin := mkMeshBlock [on_x_axis 1; on_x_axis 1; on_x_axis 1] [] [] [0; 1; 2]]}
    !! origin
  = ({[origin := mkMeshBlock [on_x_axis 1; on_x_axis 1; on_x_axis 1] [] [] [0; 1; 2]]}
       : gmap Index3D MeshBlock) !! origin.
Proof.
  apply (weld_skips_small_and_missing sequential_thrust).
  right. intros b Hb. rewrite lookup_singleton_eq in Hb. inversion Hb. cbn. lia.
Defined.

(** ** The welded vertices *)

(** X13.  On a block that is welded, the vertices after the pass are in
    strictly ascending [VectorCompare] order, each of them is one of the
    vertices of the block before, there is at least one, and there are no more
    than before. *)
Theorem welded_vertices_ascending (T : Thrust) (block_indices : list Index3D)
    (mesh_layer : gmap Index3D MeshBlock) (index : Index3D) (b : MeshBlock) :
  thrust_contract T ->
  NoDup block_indices -> index ∈ block_indices ->
  mesh_layer !! index = Some b ->
  (3 < length (vertices b))%nat ->
  all_nan_free (vertices b) ->
  exists b',
    weldVerticesThrustAsync block_indices mesh_layer !! index = Some b' /\
    strictly_sorted (vertices b') /\
    (forall u, u ∈ vertices b' -> u ∈ vertices b) /\
    (0 < length (vertices b') <= length (vertices b))%nat.
Proof.
  intros HT Hnd Hin Hb Hsize Hnf.
  exists (weld_block b).
  split. { by rewrite weld_layer_once, Hb, <- weld_or_skip_welds. }
  rewrite weld_block_vertices.
  split; [by apply welded_strictly_sorted|].
  split; [intros u; by apply welded_elem|].
  split.
  - destruct (vertices b) as [|v vs] eqn:E; [cbn in Hsize; lia|].
    destruct (welded_covers T HT (v :: vs) Hnf v) as (u & Hu & _); [left|].
    apply list_elem_of_lookup_1 in Hu as [i Hi]. apply lookup_lt_Some in Hi. lia.
  - etrans; [apply sublist_length, thrust_unique_sublist|].
    by rewrite (thrust_sort_perm T HT) by done.
Qed.

Lemma welded_vertices_ascending_witness :
  exists b',
    weldVerticesThrustAsync (T:=sequential_thrust) [origin]
      {[origin := duplicate_block]} !! origin = Some b' /\
    strictly_sorted (vertices b') /\
    (forall u, u ∈ vertices b' -> u ∈ vertices duplicate_block) /\
    (0 < length (vertices b') <= length (vertices duplicate_block))%nat.
Proof.
  destruct (origin_layer_hyps duplicate_block) as (Hnd & Hin & Hb).
  apply (welded_vertices_ascending sequential_thrust [origin]
           {[origin := duplicate_block]} origin duplicate_block);
    [apply sequential_thrust_contract|exact Hnd|exact Hin|exact Hb|cbn; lia|].
  repeat constructor.
Defined.

(** ** Independence of the order of the input *)

Lemma canon_float_idem f : canon_float (canon_float f) = canon_float f.
Proof. by destruct f. Qed.

Lemma canon_idem v : canon (canon v) = canon v.
Proof. unfold canon. cbn. by rewrite !canon_float_idem. Qed.

Lemma is_nan_canon_float f : is_nan (canon_float f) = is_nan f.
Proof. by destruct f. Qed.

Lemma nan_free_canon v : nan_free (canon v) = nan_free v.
Proof. unfold nan_free, canon. cbn. by rewrite !is_nan_canon_float. Qed.

Lemma all_nan_free_canon l : all_nan_free l -> all_nan_free (canon <$> l).
Proof.
  unfold all_nan_free. rewrite Forall_fmap. intros H.
  eapply Forall_impl; [exact H|]. intros v Hv. cbn. by rewrite nan_free_canon.
Qed.

Lemma sorted_by_canon l :
  all_nan_free l -> sorted_by VectorCompare l -> sorted_by VectorCompare (canon <$> l).
Proof.
  intros Hnf Hs. unfold sorted_by in *.
  induction Hs as [|a l Hs IH Ha]; [constructor|].
  apply Forall_cons in Hnf as [Hna Hnf]. cbn. constructor; [by apply IH|].
  rewrite Forall_fmap. rewrite Forall_forall in Ha, Hnf.
  apply Forall_forall. intros b Hb. cbn.
  rewrite <- (VectorCompare_canon b (canon b) a (canon a));
    rewrite ?nan_free_canon, ?canon_idem; auto.
Qed.

Lemma strictly_sorted_canon_unique l1 l2 :
  all_nan_free l1 -> all_nan_free l2 ->
  strictly_sorted l1 -> strictly_sorted l2 ->
  (forall c, c ∈ canon <$> l1 <-> c ∈ canon <$> l2) ->
  canon <$> l1 = canon <$> l2.
Proof.
  intros Hnf1 Hnf2 Hs1 Hs2 Hel.
  apply (StronglySorted_unique_strong (fun a b => VectorCompare b a = false)).
  - intros x1 x2 Hx1 Hx2 H12 H21.
    apply list_elem_of_fmap in Hx1 as (v1 & -> & Hv1).
    apply list_elem_of_fmap in Hx2 as (v2 & -> & Hv2).
    unfold all_nan_free in *. rewrite Forall_forall in Hnf1, Hnf2.
    rewrite <- (canon_idem v1), <- (canon_idem v2).
    apply VectorCompare_total; rewrite ?nan_free_canon; auto.
  - by apply sorted_by_canon, strictly_sorted_sorted_by.
  - by apply sorted_by_canon, strictly_sorted_sorted_by.
  - apply NoDup_Permutation; [by apply strictly_sorted_nodup_canon..|done].
Qed.

(** X15.  On input free of NaN, the vertices that [weldSingleBlockThrustAsync]
    returns depend, up to the sign of the zeros, only on the positions in the
    input: not on their order, nor on how thrust orders equal vertices. *)
Theorem weld_is_order_independent (T1 T2 : Thrust)
    (input_vertices1 input_vertices2 : list Vector3f) (input_indices1 input_indices2 : list Z) :
  thrust_contract T1 -> thrust_contract T2 ->
  all_nan_free input_vertices1 -> input_vertices1 ≡ₚ input_vertices2 ->
  canon <$> (weldSingleBlockThrustAsync (T:=T1) input_vertices1 input_indices1).1
  = canon <$> (weldSingleBlockThrustAsync (T:=T2) input_vertices2 input_indices2).1.
Proof.
  intros HT1 HT2 Hnf Hp. cbn.
  assert (Hnf2 : all_nan_free input_vertices2) by by eapply all_nan_free_perm.
  apply strictly_sorted_canon_unique.
  - by apply welded_nan_free.
  - by apply welded_nan_free.
  - by apply welded_strictly_sorted.
  - by apply welded_strictly_sorted.
  - intros c.
    rewrite (welded_canon T1 HT1 _ Hnf), (welded_canon T2 HT2 _ Hnf2).
    rewrite !elem_of_remove_dups. by rewrite Hp.
Qed.

Lemma weld_is_order_independent_witness :
  canon <$> (weldSingleBlockThrustAsync (T:=sequential_thrust)
               (vertices signed_zero_block) []).1
  = canon <$> (weldSingleBlockThrustAsync (T:=sequential_thrust)
                 (reverse (vertices signed_zero_block)) []).1.
Proof.
  apply (weld_is_order_independent sequential_thrust sequential_thrust
           (vertices signed_zero_block) (reverse (vertices signed_zero_block)) [] []).
  - apply sequential_thrust_contract.
  - apply sequential_thrust_contract.
  - repeat constructor.
  - symmetry. apply reverse_Permutation.
Defined.

(** ** The remap of [weldSingleBlockThrustAsync] *)

(** X16.  [weldSingleBlockThrustAsync], for any number of vertices free of NaN
    and an index array at least as long: the output vertices are strictly
    ascending; the output indices are as many as the input indices and, past
    the number of vertices, are the input indices; for every input position
    [i], the output index at [i] is the place of an output vertex that is
    equal ([==]) to the input vertex at [i]. *)
Theorem weld_single_round_trip (T : Thrust) (input_vertices : list Vector3f)
    (input_indices : list Z) :
  thrust_contract T ->
  all_nan_free input_vertices ->
  (length input_vertices <= length input_indices)%nat ->
  let output_vertices := (weldSingleBlockThrustAsync input_vertices input_indices).1 in
  let output_indices := (weldSingleBlockThrustAsync input_vertices input_indices).2 in
  strictly_sorted output_vertices /\
  length output_indices = length input_indices /\
  drop (length input_vertices) output_indices
  = drop (length input_vertices) input_indices /\
  forall i v,
    input_vertices !! i = Some v ->
    exists t u,
      output_indices !! i = Some (Z.of_nat t) /\
      output_vertices !! t = Some u /\ vec_eqb u v = true.
Proof.
  intros HT Hnf Hlen output_vertices output_indices.
  subst output_vertices output_indices. cbn [fst snd weldSingleBlockThrustAsync].
  set (welded := thrust_unique (thrust_sort input_vertices)).
  split; [by apply welded_strictly_sorted|].
  split; [by rewrite length_inserts|].
  split.
  { apply list_eq. intros i. rewrite !lookup_drop.
    apply list_lookup_inserts_ge. rewrite lower_bound_all_length. lia. }
  intros i v Hi.
  assert (Hv : v ∈ input_vertices) by by eapply list_elem_of_lookup_2.
  destruct (welded_lower_bound T HT input_vertices Hnf v Hv) as (u & Hu & Hc).
  exists (lower_bound welded v), u.
  split; [|split; [done|]].
  - pose proof (lookup_lt_Some _ _ _ Hi) as Hlt.
    rewrite list_lookup_inserts by (rewrite ?lower_bound_all_length; lia).
    rewrite Nat.sub_0_r, lower_bound_all_lookup, Hi. done.
  - apply vec_eqb_canon; [| |done].
    + pose proof (welded_nan_free T HT input_vertices Hnf) as Hw.
      unfold all_nan_free in Hw. rewrite Forall_forall in Hw.
      apply Hw. by eapply list_elem_of_lookup_2.
    + unfold all_nan_free in Hnf. rewrite Forall_forall in Hnf. by apply Hnf.
Qed.

Lemma weld_single_round_trip_witness :
  let input_vertices := [on_x_axis 2; on_x_axis 1; on_x_axis 2] in
  let input_indices := [7; 7; 7; 7] in
  let output_vertices :=
    (weldSingleBlockThrustAsync (T:=sequential_thrust) input_vertices input_indices).1 in
  let output_indices :=
    (weldSingleBlockThrustAsync (T:=sequential_thrust) input_vertices input_indices).2 in
  strictly_sorted output_vertices /\
  length output_indices = length input_indices /\
  drop (length input_vertices) output_indices
  = drop (length input_vertices) input_indices /\
  forall i v,
    input_vertices !! i = Some v ->
    exists t u,
      output_indices !! i = Some (Z.of_nat t) /\
      output_vertices !! t = Some u /\ vec_eqb u v = true.
Proof.
  apply (weld_single_round_trip sequential_thrust
           [on_x_axis 2; on_x_axis 1; on_x_axis 2] [7; 7; 7; 7]).
  - apply sequential_thrust_contract.
  - repeat constructor.
  - cbn. lia.
Defined.

(** ** The size in bytes and the colors *)

(** X18.  Welding a block whose normals are as many as its vertices lowers
    [sizeInBytes] by two [sizeof(Vector3f)] for each vertex it removes (the
    vertex and its normal), and never raises it. *)
Theorem weld_frees_bytes (T : Thrust) (sizeof_Vector3f sizeof_Color : Z)
    (block_indices : list Index3D) (mesh_layer : gmap Index3D MeshBlock)
    (index : Index3D) (b : MeshBlock) :
  thrust_contract T ->
  NoDup block_indices -> index ∈ block_indices ->
  mesh_layer !! index = Some b ->
  (3 < length (vertices b))%nat ->
  length (normals b) = length (vertices b) ->
  all_nan_free (vertices b) ->
  0 <= sizeof_Vector3f -> 0 <= sizeof_Color ->
  Z.of_nat (length (vertices b)) * sizeof_Vector3f +
  Z.of_nat (length (normals b)) * sizeof_Vector3f +
  Z.of_nat (length (colors b)) * sizeof_Color +
  Z.of_nat (length (triangles b)) * sizeof_int < 2 ^ 64 ->
  exists b',
    weldVerticesThrustAsync block_indices mesh_layer !! index = Some b' /\
    sizeInBytes sizeof_Vector3f sizeof_Color b'
    = sizeInBytes sizeof_Vector3f sizeof_Color b
      - 2 * sizeof_Vector3f * Z.of_nat (length (vertices b) - length (vertices b')) /\
    sizeInBytes sizeof_Vector3f sizeof_Color b'
    <= sizeInBytes sizeof_Vector3f sizeof_Color b.
Proof.
  intros HT Hnd Hin Hb Hsize Hnor Hnf Hsv Hsc Hfit.
  exists (weld_block b).
  split. { by rewrite weld_layer_once, Hb, <- weld_or_skip_welds. }
  assert (Hle : (length (vertices (weld_block b)) <= length (vertices b))%nat).
  { rewrite weld_block_vertices.
    etrans; [apply sublist_length, thrust_unique_sublist|].
    by rewrite (thrust_sort_perm T HT) by done. }
  pose proof (weld_block_normals_length T b) as Hn'.
  assert (Htri : length (triangles (weld_block b)) = length (triangles b)).
  { cbn. apply length_inserts. }
  unfold sizeInBytes. rewrite Hn', Htri, weld_block_colors, Hnor in *.
  unfold sizeof_int in *.
  rewrite !Z.mod_small by nia. split; [nia|nia].
Qed.

Lemma weld_frees_bytes_witness :
  exists b',
    weldVerticesThrustAsync (T:=sequential_thrust) [origin]
      {[origin := duplicate_block]} !! origin = Some b' /\
    sizeInBytes 12 4 b'
    = sizeInBytes 12 4 duplicate_block
      - 2 * 12 * Z.of_nat (length (vertices duplicate_block) - length (vertices b')) /\
    sizeInBytes 12 4 b' <= sizeInBytes 12 4 duplicate_block.
Proof.
  destruct (origin_layer_hyps duplicate_block) as (Hnd & Hin & Hb).
  apply (weld_frees_bytes sequential_thrust 12 4 [origin]
           {[origin := duplicate_block]} origin duplicate_block);
    [apply sequential_thrust_contract|exact Hnd|exact Hin|exact Hb
    |cbn; lia|reflexivity| |lia|lia|reflexivity].
  repeat constructor.
Defined.

Lemma expandColors_length fresh b :
  length (colors (expandColorsToMatchVertices fresh b)) = length (vertices b).
Proof.
  cbn. rewrite length_app, length_take, length_fmap, length_seq. lia.
Qed.

(** X19.  [expandColorsToMatchVerticesAsync] makes [colors] as long as
    [vertices], truncating it when it was longer; the other three sequences
    are untouched; every color below both lengths is kept and the added ones
    are what the buffer holds; a second call changes nothing. *)
Theorem expand_colors_aligns (fresh fresh' : nat -> Color) (b : MeshBlock) :
  let b' := expandColorsToMatchVertices fresh b in
  length (colors b') = MeshBlock_size b' /\
  vertices b' = vertices b /\ normals b' = normals b /\ triangles b' = triangles b /\
  (forall i, (i < length (vertices b))%nat ->
     colors b' !! i = Some (default (fresh i) (colors b !! i))) /\
  expandColorsToMatchVertices fresh' b' = b'.
Proof.
  intros b'. subst b'.
  split; [apply expandColors_length|].
  split; [done|]. split; [done|]. split; [done|]. split.
  - intros i Hi. cbn.
    destruct (decide (i < length (colors b))%nat) as [Hlt|Hge].
    + rewrite lookup_app_l by (rewrite length_take; lia).
      rewrite lookup_take_lt by done.
      destruct (lookup_lt_is_Some_2 _ _ Hlt) as [c Hc]. by rewrite Hc.
    + rewrite lookup_app_r by (rewrite length_take; lia).
      rewrite length_take, Nat.min_r by lia.
      rewrite list_lookup_fmap, lookup_seq_lt by lia. cbn.
      rewrite lookup_ge_None_2 by lia. cbn. do 2 f_equal. lia.
  - pose proof (expandColors_length fresh b) as Hlen.
    unfold expandColorsToMatchVertices at 1.
    cbn [vertices normals triangles].
    change (vertices (expandColorsToMatchVertices fresh b)) with (vertices b).
    rewrite Hlen, Nat.sub_diag, app_nil_r, <- Hlen, take_ge by lia.
    by destruct b.
Qed.

(** ** The order of the block indices *)

Lemma lower_bound_canon_eq (l1 l2 : list Vector3f) v :
  canon <$> l1 = canon <$> l2 ->
  all_nan_free l1 -> all_nan_free l2 -> nan_free v = true ->
  lower_bound l1 v = lower_bound l2 v.
Proof.
  revert l2. induction l1 as [|e1 l1 IH]; intros [|e2 l2] Hc Hn1 Hn2 Hv;
    try done.
  assert (He : canon e1 = canon e2).
  { change (default (canon e1) (head (canon <$> e1 :: l1)) = canon e2).
    by rewrite Hc. }
  assert (Hc' : canon <$> l1 = canon <$> l2).
  { change (tail (canon <$> e1 :: l1) = tail (canon <$> e2 :: l2)). by rewrite Hc. }
  apply Forall_cons in Hn1 as [He1 Hn1]. apply Forall_cons in Hn2 as [He2 Hn2].
  cbn [lower_bound]. rewrite (VectorCompare_canon e1 e2 v v) by done.
  destruct (VectorCompare e2 v); [|done]. f_equal. by apply IH.
Qed.

Lemma same_weld_refl b : same_weld b b.
Proof. by repeat split. Qed.

Lemma weld_block_same_weld (T1 T2 : Thrust) b :
  thrust_contract T1 -> thrust_contract T2 -> all_nan_free (vertices b) ->
  same_weld (weld_block (T:=T1) b) (weld_block (T:=T2) b).
Proof.
  intros HT1 HT2 Hnf.
  pose proof (welded_nan_free T1 HT1 (vertices b) Hnf) as Hn1.
  pose proof (welded_nan_free T2 HT2 (vertices b) Hnf) as Hn2.
  assert (Hv : canon <$> vertices (weld_block (T:=T1) b)
               = canon <$> vertices (weld_block (T:=T2) b)).
  { rewrite !weld_block_vertices. apply strictly_sorted_canon_unique; try done.
    - by apply welded_strictly_sorted.
    - by apply welded_strictly_sorted.
    - intros c. rewrite (welded_canon T1 HT1 _ Hnf), (welded_canon T2 HT2 _ Hnf).
      done. }
  split; [done|]. split; [|split; [done|]].
  - rewrite !weld_block_normals_length.
    by rewrite <- (length_fmap canon), Hv, length_fmap.
  - cbn [triangles weld_block]. f_equal. unfold lower_bound_all.
    apply list_fmap_ext. intros i v Hi. f_equal.
    apply lower_bound_canon_eq; try done.
    unfold all_nan_free in Hnf. rewrite Forall_forall in Hnf.
    eapply Hnf, list_elem_of_lookup_2, Hi.
Qed.

Lemma weld_or_skip_same_weld (T1 T2 : Thrust) b :
  thrust_contract T1 -> thrust_contract T2 -> all_nan_free (vertices b) ->
  same_weld (weld_or_skip (T:=T1) b) (weld_or_skip (T:=T2) b).
Proof.
  intros HT1 HT2 Hnf. unfold weld_or_skip.
  destruct (MeshBlock_size b <=? 3)%nat; [apply same_weld_refl|].
  by apply weld_block_same_weld.
Qed.

Lemma first_writer_thrust_contract : thrust_contract first_writer_thrust.
Proof.
  split.
  - intros l _. apply stable_sort_order_perm.
  - intros l Hnf. by apply stable_sort_order_sorted.
Qed.

(** X17.  The result of [weldVerticesThrustAsync] on a layer of blocks free of
    NaN does not depend on the order of the block indices, when none is listed
    twice, nor on what thrust does, up to what thrust leaves open: in two
    runs the layer has a block at the same indices, and the two blocks at an
    index have the same vertices up to the sign of the zeros, as many
    normals, the same colors and the same triangle indices. *)
Theorem weld_layer_order_irrelevant (T1 T2 : Thrust)
    (block_indices block_indices' : list Index3D)
    (mesh_layer : gmap Index3D MeshBlock) (index : Index3D) :
  thrust_contract T1 -> thrust_contract T2 ->
  NoDup block_indices -> block_indices ≡ₚ block_indices' ->
  (forall i b, mesh_layer !! i = Some b -> all_nan_free (vertices b)) ->
  option_Forall2 same_weld
    (weldVerticesThrustAsync (T:=T1) block_indices mesh_layer !! index)
    (weldVerticesThrustAsync (T:=T2) block_indices' mesh_layer !! index).
Proof.
  intros HT1 HT2 Hnd Hperm Hnf.
  assert (Hnd' : NoDup block_indices') by by rewrite <- Hperm.
  destruct (decide (index ∈ block_indices)) as [Hin|Hout].
  - rewrite (weld_layer_once T1), (weld_layer_once T2); try done;
      [|by rewrite <- Hperm].
    destruct (mesh_layer !! index) as [b|] eqn:Hb; constructor.
    apply weld_or_skip_same_weld; try done. by eapply Hnf.
  - rewrite (weld_layer_other T1), (weld_layer_other T2); try done;
      [|by rewrite <- Hperm].
    destruct (mesh_layer !! index) as [b|]; constructor. apply same_weld_refl.
Qed.

Lemma weld_layer_order_irrelevant_witness :
  option_Forall2 same_weld
    (weldVerticesThrustAsync (T:=sequential_thrust) [origin; (1, 0, 0)]
       (<[(1, 0, 0) := signed_zero_block]> {[origin := duplicate_block]}) !! origin)
    (weldVerticesThrustAsync (T:=first_writer_thrust) [(1, 0, 0); origin]
       (<[(1, 0, 0) := signed_zero_block]> {[origin := duplicate_block]}) !! origin).
Proof.
  apply (weld_layer_order_irrelevant sequential_thrust first_writer_thrust
           [origin; (1, 0, 0)] [(1, 0, 0); origin]).
  - apply sequential_thrust_contract.
  - apply first_writer_thrust_contract.
  - apply NoDup_cons. split; [|apply NoDup_singleton].
    apply not_elem_of_cons. split; [discriminate|apply not_elem_of_nil].
  - apply Permutation_swap.
  - intros i b Hb. apply lookup_insert_Some in Hb as [[_ <-]|[_ Hb]].
    + repeat constructor.
    + apply lookup_singleton_Some in Hb as [_ <-]. repeat constructor.
Defined.

End MeshFacts.

(* ===================================================================== *)
(** * Properties of the single-block kernels *)
(* ===================================================================== *)

Module KernelFacts.
Import MeshUtils MeshFacts.

(** ** The block-wide radix sort *)

Section Sort.
Context {V : Type}.
Implicit Types (kv : Z * V) (l : list (Z * V)).

Lemma insert_by_key_perm kv l : insert_by_key kv l ≡ₚ kv :: l.
Proof.
  induction l as [|kv' l IH]; cbn; [done|].
  destruct (kv'.1 <? kv.1); [|done]. rewrite IH. apply perm_swap.
Qed.

Lemma BlockRadixSort_cons kv l :
  BlockRadixSort (kv :: l) = insert_by_key kv (BlockRadixSort l).
Proof. reflexivity. Qed.

Lemma BlockRadixSort_perm l : BlockRadixSort l ≡ₚ l.
Proof.
  induction l as [|kv l IH]; [done|].
  by rewrite BlockRadixSort_cons, insert_by_key_perm, IH.
Qed.

Lemma BlockRadixSort_length l : length (BlockRadixSort l) = length l.
Proof. by rewrite BlockRadixSort_perm. Qed.

Lemma insert_by_key_sorted kv l :
  keys_sorted l -> keys_sorted (insert_by_key kv l).
Proof.
  induction 1 as [|kv' l Hs IH Hle]; cbn; [repeat constructor|].
  destruct (Z.ltb_spec kv'.1 kv.1) as [Hlt|Hge].
  - constructor; [done|]. rewrite insert_by_key_perm.
    constructor; [lia|done].
  - constructor; [by constructor|].
    constructor; [done|]. eapply Forall_impl; [exact Hle|]. cbn. intros; lia.
Qed.

Lemma BlockRadixSort_sorted l : keys_sorted (BlockRadixSort l).
Proof.
  induction l as [|kv l IH]; [constructor|].
  rewrite BlockRadixSort_cons. by apply insert_by_key_sorted.
Qed.

(** Items that all carry the largest key, placed after the others, stay
    behind them. *)
Lemma insert_by_key_app kv l pad :
  Forall (fun kv' => kv.1 <= kv'.1) pad ->
  insert_by_key kv (l ++ pad) = insert_by_key kv l ++ pad.
Proof.
  intros Hpad. induction l as [|kv' l IH]; cbn.
  - destruct pad as [|p pad]; [done|]. cbn.
    inversion Hpad; subst.
    destruct (Z.ltb_spec p.1 kv.1); [lia|done].
  - destruct (kv'.1 <? kv.1); [by rewrite IH|done].
Qed.

Lemma BlockRadixSort_replicate m kv : BlockRadixSort (replicate m kv) = replicate m kv.
Proof.
  induction m as [|m IH]; [done|].
  cbn [replicate]. rewrite BlockRadixSort_cons, IH.
  destruct m; cbn; [done|]. by rewrite Z.ltb_irrefl.
Qed.

Lemma BlockRadixSort_app_pad l m kv :
  Forall (fun kv' => kv'.1 <= kv.1) l ->
  BlockRadixSort (l ++ replicate m kv) = BlockRadixSort l ++ replicate m kv.
Proof.
  induction 1 as [|kv' l Hle _ IH].
  - apply BlockRadixSort_replicate.
  - rewrite <- app_comm_cons, !BlockRadixSort_cons, IH.
    apply insert_by_key_app.
    apply Forall_forall. intros x ->%elem_of_replicate_inv. done.
Qed.

End Sort.

(** Stability, for items that carry their own position: the sorted pairs are
    in the order of [pair_lt]. *)
Lemma insert_by_key_pair_sorted (a : Z * Z) l :
  StronglySorted pair_lt l -> Forall (fun b => a.2 < b.2) l ->
  StronglySorted pair_lt (insert_by_key a l).
Proof.
  induction 1 as [|b l Hs IH Hlt]; intros Hidx; cbn; [repeat constructor|].
  inversion Hidx as [|? ? Hab Hidx']; subst.
  destruct (Z.ltb_spec b.1 a.1) as [Hk|Hk].
  - constructor; [by apply IH|]. rewrite insert_by_key_perm.
    constructor; [by left|done].
  - constructor; [by constructor|].
    apply Forall_forall. intros c Hc.
    rewrite Forall_forall in Hidx. specialize (Hidx c Hc).
    apply elem_of_cons in Hc as [->|Hc].
    + unfold pair_lt. lia.
    + rewrite Forall_forall in Hlt. specialize (Hlt c Hc).
      unfold pair_lt in *. lia.
Qed.

Lemma BlockRadixSort_pair_sorted (l : list (Z * Z)) :
  StronglySorted (fun a b => a.2 < b.2) l ->
  StronglySorted pair_lt (BlockRadixSort l).
Proof.
  induction 1 as [|a l Hs IH Hlt]; [constructor|].
  rewrite BlockRadixSort_cons.
  apply insert_by_key_pair_sorted; [done|].
  by rewrite BlockRadixSort_perm.
Qed.


(** ** Flags and scanned flags of sorted keys *)

Lemma keys_sorted_ascending {V} (l : list (Z * V)) :
  keys_sorted l -> ascending (l.*1).
Proof.
  unfold keys_sorted, ascending.
  induction 1 as [|a l Hs IH Hall]; [constructor|].
  cbn. constructor; [done|]. apply Forall_fmap.
  eapply Forall_impl; [exact Hall|]. done.
Qed.

Lemma ascending_lookup keys s t a b :
  ascending keys -> (s <= t)%nat -> keys !! s = Some a -> keys !! t = Some b -> a <= b.
Proof.
  intros Hs. revert s t. induction Hs as [|k keys Hs IH Hle]; intros s t Hst Ha Hb; [done|].
  destruct s as [|s], t as [|t]; cbn in *; simplify_eq; try lia.
  - rewrite Forall_forall in Hle. eapply Hle, list_elem_of_lookup_2, Hb.
  - eapply (IH s t); [lia|done..].
Qed.

Lemma rank_lt keys k : k ∈ keys -> (rank keys k < distinct_keys keys)%nat.
Proof.
  intros Hk. unfold rank, distinct_keys.
  assert (Hsub : filter (fun k' => k' < k) (list_to_set keys : gset Z) ∪ {[k]}
                 ⊆ list_to_set keys).
  { intros x. rewrite elem_of_union, elem_of_filter, elem_of_singleton, !elem_of_list_to_set.
    intros [[_ ?]| ->]; done. }
  apply subseteq_size in Hsub. rewrite size_union, size_singleton in Hsub; [lia|].
  intros x. rewrite elem_of_filter, elem_of_singleton. intros [? _] ->. lia.
Qed.

Lemma rank_succ keys a b :
  a ∈ keys -> a < b -> (forall x, x ∈ keys -> x < b -> x <= a) ->
  rank keys b = S (rank keys a).
Proof.
  intros Ha Hab Hbetween. unfold rank.
  assert (Heq : filter (fun k' => k' < b) (list_to_set keys : gset Z)
                = filter (fun k' => k' < a) (list_to_set keys : gset Z) ∪ {[a]}).
  { apply set_eq. intros x.
    rewrite elem_of_union, !elem_of_filter, elem_of_singleton, !elem_of_list_to_set.
    split.
    - intros [Hx Hin]. specialize (Hbetween x Hin Hx).
      destruct (decide (x = a)); [by right|left; split; [lia|done]].
    - intros [[Hx Hin]| ->]; split; done || lia. }
  rewrite Heq, size_union, size_singleton; [lia|].
  intros x. rewrite elem_of_filter, elem_of_singleton. intros [? _] ->. lia.
Qed.

Lemma rank_min keys k : (forall x, x ∈ keys -> k <= x) -> rank keys k = 0%nat.
Proof.
  intros Hmin. unfold rank. apply size_empty_iff, elem_of_equiv_empty. intros x.
  rewrite elem_of_filter, elem_of_list_to_set. intros [Hx Hin].
  specialize (Hmin x Hin). lia.
Qed.

Lemma rank_max keys k :
  k ∈ keys -> (forall x, x ∈ keys -> x <= k) -> S (rank keys k) = distinct_keys keys.
Proof.
  intros Hk Hmax. unfold rank, distinct_keys.
  assert (Heq : (list_to_set keys : gset Z)
                = filter (fun k' => k' < k) (list_to_set keys : gset Z) ∪ {[k]}).
  { apply set_eq. intros x.
    rewrite elem_of_union, !elem_of_filter, elem_of_singleton, !elem_of_list_to_set.
    split.
    - intros Hin. specialize (Hmax x Hin).
      destruct (decide (x = k)); [by right|left; split; [lia|done]].
    - intros [[_ ?]| ->]; done. }
  rewrite Heq at 2. rewrite size_union, size_singleton; [lia|].
  intros x. rewrite elem_of_filter, elem_of_singleton. intros [? _] ->. lia.
Qed.

Lemma rank_inj keys a b : a ∈ keys -> b ∈ keys -> rank keys a = rank keys b -> a = b.
Proof.
  assert (Hmono : forall a b, a ∈ keys -> a < b -> (rank keys a < rank keys b)%nat).
  { clear. intros a b Ha Hab. unfold rank.
    assert (Hsub : filter (fun k' => k' < a) (list_to_set keys : gset Z) ∪ {[a]}
                   ⊆ filter (fun k' => k' < b) (list_to_set keys : gset Z)).
    { intros x. rewrite elem_of_union, !elem_of_filter, elem_of_singleton, !elem_of_list_to_set.
      intros [[? ?]| ->]; split; done || lia. }
    apply subseteq_size in Hsub. rewrite size_union, size_singleton in Hsub; [lia|].
    intros x. rewrite elem_of_filter, elem_of_singleton. intros [? _] ->. lia. }
  intros Ha Hb Hr.
  destruct (Z.lt_trichotomy a b) as [Hlt|[->|Hgt]]; [|done|].
  - specialize (Hmono a b Ha Hlt). lia.
  - specialize (Hmono b a Hb Hgt). lia.
Qed.

Lemma rank_perm keys keys' k : keys ≡ₚ keys' -> rank keys k = rank keys' k.
Proof.
  intros Hp. unfold rank. f_equal. f_equal. apply set_eq. intros x.
  by rewrite !elem_of_list_to_set, Hp.
Qed.

Lemma distinct_keys_perm keys keys' :
  keys ≡ₚ keys' -> distinct_keys keys = distinct_keys keys'.
Proof.
  intros Hp. unfold distinct_keys. f_equal. apply set_eq. intros x.
  by rewrite !elem_of_list_to_set, Hp.
Qed.

Lemma FlagHeads_length keys : length (FlagHeads keys) = length keys.
Proof.
  destruct keys as [|k keys]; cbn; [done|]. f_equal.
  revert k. induction keys as [|k' keys IH]; intros k; cbn; [done|]. by rewrite IH.
Qed.

Lemma InclusiveSum_length items : length (InclusiveSum items) = length items.
Proof.
  unfold InclusiveSum. generalize 0.
  induction items as [|x items IH]; intros acc; cbn; [done|]. by rewrite IH.
Qed.

Lemma flags_from_lookup prev keys s a b :
  (prev :: keys) !! s = Some a -> keys !! s = Some b ->
  flags_from prev keys !! s = Some (if a =? b then 0 else 1).
Proof.
  revert prev s. induction keys as [|k keys IH]; intros prev s Ha Hb; [done|].
  destruct s as [|s]; cbn in *; [by simplify_eq|]. by apply IH.
Qed.

Lemma FlagHeads_lookup_0 keys k : keys !! 0%nat = Some k -> FlagHeads keys !! 0%nat = Some 1.
Proof. by destruct keys. Qed.

Lemma FlagHeads_lookup_S keys s a b :
  keys !! s = Some a -> keys !! S s = Some b ->
  FlagHeads keys !! S s = Some (if a =? b then 0 else 1).
Proof.
  destruct keys as [|k keys]; [done|]. cbn. intros Ha Hb.
  by apply flags_from_lookup.
Qed.

(** An item is flagged exactly when it is the first with its key. *)
Lemma FlagHeads_first keys s k :
  ascending keys -> keys !! s = Some k -> FlagHeads keys !! s = Some 1 ->
  forall t k', (t < s)%nat -> keys !! t = Some k' -> k' < k.
Proof.
  intros Hs Hk Hflag t k' Hts Hk'.
  destruct s as [|s]; [lia|].
  destruct (lookup_lt_is_Some_2 keys s) as [a Ha].
  { apply lookup_lt_Some in Hk. lia. }
  rewrite (FlagHeads_lookup_S keys s a k Ha Hk) in Hflag.
  destruct (Z.eqb_spec a k) as [Heq|Hne]; [done|].
  assert (a <= k) by (eapply (ascending_lookup keys s (S s)); eauto).
  assert (k' <= a) by (eapply (ascending_lookup keys t s); eauto; lia).
  lia.
Qed.

Lemma FlagHeads_exists keys k :
  k ∈ keys ->
  exists s, keys !! s = Some k /\ FlagHeads keys !! s = Some 1 /\
            forall t, (t < s)%nat -> keys !! t <> Some k.
Proof.
  intros Hk.
  destruct (list_find (fun x => x = k) keys) as [[s x]|] eqn:Hfind.
  2: { apply list_find_None in Hfind. rewrite Forall_forall in Hfind.
       by specialize (Hfind k Hk). }
  apply list_find_Some in Hfind as (Hs & -> & Hfirst).
  exists s. split; [done|]. split.
  - destruct s as [|s]; [by eapply FlagHeads_lookup_0|].
    destruct (lookup_lt_is_Some_2 keys s) as [a Ha].
    { apply lookup_lt_Some in Hs. lia. }
    rewrite (FlagHeads_lookup_S keys s a k Ha Hs).
    destruct (Z.eqb_spec a k) as [Heq|Hne]; [|done].
    subst a. by specialize (Hfirst s k Ha ltac:(lia)).
  - intros t Ht Hkt. by apply (Hfirst t k).
Qed.

(** The scanned flag of an item is one more than the rank of its key. *)
Lemma sums_flags_sorted keys :
  ascending keys ->
  forall before prev after,
    keys = before ++ prev :: after ->
    sums_from (1 + Z.of_nat (rank keys prev)) (flags_from prev after)
    = (fun k => 1 + Z.of_nat (rank keys k)) <$> after.
Proof.
  intros Hs before prev after. revert before prev.
  induction after as [|k after IH]; intros before prev Hkeys; [done|].
  cbn. assert (Hstep : 1 + Z.of_nat (rank keys prev) + (if prev =? k then 0 else 1)
                       = 1 + Z.of_nat (rank keys k)).
  { destruct (Z.eqb_spec prev k) as [Heq|Hne]; [subst prev; lia|].
    assert (Hle : prev <= k).
    { apply (ascending_lookup keys (length before) (S (length before))); [done|lia|..];
        subst keys.
      - by rewrite lookup_app_r, Nat.sub_diag by lia.
      - rewrite lookup_app_r by lia.
        by replace (S (length before) - length before)%nat with 1%nat by lia. }
    rewrite (rank_succ keys prev k); [lia|..].
    - subst keys. rewrite elem_of_app, elem_of_cons. auto.
    - lia.
    - intros x Hx Hxk. subst keys.
      apply list_elem_of_lookup_1 in Hx as [t Ht].
      destruct (decide (t <= length before)%nat) as [Hle'|Hgt].
      + eapply (ascending_lookup _ t (length before)); [done|lia|done|].
        by rewrite lookup_app_r, Nat.sub_diag by lia.
      + assert (k <= x); [|lia].
        eapply (ascending_lookup _ (S (length before)) t); [done|lia| |done].
        rewrite lookup_app_r by lia.
        by replace (S (length before) - length before)%nat with 1%nat by lia. }
  rewrite Hstep. f_equal.
  apply (IH (before ++ [prev]) k). by rewrite <- app_assoc.
Qed.

Lemma InclusiveSum_FlagHeads keys :
  ascending keys ->
  InclusiveSum (FlagHeads keys) = (fun k => 1 + Z.of_nat (rank keys k)) <$> keys.
Proof.
  intros Hs. destruct keys as [|k keys]; [done|].
  unfold InclusiveSum. cbn [FlagHeads sums_from fmap list_fmap].
  assert (Hr : rank (k :: keys) k = 0%nat).
  { apply rank_min. intros x Hx.
    apply list_elem_of_lookup_1 in Hx as [t Ht].
    by eapply (ascending_lookup (k :: keys) 0 t); [done|lia|done|done]. }
  rewrite Hr. cbn. f_equal.
  pose proof (sums_flags_sorted (k :: keys) Hs [] k keys eq_refl) as H.
  by rewrite Hr in H.
Qed.


(** ** Loops of writes *)

Lemma write_at_length {A} (array : list A) i v :
  length (write_at array i v) = length array.
Proof. unfold write_at. destruct (0 <=? i); [apply length_insert|done]. Qed.

Lemma write_at_lookup_eq {A} (array : list A) (j : nat) v :
  (j < length array)%nat -> write_at array (Z.of_nat j) v !! j = Some v.
Proof.
  intros Hj. unfold write_at. destruct (Z.leb_spec 0 (Z.of_nat j)); [|lia].
  rewrite Nat2Z.id. by apply list_lookup_insert_eq.
Qed.

Lemma write_at_lookup_ne {A} (array : list A) i (j : nat) v :
  i <> Z.of_nat j -> write_at array i v !! j = array !! j.
Proof.
  intros Hne. unfold write_at. destruct (Z.leb_spec 0 i); [|done].
  apply list_lookup_insert_ne. lia.
Qed.

Section Writes.
Context {A B : Type}.
Variable target : B -> option (Z * A).

Lemma write_loop_length ws out : length (foldl (write_step target) out ws) = length out.
Proof.
  revert out. induction ws as [|w ws IH]; intros out; [done|].
  cbn. rewrite IH. unfold write_step.
  destruct (target w) as [[i v]|]; [apply write_at_length|done].
Qed.

Lemma write_loop_miss ws out (j : nat) :
  (forall w v, w ∈ ws -> target w <> Some (Z.of_nat j, v)) ->
  foldl (write_step target) out ws !! j = out !! j.
Proof.
  revert out. induction ws as [|w ws IH]; intros out Hmiss; [done|].
  cbn. rewrite IH by (intros w' v' Hw'; apply Hmiss; by right).
  unfold write_step. destruct (target w) as [[i v]|] eqn:Ht; [|done].
  apply write_at_lookup_ne. intros ->. by apply (Hmiss w v); [left|].
Qed.

Lemma write_loop_hit ws out (j : nat) v :
  (j < length out)%nat ->
  (exists w, w ∈ ws /\ target w = Some (Z.of_nat j, v)) ->
  (forall w v', w ∈ ws -> target w = Some (Z.of_nat j, v') -> v' = v) ->
  foldl (write_step target) out ws !! j = Some v.
Proof.
  intros Hj. induction ws as [|w ws IH] using rev_ind; intros (w0 & Hw0 & Ht0) Hsame.
  { by inversion Hw0. }
  rewrite foldl_app. cbn. unfold write_step at 1.
  destruct (target w) as [[i v']|] eqn:Ht.
  - destruct (decide (i = Z.of_nat j)) as [->|Hne].
    + rewrite write_at_lookup_eq by (by rewrite write_loop_length).
      f_equal. apply (Hsame w); [|done]. apply elem_of_app. right. by left.
    + rewrite write_at_lookup_ne by done. apply IH.
      * exists w0. split; [|done].
        apply elem_of_app in Hw0 as [?|Hw0]; [done|].
        apply list_elem_of_singleton in Hw0. subst w0. congruence.
      * intros w1 v1 Hw1. apply Hsame, elem_of_app. by left.
  - apply IH.
    + exists w0. split; [|done].
      apply elem_of_app in Hw0 as [?|Hw0]; [done|].
      apply list_elem_of_singleton in Hw0. subst w0. congruence.
    + intros w1 v1 Hw1. apply Hsame, elem_of_app. by left.
Qed.

End Writes.

Section Maxes.
Context {B : Type}.
Variable bid : B -> option Z.

Lemma max_loop_ge ws acc : acc <= foldl (max_step bid) acc ws.
Proof.
  revert acc. induction ws as [|w ws IH]; intros acc; cbn; [lia|].
  etrans; [|apply IH]. unfold max_step. destruct (bid w); lia.
Qed.

Lemma max_loop_bid ws acc w h :
  w ∈ ws -> bid w = Some h -> h <= foldl (max_step bid) acc ws.
Proof.
  revert acc. induction ws as [|w' ws IH]; intros acc Hw Hb; [by inversion Hw|].
  cbn. apply elem_of_cons in Hw as [->|Hw].
  - etrans; [|apply max_loop_ge]. unfold max_step. rewrite Hb. lia.
  - by apply IH.
Qed.

Lemma max_loop_le ws acc bound :
  acc <= bound -> (forall w h, w ∈ ws -> bid w = Some h -> h <= bound) ->
  foldl (max_step bid) acc ws <= bound.
Proof.
  revert acc. induction ws as [|w ws IH]; intros acc Hacc Hall; cbn; [done|].
  apply IH.
  - unfold max_step. destruct (bid w) as [h|] eqn:Hb; [|done].
    specialize (Hall w h ltac:(left) Hb). lia.
  - intros w' h' Hw'. apply Hall. by right.
Qed.

End Maxes.


(** ** The combined kernel *)

Lemma combined_write_split num_vals d_in ws d_out inds_out output_index :
  foldl (combined_write num_vals d_in) (d_out, inds_out, output_index) ws
  = (foldl (write_step (d_target num_vals d_in)) d_out ws,
     foldl (write_step (inds_target num_vals)) inds_out ws,
     foldl (max_step (max_bid num_vals)) output_index ws).
Proof.
  revert d_out inds_out output_index.
  induction ws as [|[s [ind [flag head]]] ws IH]; intros d_out inds_out output_index;
    [done|].
  cbn [foldl]. rewrite <- IH. f_equal.
  unfold combined_write, write_step, max_step, d_target, inds_target, max_bid.
  destruct (s <? num_vals)%nat; cbn; [|done].
  destruct (flag =? 1); cbn; [|done].
  by destruct (d_in !! Z.to_nat ind).
Qed.

Lemma StronglySorted_lookup {A} (R : A -> A -> Prop) l s t a b :
  StronglySorted R l -> (s < t)%nat -> l !! s = Some a -> l !! t = Some b -> R a b.
Proof.
  intros Hs. revert s t. induction Hs as [|x l Hs IH Hall]; intros s t Hst Ha Hb; [done|].
  destruct t as [|t]; [lia|]. destruct s as [|s]; cbn in *.
  - simplify_eq. rewrite Forall_forall in Hall. eapply Hall, list_elem_of_lookup_2, Hb.
  - eapply (IH s t); [lia|done..].
Qed.

Section Combined.
Variable index_hash : Index3D -> Z.
Variables BLOCK_THREADS ITEMS_PER_THREAD : nat.
Variable d_in : list Vector3f.

Local Abbreviation cap := (BLOCK_THREADS * ITEMS_PER_THREAD)%nat.
Local Abbreviation key := (vertex_key index_hash).
Local Abbreviation n := (length d_in).
Local Abbreviation real := (take cap d_in).
Local Abbreviation m := (length real).
Local Abbreviation keys := (key <$> real).
Local Abbreviation pad := (replicate (cap - m) (SIZE_MAX, -1)).
Local Abbreviation R := (BlockRadixSort (keyed_inds index_hash real)).

Lemma vertex_key_bound v : 0 <= key v <= SIZE_MAX.
Proof.
  unfold vertex_key, SIZE_MAX.
  pose proof (Z.mod_pos_bound (index_hash (quantize v)) (2 ^ 64) ltac:(lia)). lia.
Qed.

Lemma m_min : m = (n `min` cap)%nat.
Proof. by rewrite length_take, Nat.min_comm. Qed.

Lemma load_inds_split :
  load_inds index_hash BLOCK_THREADS ITEMS_PER_THREAD n d_in (iota n)
  = keyed_inds index_hash real ++ pad.
Proof.
  pose proof m_min as Hm.
  apply list_eq. intros s. unfold load_inds, slots, keyed_inds.
  rewrite list_lookup_fmap.
  destruct (decide (s < cap)%nat) as [Hs|Hs].
  - rewrite lookup_seq_lt by done. cbn.
    destruct (Nat.leb_spec n s) as [Hns|Hns].
    + rewrite lookup_app_r by (rewrite length_imap; lia).
      rewrite length_imap. symmetry. apply lookup_replicate_2. lia.
    + rewrite lookup_app_l by (rewrite length_imap; lia).
      rewrite list_lookup_imap, lookup_take_lt by lia.
      destruct (lookup_lt_is_Some_2 d_in s Hns) as [v Hv].
      rewrite Hv, iota_lookup by done. done.
  - rewrite lookup_seq_ge by lia. cbn. symmetry. apply lookup_ge_None_2.
    rewrite length_app, length_imap, length_replicate. lia.
Qed.

Lemma keyed_inds_keys : (keyed_inds index_hash real).*1 = keys.
Proof.
  apply list_eq. intros s. unfold keyed_inds.
  rewrite !list_lookup_fmap, list_lookup_imap. by destruct (real !! s).
Qed.

Lemma keyed_inds_elem k ind :
  (k, ind) ∈ keyed_inds index_hash real <->
  exists p v, real !! p = Some v /\ k = key v /\ ind = Z.of_nat p.
Proof.
  unfold keyed_inds. rewrite list_elem_of_lookup. split.
  - intros [s Hs]. rewrite list_lookup_imap in Hs.
    destruct (real !! s) as [v|] eqn:Hv; [|done]. cbn in Hs. simplify_eq. eauto.
  - intros (p & v & Hv & -> & ->). exists p. by rewrite list_lookup_imap, Hv.
Qed.

Lemma sorted_split :
  BlockRadixSort (load_inds index_hash BLOCK_THREADS ITEMS_PER_THREAD n d_in (iota n))
  = R ++ pad.
Proof.
  rewrite load_inds_split. apply BlockRadixSort_app_pad.
  apply Forall_forall. intros [k ind] (p & v & _ & -> & _)%keyed_inds_elem. cbn.
  apply vertex_key_bound.
Qed.

Lemma R_length : length R = m.
Proof. unfold keyed_inds. by rewrite BlockRadixSort_length, length_imap. Qed.

Lemma R_elem k ind :
  (k, ind) ∈ R <-> exists p v, real !! p = Some v /\ k = key v /\ ind = Z.of_nat p.
Proof. by rewrite BlockRadixSort_perm, keyed_inds_elem. Qed.

Lemma R_keys_perm : R.*1 ≡ₚ keys.
Proof. by rewrite BlockRadixSort_perm, keyed_inds_keys. Qed.

Lemma R_pair_sorted : StronglySorted pair_lt R.
Proof.
  apply BlockRadixSort_pair_sorted. unfold keyed_inds.
  generalize real as vs. intros vs.
  assert (Hgen : forall (f : nat -> nat),
            (forall a b, (a < b)%nat -> (f a < f b)%nat) ->
            StronglySorted (fun a b : Z * Z => a.2 < b.2)
              (imap (fun s v => (key v, Z.of_nat (f s))) vs)).
  { induction vs as [|v vs IH]; intros f Hf; [constructor|].
    cbn. constructor.
    - apply (IH (f ∘ S)). intros a b Hab. apply Hf. lia.
    - apply Forall_forall. intros [k i] [s Hs]%list_elem_of_lookup_1.
      rewrite list_lookup_imap in Hs. destruct (vs !! s); [|done].
      cbn in *. simplify_eq. cbn. specialize (Hf 0%nat (S s)). lia. }
  apply (Hgen id). auto.
Qed.



Local Abbreviation S := (R ++ pad).
Local Abbreviation F := (FlagHeads (S.*1)).
Local Abbreviation H := (InclusiveSum F).
Local Abbreviation W :=
  (zip (slots BLOCK_THREADS ITEMS_PER_THREAD) (zip (S.*2) (zip F H))).

Lemma S_length : length S = cap.
Proof.
  rewrite length_app, R_length, length_replicate.
  pose proof m_min. lia.
Qed.

Lemma S_keys_ascending : ascending (S.*1).
Proof.
  rewrite <- sorted_split. apply keys_sorted_ascending, BlockRadixSort_sorted.
Qed.

Lemma rank_S k : k <= SIZE_MAX -> rank (S.*1) k = rank keys k.
Proof.
  intros Hk. unfold rank. f_equal. apply set_eq. intros x.
  rewrite !elem_of_filter, !elem_of_list_to_set.
  rewrite fmap_app, elem_of_app, R_keys_perm.
  split; [|tauto]. intros [Hx [?|Hpad]]; [done|].
  apply list_elem_of_fmap in Hpad as ([k' i] & -> & Heq%elem_of_replicate_inv).
  inversion Heq; subst. cbn in Hx. lia.
Qed.

(** The items of the last loop: slot [s] holds the index, the flag and the
    scanned flag of the [s]-th sorted pair. *)
Lemma W_lookup s w :
  W !! s = Some w <->
  exists k ind flag,
    w = (s, (ind, (flag, 1 + Z.of_nat (rank (S.*1) k)))) /\
    S !! s = Some (k, ind) /\ F !! s = Some flag.
Proof.
  rewrite (InclusiveSum_FlagHeads (S.*1) S_keys_ascending).
  rewrite lookup_zip_with_Some. setoid_rewrite lookup_zip_with_Some.
  setoid_rewrite lookup_zip_with_Some.
  unfold slots. split.
  - intros (s' & rest & -> & Hs' & ind & rest' & -> & Hind & flag & head & -> & Hf & Hh).
    apply lookup_seq in Hs' as [-> _].
    rewrite list_lookup_fmap in Hind. rewrite !list_lookup_fmap in Hh.
    destruct (S !! s) as [[k ind']|] eqn:HS; [|done]. cbn in *. simplify_eq.
    eexists _, _, _. done.
  - intros (k & ind & flag & -> & HS & Hf).
    exists s, (ind, (flag, 1 + Z.of_nat (rank (S.*1) k))). split; [done|].
    split. { apply lookup_seq. split; [done|]. apply lookup_lt_Some in HS.
             by rewrite S_length in HS. }
    exists ind, (flag, 1 + Z.of_nat (rank (S.*1) k)). split; [done|].
    split. { by rewrite list_lookup_fmap, HS. }
    exists flag, (1 + Z.of_nat (rank (S.*1) k)). split; [done|]. split; [done|].
    by rewrite !list_lookup_fmap, HS.
Qed.

(** A slot below [num_vals] holds a pair of a vertex. *)
Lemma guarded_slot s k ind :
  S !! s = Some (k, ind) -> (s < n)%nat ->
  (s < m)%nat /\ R !! s = Some (k, ind) /\
  exists p v, real !! p = Some v /\ k = key v /\ ind = Z.of_nat p.
Proof.
  intros HS Hs. pose proof m_min as Hm.
  assert (s < cap)%nat by (apply lookup_lt_Some in HS; by rewrite S_length in HS).
  assert (Hsm : (s < m)%nat) by lia.
  rewrite lookup_app_l in HS by (by rewrite R_length).
  split; [done|]. split; [done|].
  apply R_elem. eapply list_elem_of_lookup_2, HS.
Qed.

Lemma real_lookup_d_in p v : real !! p = Some v -> d_in !! p = Some v.
Proof. intros H. by apply lookup_take_Some in H as [? _]. Qed.

(** The flagged pair of a key carries the first position of that key. *)
Lemma flagged_first s p v :
  S !! s = Some (key v, Z.of_nat p) -> (s < n)%nat -> F !! s = Some 1 ->
  forall q v', real !! q = Some v' -> key v' = key v -> (p <= q)%nat.
Proof.
  intros HS Hs Hflag q v' Hq Hkey.
  destruct (guarded_slot s _ _ HS Hs) as (Hsm & HR & _).
  assert ((key v', Z.of_nat q) ∈ R) as [t Ht]%list_elem_of_lookup_1
    by (apply R_elem; eauto).
  assert (HSt : S !! t = Some (key v', Z.of_nat q))
    by (by apply lookup_app_l_Some).
  destruct (Nat.lt_trichotomy t s) as [Hlt|[->|Hgt]].
  - exfalso.
    assert (key v' < key v); [|lia].
    apply (FlagHeads_first (S.*1) s (key v) S_keys_ascending) with (t := t);
      [by rewrite list_lookup_fmap, HS|done|done|by rewrite list_lookup_fmap, HSt].
  - rewrite HR in Ht. simplify_eq. lia.
  - pose proof (StronglySorted_lookup pair_lt R s t _ _ R_pair_sorted Hgt HR Ht) as Hp.
    unfold pair_lt in Hp. cbn in Hp. lia.
Qed.

(** Every position is the index of one guarded slot. *)
Lemma index_slot p v :
  real !! p = Some v ->
  exists s flag, (s < n)%nat /\
    W !! s = Some (s, (Z.of_nat p, (flag, 1 + Z.of_nat (rank keys (key v))))).
Proof.
  intros Hp. pose proof m_min as Hm.
  assert ((key v, Z.of_nat p) ∈ R) as [s Hs]%list_elem_of_lookup_1
    by (apply R_elem; eauto).
  assert (Hsm : (s < m)%nat) by (apply lookup_lt_Some in Hs; by rewrite R_length in Hs).
  assert (HS : S !! s = Some (key v, Z.of_nat p)) by (by apply lookup_app_l_Some).
  destruct (lookup_lt_is_Some_2 F s) as [flag Hf].
  { rewrite FlagHeads_length, length_fmap, S_length. lia. }
  exists s, flag. split; [lia|].
  apply W_lookup. exists (key v), (Z.of_nat p), flag.
  rewrite rank_S by apply vertex_key_bound. done.
Qed.

(** Every key has one guarded slot that is flagged. *)
Lemma flagged_slot v0 p0 :
  real !! p0 = Some v0 ->
  exists s p v, (s < n)%nat /\ real !! p = Some v /\ key v = key v0 /\
    S !! s = Some (key v, Z.of_nat p) /\ F !! s = Some 1.
Proof.
  intros Hp0. pose proof m_min as Hm.
  assert ((key v0, Z.of_nat p0) ∈ R) as [t Ht]%list_elem_of_lookup_1
    by (apply R_elem; eauto).
  assert (Htm : (t < m)%nat) by (apply lookup_lt_Some in Ht; by rewrite R_length in Ht).
  assert (HSt : S !! t = Some (key v0, Z.of_nat p0)) by (by apply lookup_app_l_Some).
  destruct (FlagHeads_exists (S.*1) (key v0)) as (s & Hs & Hflag & Hfirst).
  { apply list_elem_of_lookup. exists t. by rewrite list_lookup_fmap, HSt. }
  assert (Hst : (s <= t)%nat).
  { destruct (decide (s <= t)%nat); [done|]. exfalso.
    apply (Hfirst t); [lia|]. by rewrite list_lookup_fmap, HSt. }
  rewrite list_lookup_fmap in Hs.
  destruct (S !! s) as [[k ind]|] eqn:HS; [|done]. cbn in Hs. simplify_eq.
  destruct (guarded_slot s _ _ HS ltac:(lia)) as (_ & _ & p & v & Hp & Hk & ->).
  exists s, p, v. repeat split; try done; try lia. by rewrite <- Hk.
Qed.



(** The flagged pair of a key carries the first vertex with that key. *)
Lemma flagged_value s k ind :
  S !! s = Some (k, ind) -> (s < n)%nat -> F !! s = Some 1 ->
  exists p v, ind = Z.of_nat p /\ k = key v /\
    list_find (fun v' => key v' = k) real = Some (p, v).
Proof.
  intros HS Hs Hflag.
  destruct (guarded_slot s _ _ HS Hs) as (_ & _ & p & v & Hp & -> & ->).
  exists p, v. split; [done|]. split; [done|].
  apply list_find_Some. split; [done|]. split; [done|].
  intros q v' Hq Hqp Hkey.
  pose proof (flagged_first s p v HS Hs Hflag q v' Hq Hkey). lia.
Qed.

Lemma W_elem w :
  w ∈ W ->
  exists s k ind flag,
    w = (s, (ind, (flag, 1 + Z.of_nat (rank (S.*1) k)))) /\
    S !! s = Some (k, ind) /\ F !! s = Some flag.
Proof.
  intros [s Hs]%list_elem_of_lookup_1. apply W_lookup in Hs as (k & ind & flag & ?).
  by exists s, k, ind, flag.
Qed.

Lemma key_elem p v : real !! p = Some v -> key v ∈ keys.
Proof. intros Hp. apply list_elem_of_fmap. exists v. split; [done|]. by eapply list_elem_of_lookup_2. Qed.

Lemma inds_target_Some w i x :
  w ∈ W -> inds_target n w = Some (i, x) ->
  exists p v, real !! p = Some v /\ i = Z.of_nat p /\ x = Z.of_nat (rank keys (key v)).
Proof.
  intros (s & k & ind & flag & -> & HS & Hf)%W_elem. unfold inds_target.
  destruct (Nat.ltb_spec s n) as [Hs|]; [|done]. intros [= -> <-].
  destruct (guarded_slot s _ _ HS Hs) as (_ & _ & p & v & Hp & -> & ->).
  exists p, v. rewrite rank_S by apply vertex_key_bound. split; [done|]. split; [done|]. lia.
Qed.

Lemma d_target_Some w i x :
  w ∈ W -> d_target n d_in w = Some (i, x) ->
  exists p, i = Z.of_nat (rank keys (key x)) /\
    list_find (fun v' => key v' = key x) real = Some (p, x).
Proof.
  intros (s & k & ind & flag & -> & HS & Hf)%W_elem. unfold d_target.
  destruct (Nat.ltb_spec s n) as [Hs|]; [|done].
  destruct (Z.eqb_spec flag 1) as [->|]; [|done]. cbn [andb].
  destruct (flagged_value s k ind HS Hs Hf) as (p & v & -> & -> & Hfind).
  rewrite Nat2Z.id.
  pose proof Hfind as (Hp & _ & _)%list_find_Some.
  rewrite (real_lookup_d_in p v Hp). cbn. intros [= <- <-].
  exists p. rewrite rank_S by apply vertex_key_bound. split; [lia|done].
Qed.

Lemma max_bid_Some w h :
  w ∈ W -> max_bid n w = Some h ->
  exists v, v ∈ real /\ h = 1 + Z.of_nat (rank keys (key v)).
Proof.
  intros (s & k & ind & flag & -> & HS & Hf)%W_elem. unfold max_bid.
  destruct (Nat.ltb_spec s n) as [Hs|]; [|done].
  destruct (Z.eqb_spec flag 1) as [->|]; [|done]. cbn [andb]. intros [= <-].
  destruct (guarded_slot s _ _ HS Hs) as (_ & _ & p & v & Hp & -> & ->).
  exists v. rewrite rank_S by apply vertex_key_bound.
  split; [by eapply list_elem_of_lookup_2|done].
Qed.

(** The slot that is flagged for the key of a vertex. *)
Lemma flagged_item p v :
  real !! p = Some v ->
  exists w q v0, w ∈ W /\
    list_find (fun v' => key v' = key v) real = Some (q, v0) /\
    d_target n d_in w = Some (Z.of_nat (rank keys (key v)), v0) /\
    max_bid n w = Some (1 + Z.of_nat (rank keys (key v))).
Proof.
  intros Hp.
  destruct (flagged_slot v p Hp) as (s & p1 & v1 & Hs & Hp1 & Hk & HS & Hflag).
  destruct (flagged_value s _ _ HS Hs Hflag) as (q & v0 & Hq & Hk0 & Hfind).
  apply Nat2Z.inj in Hq. subst q.
  pose proof Hfind as (Hq' & _ & _)%list_find_Some. rewrite Hp1 in Hq'. simplify_eq.
  exists (s, (Z.of_nat p1, (1, 1 + Z.of_nat (rank (S.*1) (key v0))))), p1, v0.
  split. { eapply list_elem_of_lookup_2. apply W_lookup. by eexists _, _, _. }
  rewrite <- Hk. split; [done|].
  rewrite rank_S by apply vertex_key_bound. unfold d_target, max_bid.
  destruct (Nat.ltb_spec s n); [|lia]. cbn [andb Z.eqb Pos.eqb].
  rewrite Nat2Z.id, (real_lookup_d_in p1 v0 Hp1). cbn [fmap option_fmap option_map].
  split; [|done]. do 2 f_equal. lia.
Qed.

(** What [combinedSingleBlockKernel] leaves in [d_out], [inds_out] and
    [*num_out], for an input index array holding 0, 1, ..., n-1: only the
    vertices that get a slot take part. *)
Lemma combinedSingleBlockKernel_spec d_out inds_out :
  let res := combinedSingleBlockKernel index_hash BLOCK_THREADS ITEMS_PER_THREAD
               n d_in (iota n) d_out inds_out in
  res.2 = Z.of_nat (distinct_keys keys) /\
  length res.1.1 = length d_out /\
  length res.1.2 = length inds_out /\
  (forall p v, real !! p = Some v -> (p < length inds_out)%nat ->
     res.1.2 !! p = Some (Z.of_nat (rank keys (key v)))) /\
  (forall p, (m <= p)%nat -> res.1.2 !! p = inds_out !! p) /\
  (forall p v q v0,
     real !! p = Some v ->
     list_find (fun v' => key v' = key v) real = Some (q, v0) ->
     (rank keys (key v) < length d_out)%nat ->
     res.1.1 !! rank keys (key v) = Some v0) /\
  (forall r, (distinct_keys keys <= r)%nat -> res.1.1 !! r = d_out !! r).
Proof.
  unfold combinedSingleBlockKernel. rewrite sorted_split, combined_write_split. cbn.
  split; [|split; [apply write_loop_length|split; [apply write_loop_length|]]].
  { (* the count *)
    apply Z.le_antisymm.
    - apply max_loop_le; [lia|].
      intros w h Hw (v & Hv & ->)%max_bid_Some; [|done].
      assert (rank keys (key v) < distinct_keys keys)%nat; [|lia].
      apply rank_lt, list_elem_of_fmap. eauto.
    - destruct (decide (m = 0)%nat) as [Hm|Hm].
      + assert (Hnil : real = []) by (by apply length_zero_iff_nil).
        rewrite Hnil. cbn. apply max_loop_ge.
      + (* the largest key is the last one of the sorted pairs *)
        destruct (lookup_lt_is_Some_2 R (m - 1)) as [[k ind] Hlast].
        { rewrite R_length. lia. }
        assert ((k, ind) ∈ R) as (p & v & Hp & -> & ->)%R_elem
          by (eapply list_elem_of_lookup_2, Hlast).
        destruct (flagged_item p v Hp) as (w & q & v0 & Hw & _ & _ & Hbid).
        etrans; [|eapply max_loop_bid; [exact Hw|exact Hbid]].
        assert (Datatypes.S (rank keys (key v)) = distinct_keys keys); [|lia].
        apply rank_max; [by eapply key_elem|].
        intros x Hx. rewrite <- R_keys_perm in Hx.
        apply list_elem_of_lookup_1 in Hx as [t Ht].
        assert (t < m)%nat.
        { apply lookup_lt_Some in Ht. by rewrite length_fmap, R_length in Ht. }
        assert (Hasc : ascending (R.*1))
          by apply keys_sorted_ascending, BlockRadixSort_sorted.
        apply (ascending_lookup (R.*1) t (m - 1) x (key v) Hasc); [lia|done|].
        by rewrite list_lookup_fmap, Hlast. }
  split.
  { intros p v Hp Hlen.
    destruct (index_slot p v Hp) as (s & flag & Hs & HW).
    apply write_loop_hit; [done| |].
    - eexists. split; [eapply list_elem_of_lookup_2, HW|]. unfold inds_target.
      destruct (Nat.ltb_spec s n); [|lia]. do 2 f_equal. lia.
    - intros w x Hw (p' & v' & Hp' & Heq & ->)%inds_target_Some; [|done].
      apply Nat2Z.inj in Heq. subst p'. by simplify_eq. }
  split.
  { intros p Hp. apply write_loop_miss.
    intros w x Hw (p' & v' & Hp' & Heq & _)%inds_target_Some; [|done].
    apply Nat2Z.inj in Heq. subst p'. apply lookup_lt_Some in Hp'. lia. }
  split.
  { intros p v q v0 Hp Hfind Hlen.
    destruct (flagged_item p v Hp) as (w & q' & v0' & Hw & Hfind' & Ht & _).
    rewrite Hfind in Hfind'. simplify_eq.
    apply write_loop_hit; [done|by eauto|].
    intros w' x Hw' (p' & Hrank & Hfind')%d_target_Some; [|done].
    apply Nat2Z.inj in Hrank.
    pose proof Hfind' as (Hp' & _ & _)%list_find_Some.
    assert (key x = key v) as Hk.
    { apply (rank_inj keys); [by eapply key_elem..|done]. }
    rewrite Hk, Hfind in Hfind'. by simplify_eq. }
  intros r Hr. apply write_loop_miss.
  intros w x Hw (p' & Hrank & Hfind')%d_target_Some; [|done].
  apply Nat2Z.inj in Hrank.
  pose proof Hfind' as (Hp' & _ & _)%list_find_Some.
  pose proof (rank_lt keys (key x) (key_elem _ _ Hp')). lia.
Qed.

(** In the sorted pairs, the run of a key starts with the first position of
    that key in the input. *)
Lemma first_of_run p v q v0 :
  real !! p = Some v ->
  list_find (fun v' => key v' = key v) real = Some (q, v0) ->
  exists s, list_find (fun kv : Z * Z => kv.1 = key v) R
            = Some (s, (key v, Z.of_nat q)).
Proof.
  intros Hp Hfind.
  destruct (flagged_slot v p Hp) as (s & p1 & v1 & Hs & Hp1 & Hk & HS & Hflag).
  destruct (flagged_value s _ _ HS Hs Hflag) as (q' & v0' & Hq & _ & Hfind').
  apply Nat2Z.inj in Hq. subst q'. rewrite Hk, Hfind in Hfind'. simplify_eq.
  destruct (guarded_slot s _ _ HS Hs) as (_ & HR & _).
  exists s. apply list_find_Some. rewrite Hk in HR. split; [done|]. split; [done|].
  intros t [k' ind'] Ht Hts Hkey. cbn in Hkey. subst k'.
  assert (key v < key v1); [|lia].
  apply (FlagHeads_first (S.*1) s (key v1) S_keys_ascending) with (t := t);
    [by rewrite list_lookup_fmap, HS|done|done|].
  rewrite list_lookup_fmap, lookup_app_l by (apply lookup_lt_Some in Ht; done).
  by rewrite Ht.
Qed.

End Combined.


Lemma distinct_keys_le keys : (distinct_keys keys <= length keys)%nat.
Proof.
  unfold distinct_keys. induction keys as [|k keys IH]; cbn.
  - by rewrite size_empty.
  - rewrite size_union_alt, size_singleton.
    assert (size ((list_to_set keys : gset Z) ∖ {[k]}) <= size (list_to_set keys : gset Z))%nat
      by (apply subseteq_size; set_solver).
    lia.
Qed.

(** * The fixed-capacity paths *)

(** C7.  The combined path on [n] vertices, [n] within the capacity, with the
    index array [0, ..., n-1]: the count of output vertices is the number of
    distinct keys; for every position [p], duplicates included, the output
    index at [p] is the compacted position of the run of its key, the same as
    at the position [q] that starts that run in the sorted order, which is the
    first position of the key in the input; and the output vertex in that
    compacted slot is the input vertex at [q]. *)
Theorem combined_remap (index_hash : Index3D -> Z)
    (input_vertices output_vertices : list Vector3f) (output_indices : list Z) :
  (length input_vertices <= kNumThreads * kNumItemsPerThread)%nat ->
  (length input_vertices <= length output_vertices)%nat ->
  (length input_vertices <= length output_indices)%nat ->
  let keys := vertex_key index_hash <$> input_vertices in
  let res := combinedSingleBlockCubAsync index_hash input_vertices
               (iota (length input_vertices)) output_vertices output_indices in
  length res.1.2 = distinct_keys keys /\
  forall p v,
    input_vertices !! p = Some v ->
    exists q v0 s,
      list_find (fun v' => vertex_key index_hash v' = vertex_key index_hash v)
        input_vertices = Some (q, v0) /\
      list_find (fun kv : Z * Z => kv.1 = vertex_key index_hash v)
        (BlockRadixSort (keyed_inds index_hash input_vertices))
      = Some (s, (vertex_key index_hash v, Z.of_nat q)) /\
      res.2 !! p = Some (Z.of_nat (rank keys (vertex_key index_hash v))) /\
      res.2 !! q = Some (Z.of_nat (rank keys (vertex_key index_hash v))) /\
      res.1.2 !! rank keys (vertex_key index_hash v) = Some v0.
Proof.
  intros Hcap Hout Hind keys res. subst res. unfold combinedSingleBlockCubAsync.
  pose proof (combinedSingleBlockKernel_spec index_hash kNumThreads kNumItemsPerThread
                input_vertices output_vertices output_indices) as Hspec.
  rewrite (take_ge input_vertices) in Hspec by done.
  destruct (combinedSingleBlockKernel _ _ _ _ _ _ _ _) as [[d_out inds_out] num_out].
  cbn in Hspec. destruct Hspec as (-> & Hld & Hli & Hinds & _ & Hd & _).
  cbn [fst snd]. rewrite Nat2Z.id. fold keys in Hinds, Hd |- *.
  split; [apply length_resize|].
  intros p v Hp.
  destruct (list_find (fun v' => vertex_key index_hash v' = vertex_key index_hash v)
              input_vertices) as [[q v0]|] eqn:Hfind.
  2: { apply list_find_None in Hfind. rewrite Forall_forall in Hfind.
       exfalso. apply (Hfind v); [by eapply list_elem_of_lookup_2|done]. }
  pose proof Hfind as (Hq & Hk0 & _)%list_find_Some.
  assert (Hrank : (rank keys (vertex_key index_hash v) < distinct_keys keys)%nat).
  { apply rank_lt, list_elem_of_fmap. exists v. split; [done|].
    by eapply list_elem_of_lookup_2. }
  pose proof (distinct_keys_le keys) as Hdl. unfold keys in Hdl at 2.
  rewrite length_fmap in Hdl.
  destruct (first_of_run index_hash kNumThreads kNumItemsPerThread input_vertices
              p v q v0) as [s Hs]; [by rewrite take_ge| by rewrite take_ge|].
  rewrite (take_ge input_vertices) in Hs by done.
  exists q, v0, s. split; [done|]. split; [done|]. split; [|split].
  - apply Hinds; [done|]. apply lookup_lt_Some in Hp. lia.
  - rewrite <- Hk0. apply Hinds; [done|]. apply lookup_lt_Some in Hq. lia.
  - rewrite lookup_resize by lia. eapply Hd; [done..|lia].
Qed.


(** ** The sort kernel *)

Section SortKernel.
Variable index_hash : Index3D -> Z.
Variables BLOCK_THREADS ITEMS_PER_THREAD : nat.
Variable d_in : list Vector3f.

Local Abbreviation cap := (BLOCK_THREADS * ITEMS_PER_THREAD)%nat.
Local Abbreviation key := (vertex_key index_hash).
Local Abbreviation n := (length d_in).
Local Abbreviation real := (take cap d_in).
Local Abbreviation m := (length real).
Local Abbreviation pad := (replicate (cap - m) (SIZE_MAX, Vector3f_Zero)).
Local Abbreviation Rv := (BlockRadixSort (keyed_values index_hash real)).

Lemma load_values_split :
  load_values index_hash BLOCK_THREADS ITEMS_PER_THREAD n d_in
  = keyed_values index_hash real ++ pad.
Proof.
  pose proof (m_min BLOCK_THREADS ITEMS_PER_THREAD d_in) as Hm.
  apply list_eq. intros s. unfold load_values, slots, keyed_values.
  rewrite list_lookup_fmap.
  destruct (decide (s < cap)%nat) as [Hs|Hs].
  - rewrite lookup_seq_lt by done. cbn.
    destruct (Nat.leb_spec n s) as [Hns|Hns].
    + rewrite lookup_app_r by (rewrite length_fmap; lia).
      rewrite length_fmap. symmetry. apply lookup_replicate_2. lia.
    + rewrite lookup_app_l by (rewrite length_fmap; lia).
      rewrite list_lookup_fmap, lookup_take_lt by lia.
      destruct (lookup_lt_is_Some_2 d_in s Hns) as [v Hv].
      by rewrite Hv.
  - rewrite lookup_seq_ge by lia. cbn. symmetry. apply lookup_ge_None_2.
    rewrite length_app, length_fmap, length_replicate. lia.
Qed.

Lemma sorted_values_split :
  BlockRadixSort (load_values index_hash BLOCK_THREADS ITEMS_PER_THREAD n d_in)
  = Rv ++ pad.
Proof.
  rewrite load_values_split. apply BlockRadixSort_app_pad.
  apply Forall_forall. intros [k v] (v' & [= -> ->] & _)%list_elem_of_fmap. cbn.
  apply vertex_key_bound.
Qed.

Lemma Rv_length : length Rv = m.
Proof. unfold keyed_values. by rewrite BlockRadixSort_length, length_fmap. Qed.

Lemma blockSortKernel_fold d_out :
  blockSortKernel index_hash BLOCK_THREADS ITEMS_PER_THREAD n d_in d_out
  = foldl (write_step (sort_target n)) d_out
      (zip (slots BLOCK_THREADS ITEMS_PER_THREAD) (Rv ++ pad)).
Proof.
  unfold blockSortKernel. rewrite sorted_values_split.
  generalize (zip (slots BLOCK_THREADS ITEMS_PER_THREAD) (Rv ++ pad)) as ws.
  intros ws. revert d_out.
  induction ws as [|[s [k v]] ws IH]; intros d_out; [done|].
  cbn [foldl]. rewrite <- IH. f_equal.
  unfold write_step, sort_target. destruct (s <? n)%nat; [|done].
  unfold write_at. destruct (Z.leb_spec 0 (Z.of_nat s)); [|lia].
  by rewrite Nat2Z.id.
Qed.

(** [blockSortKernel] puts the vertices that get a slot, sorted, at the head
    of [d_out], and leaves the rest of [d_out] alone. *)
Lemma blockSortKernel_spec d_out :
  (m <= length d_out)%nat ->
  blockSortKernel index_hash BLOCK_THREADS ITEMS_PER_THREAD n d_in d_out
  = sorted_values index_hash real ++ drop m d_out.
Proof.
  intros Hlen. pose proof (m_min BLOCK_THREADS ITEMS_PER_THREAD d_in) as Hm.
  rewrite blockSortKernel_fold. apply list_eq. intros j.
  assert (Hw : forall w, w ∈ zip (slots BLOCK_THREADS ITEMS_PER_THREAD) (Rv ++ pad) ->
            exists s kv, w = (s, kv) /\ (s < cap)%nat /\ (Rv ++ pad) !! s = Some kv).
  { intros w [s Hs]%list_elem_of_lookup_1.
    apply lookup_zip_with_Some in Hs as (s' & kv & -> & Hs' & Hkv).
    unfold slots in Hs'. apply lookup_seq in Hs' as [-> ?]. eauto. }
  destruct (decide (j < m)%nat) as [Hj|Hj].
  - rewrite lookup_app_l by (unfold sorted_values; rewrite length_fmap, Rv_length; lia).
    destruct (lookup_lt_is_Some_2 Rv j) as [[k v] Hkv]; [by rewrite Rv_length|].
    unfold sorted_values. rewrite list_lookup_fmap, Hkv. cbn.
    apply write_loop_hit; [lia| |].
    + exists (j, (k, v)). split.
      * eapply list_elem_of_lookup_2. apply lookup_zip_with_Some.
        exists j, (k, v). split; [done|]. split.
        -- unfold slots. apply lookup_seq. split; [done|lia].
        -- by apply lookup_app_l_Some.
      * unfold sort_target. destruct (Nat.ltb_spec j n); [done|lia].
    + intros w v' (s & [k' v''] & -> & Hs & Hkv')%Hw. unfold sort_target.
      destruct (s <? n)%nat; [|done]. intros [= Heq <-].
      apply Nat2Z.inj in Heq. subst s.
      rewrite lookup_app_l in Hkv' by (by rewrite Rv_length). by simplify_eq.
  - rewrite lookup_app_r by (unfold sorted_values; rewrite length_fmap, Rv_length; lia).
    unfold sorted_values. rewrite length_fmap, Rv_length, lookup_drop.
    replace (m + (j - m))%nat with j by lia.
    apply write_loop_miss.
    intros w v' (s & [k' v''] & -> & Hs & Hkv')%Hw. unfold sort_target.
    destruct (Nat.ltb_spec s n); [|done]. intros [= Heq <-].
    apply Nat2Z.inj in Heq. lia.
Qed.

Lemma sorted_values_perm vs : sorted_values index_hash vs ≡ₚ vs.
Proof.
  unfold sorted_values, keyed_values. rewrite BlockRadixSort_perm.
  rewrite <- list_fmap_compose. by rewrite list_fmap_id.
Qed.

Lemma sorted_values_ascending vs : ascending (key <$> sorted_values index_hash vs).
Proof.
  unfold sorted_values.
  assert (Heq : key <$> (BlockRadixSort (keyed_values index_hash vs)).*2
                = (BlockRadixSort (keyed_values index_hash vs)).*1).
  { rewrite <- list_fmap_compose. apply list_fmap_ext.
    intros i [k v] Hkv. cbn.
    assert ((k, v) ∈ keyed_values index_hash vs) as Hin.
    { rewrite <- (BlockRadixSort_perm (keyed_values index_hash vs)).
      by eapply list_elem_of_lookup_2. }
    unfold keyed_values in Hin. by apply list_elem_of_fmap in Hin as (v' & [= -> ->] & _). }
  rewrite Heq. apply keys_sorted_ascending, BlockRadixSort_sorted.
Qed.

End SortKernel.


(** C3, as the code has it.  With an input of at least 128 * 16 = 2048
    vertices (so for 2048 and for 2049) both paths log the error, and work on
    the first 2048 vertices: the sort path puts them, sorted by key, at the
    head of the output and leaves the rest of the output alone; the combined
    path welds them and leaves the output indices past them alone.  With 2048
    vertices these are all of them, with 2049 all but the last one. *)
Theorem capacity_boundary (index_hash : Index3D -> Z)
    (input_vertices output_vertices : list Vector3f) (output_indices : list Z) :
  (kNumThreads * kNumItemsPerThread <= length input_vertices)%nat ->
  length output_vertices = length input_vertices ->
  length output_indices = length input_vertices ->
  let capacity := (kNumThreads * kNumItemsPerThread)%nat in
  let first := take capacity input_vertices in
  let keys := vertex_key index_hash <$> first in
  let sorted := sortSingleBlockCubAsync index_hash input_vertices output_vertices in
  let welded := combinedSingleBlockCubAsync index_hash input_vertices
                  (iota (length input_vertices)) output_vertices output_indices in
  (length input_vertices = capacity -> first = input_vertices) /\
  (length input_vertices = S capacity -> exists v, input_vertices = first ++ [v]) /\
  sorted.1 = true /\
  sorted.2 = sorted_values index_hash first ++ drop capacity output_vertices /\
  sorted_values index_hash first ≡ₚ first /\
  ascending (vertex_key index_hash <$> sorted_values index_hash first) /\
  welded.1.1 = true /\
  length welded.1.2 = distinct_keys keys /\
  drop capacity welded.2 = drop capacity output_indices /\
  forall p v,
    first !! p = Some v ->
    welded.2 !! p = Some (Z.of_nat (rank keys (vertex_key index_hash v))) /\
    exists q v0,
      list_find (fun v' => vertex_key index_hash v' = vertex_key index_hash v) first
      = Some (q, v0) /\
      welded.1.2 !! rank keys (vertex_key index_hash v) = Some v0.
Proof.
  intros Hcap Hout Hind capacity first keys sorted welded.
  fold capacity in Hcap.
  assert (Hm : length first = capacity) by (subst first; rewrite length_take; lia).
  assert (Hlong : too_long input_vertices = true).
  { unfold too_long. fold capacity. by apply Nat.leb_le. }
  split. { intros Hlen. subst first. apply take_ge. lia. }
  split.
  { intros Hlen. subst first.
    destruct (lookup_lt_is_Some_2 input_vertices capacity) as [v Hv]; [lia|].
    exists v. rewrite <- (take_drop capacity input_vertices) at 1. f_equal.
    apply list_eq. intros [|i]; rewrite lookup_drop.
    - by rewrite Nat.add_0_r.
    - rewrite lookup_ge_None_2 by lia. done. }
  split; [exact Hlong|].
  split.
  { subst sorted. unfold sortSingleBlockCubAsync. cbn [snd].
    pose proof (blockSortKernel_spec index_hash kNumThreads kNumItemsPerThread
                  input_vertices output_vertices) as Hs.
    fold capacity in Hs. fold first in Hs. rewrite Hm in Hs. apply Hs. lia. }
  split; [apply sorted_values_perm|].
  split; [apply sorted_values_ascending|].
  subst welded. unfold combinedSingleBlockCubAsync.
  pose proof (combinedSingleBlockKernel_spec index_hash kNumThreads kNumItemsPerThread
                input_vertices output_vertices output_indices) as Hspec.
  fold capacity in Hspec. fold first in Hspec. fold keys in Hspec.
  destruct (combinedSingleBlockKernel _ _ _ _ _ _ _ _) as [[d_out inds_out] num_out].
  cbv zeta in Hspec. cbn [fst snd] in Hspec. destruct Hspec as (-> & Hld & Hli & Hinds & Hrest & Hd & _).
  cbn [fst snd]. rewrite Nat2Z.id.
  split; [exact Hlong|]. split; [apply length_resize|].
  split.
  { apply list_eq. intros i. rewrite !lookup_drop. apply Hrest. lia. }
  intros p v Hp.
  assert (Hpc : (p < capacity)%nat) by (apply lookup_lt_Some in Hp; lia).
  split. { apply Hinds; [done|lia]. }
  destruct (list_find (fun v' => vertex_key index_hash v' = vertex_key index_hash v)
              first) as [[q v0]|] eqn:Hfind.
  2: { apply list_find_None in Hfind. rewrite Forall_forall in Hfind.
       exfalso. apply (Hfind v); [by eapply list_elem_of_lookup_2|done]. }
  exists q, v0. split; [done|].
  assert (Hrank : (rank keys (vertex_key index_hash v) < distinct_keys keys)%nat).
  { apply rank_lt, list_elem_of_fmap. exists v. split; [done|].
    by eapply list_elem_of_lookup_2. }
  pose proof (distinct_keys_le keys) as Hdl. unfold keys in Hdl at 2.
  rewrite length_fmap in Hdl.
  rewrite lookup_resize by lia. eapply Hd; [done..|lia].
Qed.


(** ** The unique kernel on a pair *)

Lemma foldl_single {St} (step : St -> nat -> St) (x : nat) schedule st :
  NoDup schedule -> x ∈ schedule ->
  (forall s st', s <> x -> step st' s = st') ->
  foldl step st schedule = step st x.
Proof.
  intros Hnd Hx Hskip. revert st.
  induction schedule as [|s schedule IH]; intros st; [by inversion Hx|].
  apply NoDup_cons in Hnd as [Hs Hnd]. cbn.
  apply elem_of_cons in Hx as [->|Hx].
  - clear IH. generalize (step st s) as st'. intros st'.
    induction schedule as [|s' schedule IH]; [done|].
    apply not_elem_of_cons in Hs as [Hne Hs]. apply NoDup_cons in Hnd as [_ Hnd].
    cbn. rewrite Hskip by done. by apply IH.
  - rewrite Hskip by (intros ->; done). by apply IH.
Qed.

Lemma capacity_ge_2 : (2 <= kNumThreads * kNumItemsPerThread)%nat.
Proof. unfold kNumThreads, kNumItemsPerThread. lia. Qed.

Lemma blockUniqueKernel_pair (index_hash : Index3D -> Z) schedule v1 v2 d_out :
  vertex_key index_hash v1 = vertex_key index_hash v2 ->
  NoDup schedule -> 0%nat ∈ schedule ->
  blockUniqueKernel index_hash kNumThreads kNumItemsPerThread schedule
    2 [v1; v2] d_out
  = (write_at d_out 0 v1, 1).
Proof.
  intros Hkey Hnd H0. unfold blockUniqueKernel.
  pose proof (load_values_split index_hash kNumThreads kNumItemsPerThread [v1; v2])
    as Hload.
  rewrite (take_ge [v1; v2]) in Hload by apply capacity_ge_2.
  change (length [v1; v2]) with 2%nat in Hload. rewrite Hload.
  set (pad := replicate _ _).
  set (loaded := keyed_values index_hash [v1; v2] ++ pad).
  assert (Hl0 : loaded !! 0%nat = Some (vertex_key index_hash v1, v1)) by done.
  assert (Hl1 : loaded !! 1%nat = Some (vertex_key index_hash v2, v2)) by done.
  assert (Hf0 : FlagHeads (loaded.*1) !! 0%nat = Some 1).
  { eapply FlagHeads_lookup_0. by rewrite list_lookup_fmap, Hl0. }
  assert (Hf1 : FlagHeads (loaded.*1) !! 1%nat = Some 0).
  { rewrite (FlagHeads_lookup_S _ 0 (vertex_key index_hash v1) (vertex_key index_hash v2));
      [|by rewrite list_lookup_fmap, Hl0|by rewrite list_lookup_fmap, Hl1].
    by rewrite Hkey, Z.eqb_refl. }
  clearbody loaded. clear Hload pad.
  match goal with |- foldl ?f _ _ = _ => set (step := f) end.
  assert (Hskip : forall s st', s <> 0%nat -> step st' s = st').
  { intros s [out oi] Hs. subst step. cbv beta iota.
    destruct (loaded !! s) as [[k value]|] eqn:Hl; [|reflexivity].
    destruct (FlagHeads (loaded.*1) !! s) as [flag|] eqn:Hf; [|reflexivity].
    destruct s as [|[|s]].
    - by destruct Hs.
    - rewrite Hf1 in Hf. injection Hf as <-. reflexivity.
    - replace (S (S s) <? 2)%nat with false by (symmetry; apply Nat.ltb_ge; lia).
      reflexivity. }
  rewrite (foldl_single step 0%nat schedule _ Hnd H0 Hskip).
  subst step. cbv beta iota. rewrite Hl0, Hf0. reflexivity.
Qed.

(** C8.  Two vertices whose coordinates differ (2^-11 and 2^-12 in x) and whose
    quantized coordinates, hence keys, are the same whatever the hash: the
    unique-only path, under every order of its atomic additions, and the
    combined path give one output vertex for the pair, and the combined path
    maps both positions to it; the thrust based weld of a single block,
    whatever thrust does within its contract, gives back the two vertices. *)
Theorem near_miss_pair (index_hash : Index3D -> Z) :
  exists v1 v2 : Vector3f,
    valid_vector v1 = true /\ valid_vector v2 = true /\
    vec_eqb v1 v2 = false /\
    quantize v1 = quantize v2 /\
    vertex_key index_hash v1 = vertex_key index_hash v2 /\
    (forall schedule output_vertices,
       schedule ≡ₚ slots kNumThreads kNumItemsPerThread ->
       (2 <= length output_vertices)%nat ->
       uniqueSingleBlockCubAsync index_hash schedule [v1; v2] output_vertices
       = (false, [v1])) /\
    (forall output_vertices output_indices,
       length output_vertices = 2%nat -> length output_indices = 2%nat ->
       combinedSingleBlockCubAsync index_hash [v1; v2] (iota 2)
         output_vertices output_indices
       = (false, [v1], [0; 0])) /\
    (forall (T : Thrust) input_indices,
       thrust_contract T ->
       (weldSingleBlockThrustAsync [v1; v2] input_indices).1 ≡ₚ [v1; v2]).
Proof.
  set (v1 := mkVector3f (f32 1 (-11)) (S754_zero false) (S754_zero false)).
  set (v2 := mkVector3f (f32 1 (-12)) (S754_zero false) (S754_zero false)).
  exists v1, v2.
  assert (Hq : quantize v1 = quantize v2) by (by vm_compute).
  assert (Hkey : vertex_key index_hash v1 = vertex_key index_hash v2)
    by (unfold vertex_key; by rewrite Hq).
  split; [by vm_compute|]. split; [by vm_compute|].
  split; [by vm_compute|]. split; [done|]. split; [done|].
  split; [|split].
  - intros schedule out Hsched Hout.
    unfold uniqueSingleBlockCubAsync. change (length [v1; v2]) with 2%nat.
    rewrite blockUniqueKernel_pair; [|done| |].
    + destruct out as [|o out]; [cbn in Hout; lia|]. by destruct out.
    + rewrite Hsched. apply NoDup_seq.
    + rewrite Hsched. apply elem_of_seq. pose proof capacity_ge_2. lia.
  - intros out outi Hout Houti.
    unfold combinedSingleBlockCubAsync.
    pose proof (combinedSingleBlockKernel_spec index_hash kNumThreads kNumItemsPerThread
                  [v1; v2] out outi) as Hspec.
    rewrite (take_ge [v1; v2]) in Hspec by apply capacity_ge_2.
    change (length [v1; v2]) with 2%nat in *.
    destruct (combinedSingleBlockKernel _ _ _ _ _ _ _ _) as [[d_out inds_out] num_out].
    cbv zeta in Hspec. cbn [fst snd] in Hspec.
    destruct Hspec as (-> & Hld & Hli & Hinds & _ & Hd & _).
    assert (Hkeys : vertex_key index_hash <$> [v1; v2]
                    = [vertex_key index_hash v1; vertex_key index_hash v1])
      by (cbn; by rewrite Hkey).
    rewrite Hkeys in *.
    assert (Hrank : rank [vertex_key index_hash v1; vertex_key index_hash v1]
                      (vertex_key index_hash v1) = 0%nat)
      by (apply rank_min; intros x; rewrite !elem_of_cons, elem_of_nil; intros [->|[->|[]]]; lia).
    assert (Hdist : distinct_keys [vertex_key index_hash v1; vertex_key index_hash v1]
                    = 1%nat).
    { unfold distinct_keys. cbn.
      replace ({[vertex_key index_hash v1]} ∪ ({[vertex_key index_hash v1]} ∪ ∅) : gset Z)
        with ({[vertex_key index_hash v1]} : gset Z) by set_solver.
      apply size_singleton. }
    rewrite Hdist. change (Z.to_nat (Z.of_nat 1)) with 1%nat.
    pose proof (Hinds 0%nat v1 eq_refl ltac:(lia)) as Hi0.
    pose proof (Hinds 1%nat v2 eq_refl ltac:(lia)) as Hi1.
    rewrite <- Hkey, Hrank in Hi1. rewrite Hrank in Hi0.
    assert (Hd0 : d_out !! 0%nat = Some v1).
    { rewrite <- Hrank. apply (Hd 0%nat v1 0%nat v1); [done| |rewrite Hrank; lia].
      cbn. by rewrite decide_True. }
    f_equal; [f_equal|].
    + destruct d_out as [|d0 d_out]; [done|]. cbn in Hd0. simplify_eq.
      by destruct d_out.
    + destruct inds_out as [|i0 [|i1 [|i2 inds_out]]]; cbn in *; try lia.
      by simplify_eq.
  - intros T input_indices HT. cbn [weldSingleBlockThrustAsync fst].
    assert (Hnf : all_nan_free [v1; v2]) by (by repeat constructor).
    rewrite <- (thrust_sort_perm T HT [v1; v2] Hnf) at 2.
    apply submseteq_length_Permutation.
    + apply sublist_submseteq, thrust_unique_sublist.
    + rewrite (welded_length T HT [v1; v2] Hnf).
      rewrite (thrust_sort_perm T HT [v1; v2] Hnf). by vm_compute.
Qed.

(** ** Examples *)

(** C3 as it is worded fails at the capacity itself: with exactly 2048
    vertices both paths log the error. *)
Lemma error_logged_at_capacity :
  length full_input = 2048%nat /\
  (sortSingleBlockCubAsync example_hash full_input full_input).1 = true /\
  (combinedSingleBlockCubAsync example_hash full_input (iota (length full_input))
     full_input (iota (length full_input))).1.1 = true.
Proof.
  assert (Hlong : too_long full_input = true).
  { unfold too_long, full_input. rewrite length_replicate. apply Nat.leb_refl. }
  split; [by vm_compute|]. split; [exact Hlong|].
  unfold combinedSingleBlockCubAsync.
  destruct (combinedSingleBlockKernel _ _ _ _ _ _ _ _) as [[d_out inds_out] num_out].
  exact Hlong.
Qed.

Lemma over_full_input_length :
  length over_full_input = S (kNumThreads * kNumItemsPerThread).
Proof.
  unfold over_full_input, full_input.
  rewrite length_app, length_replicate. cbn [length]. lia.
Qed.

Lemma over_full_input_long :
  (kNumThreads * kNumItemsPerThread <= length over_full_input)%nat.
Proof. rewrite over_full_input_length. lia. Qed.

Lemma capacity_boundary_witness :
  let input_vertices := over_full_input in
  let output_vertices := over_full_input in
  let output_indices := iota (length over_full_input) in
  let capacity := (kNumThreads * kNumItemsPerThread)%nat in
  let first := take capacity input_vertices in
  let keys := vertex_key example_hash <$> first in
  let sorted := sortSingleBlockCubAsync example_hash input_vertices output_vertices in
  let welded := combinedSingleBlockCubAsync example_hash input_vertices
                  (iota (length input_vertices)) output_vertices output_indices in
  (length input_vertices = capacity -> first = input_vertices) /\
  (length input_vertices = S capacity -> exists v, input_vertices = first ++ [v]) /\
  sorted.1 = true /\
  sorted.2 = sorted_values example_hash first ++ drop capacity output_vertices /\
  sorted_values example_hash first ≡ₚ first /\
  ascending (vertex_key example_hash <$> sorted_values example_hash first) /\
  welded.1.1 = true /\
  length welded.1.2 = distinct_keys keys /\
  drop capacity welded.2 = drop capacity output_indices /\
  forall p v,
    first !! p = Some v ->
    welded.2 !! p = Some (Z.of_nat (rank keys (vertex_key example_hash v))) /\
    exists q v0,
      list_find (fun v' => vertex_key example_hash v' = vertex_key example_hash v) first
      = Some (q, v0) /\
      welded.1.2 !! rank keys (vertex_key example_hash v) = Some v0.
Proof.
  exact (capacity_boundary example_hash over_full_input over_full_input
           (iota (length over_full_input))
           over_full_input_long eq_refl (iota_length (length over_full_input))).
Defined.

Lemma combined_remap_witness :
  let input := vertices duplicate_block in
  let keys := vertex_key example_hash <$> input in
  let res := combinedSingleBlockCubAsync example_hash input (iota (length input))
               input (iota (length input)) in
  length res.1.2 = distinct_keys keys /\
  forall p v,
    input !! p = Some v ->
    exists q v0 s,
      list_find (fun v' => vertex_key example_hash v' = vertex_key example_hash v)
        input = Some (q, v0) /\
      list_find (fun kv : Z * Z => kv.1 = vertex_key example_hash v)
        (BlockRadixSort (keyed_inds example_hash input))
      = Some (s, (vertex_key example_hash v, Z.of_nat q)) /\
      res.2 !! p = Some (Z.of_nat (rank keys (vertex_key example_hash v))) /\
      res.2 !! q = Some (Z.of_nat (rank keys (vertex_key example_hash v))) /\
      res.1.2 !! rank keys (vertex_key example_hash v) = Some v0.
Proof.
  apply (combined_remap example_hash (vertices duplicate_block)
           (vertices duplicate_block) (iota (length (vertices duplicate_block)))).
  - unfold kNumThreads, kNumItemsPerThread. cbn. lia.
  - reflexivity.
  - reflexivity.
Defined.

(** ** Stability of the block sort *)

Lemma insert_by_key_stable {V} (kv : Z * V) l k :
  filter (fun kv' : Z * V => kv'.1 = k) (insert_by_key kv l)
  = filter (fun kv' : Z * V => kv'.1 = k) (kv :: l).
Proof.
  induction l as [|kv' l IH]; [done|].
  cbn [insert_by_key]. destruct (Z.ltb_spec kv'.1 kv.1) as [Hlt|Hge]; [|done].
  rewrite filter_cons, IH, !filter_cons.
  destruct (decide (kv'.1 = k)), (decide (kv.1 = k)); try done. lia.
Qed.

Lemma BlockRadixSort_stable {V} (l : list (Z * V)) k :
  filter (fun kv : Z * V => kv.1 = k) (BlockRadixSort l)
  = filter (fun kv : Z * V => kv.1 = k) l.
Proof.
  induction l as [|kv l IH]; [done|].
  rewrite BlockRadixSort_cons, insert_by_key_stable, !filter_cons. by rewrite IH.
Qed.

Lemma filter_fmap_snd_keyed {V} (key : V -> Z) (l : list (Z * V)) k :
  Forall (fun kv => kv.1 = key kv.2) l ->
  filter (fun v => key v = k) (l.*2) = (filter (fun kv : Z * V => kv.1 = k) l).*2.
Proof.
  induction 1 as [|[k' v] l Hkv _ IH]; [done|]. cbn in Hkv. subst k'.
  cbn [fmap list_fmap snd]. rewrite !filter_cons. cbn [fst snd].
  destruct (decide (key v = k)); cbn; by rewrite IH.
Qed.

Lemma keyed_values_keyed index_hash vs :
  Forall (fun kv => kv.1 = vertex_key index_hash kv.2) (keyed_values index_hash vs).
Proof.
  unfold keyed_values. rewrite Forall_fmap. by apply Forall_true.
Qed.

Lemma sorted_values_stable index_hash vs k :
  filter (fun v => vertex_key index_hash v = k) (sorted_values index_hash vs)
  = filter (fun v => vertex_key index_hash v = k) vs.
Proof.
  unfold sorted_values.
  rewrite (filter_fmap_snd_keyed (vertex_key index_hash)).
  - rewrite BlockRadixSort_stable.
    rewrite <- (filter_fmap_snd_keyed (vertex_key index_hash))
      by apply keyed_values_keyed.
    unfold keyed_values. rewrite <- list_fmap_compose. by rewrite list_fmap_id.
  - rewrite BlockRadixSort_perm. apply keyed_values_keyed.
Qed.

Lemma too_long_false input_vertices :
  (length input_vertices < kNumThreads * kNumItemsPerThread)%nat ->
  too_long input_vertices = false.
Proof. intros H. unfold too_long. by destruct (Nat.leb_spec (kNumThreads * kNumItemsPerThread) (length input_vertices)); [lia|]. Qed.

(** X20.  [sortSingleBlockCubAsync] on fewer than 2048 vertices logs no error;
    the first [n] output vertices are a permutation of the input in ascending
    order of the key, the vertices of one key in their input order; the
    output past [n] is untouched. *)
Theorem sort_cub_is_stable (index_hash : Index3D -> Z)
    (input_vertices output_vertices : list Vector3f) :
  (length input_vertices < kNumThreads * kNumItemsPerThread)%nat ->
  (length input_vertices <= length output_vertices)%nat ->
  let res := sortSingleBlockCubAsync index_hash input_vertices output_vertices in
  let sorted := take (length input_vertices) res.2 in
  res.1 = false /\
  length res.2 = length output_vertices /\
  drop (length input_vertices) res.2 = drop (length input_vertices) output_vertices /\
  sorted ≡ₚ input_vertices /\
  ascending (vertex_key index_hash <$> sorted) /\
  forall k,
    filter (fun v => vertex_key index_hash v = k) sorted
    = filter (fun v => vertex_key index_hash v = k) input_vertices.
Proof.
  intros Hcap Hout res sorted. subst sorted res.
  unfold sortSingleBlockCubAsync. cbn [fst snd].
  rewrite blockSortKernel_spec by (rewrite length_take; lia).
  rewrite (take_ge input_vertices) by lia.
  assert (Hlen : length (sorted_values index_hash input_vertices) = length input_vertices).
  { by rewrite sorted_values_perm. }
  rewrite take_app_length', drop_app_length' by done.
  split; [by apply too_long_false|].
  split. { rewrite length_app, length_drop. lia. }
  split; [done|].
  split; [apply sorted_values_perm|].
  split; [apply sorted_values_ascending|].
  apply sorted_values_stable.
Qed.

(** ** The unique kernel *)

Lemma append_loop {A} (ws : list (option A)) (out : list A) (i : nat) :
  foldl append_step (out, Z.of_nat i) ws
  = (list_inserts i (omap id ws) out, Z.of_nat (i + length (omap id ws))).
Proof.
  revert out i. induction ws as [|[v|] ws IH]; intros out i.
  - cbn. by rewrite Nat.add_0_r.
  - cbn [foldl]. unfold append_step at 2. cbn [fst snd].
    replace (Z.of_nat i + 1) with (Z.of_nat (S i)) by lia.
    rewrite IH. change (omap id (Some v :: ws)) with (v :: omap id ws).
    cbn [length list_inserts]. f_equal; [|f_equal; lia].
    unfold write_at. destruct (Z.leb_spec 0 (Z.of_nat i)); [|lia].
    rewrite Nat2Z.id. symmetry. apply list_insert_inserts_lt. lia.
  - cbn [foldl]. unfold append_step at 2. apply IH.
Qed.

Lemma omap_seq_lookup {A B} (f : nat -> option B) (g : A -> option B)
    (l : list A) (j extra : nat) :
  (forall s a, l !! s = Some a -> f (j + s)%nat = g a) ->
  (forall s, (length l <= s)%nat -> f (j + s)%nat = None) ->
  omap f (seq j (length l + extra)) = omap g l.
Proof.
  revert j. induction l as [|a l IH]; intros j Hl Hnone.
  - cbn [length Nat.add]. clear Hl. revert j Hnone.
    induction extra as [|extra IHe]; intros j Hnone; [done|].
    assert (Hj : f j = None).
    { replace j with (j + 0)%nat by lia. apply Hnone. cbn. lia. }
    cbn [seq]. change (omap f (j :: ?l)) with (match f j with Some y => y :: omap f l | None => omap f l end).
    rewrite Hj. apply IHe.
    intros s Hs. replace (S j + s)%nat with (j + S s)%nat by lia.
    apply Hnone. cbn. lia.
  - assert (Hj : f j = g a).
    { replace j with (j + 0)%nat by lia. by apply Hl. }
    cbn [length Nat.add seq].
    change (omap f (j :: ?l)) with (match f j with Some y => y :: omap f l | None => omap f l end).
    change (omap g (a :: l)) with (match g a with Some y => y :: omap g l | None => omap g l end).
    rewrite Hj, IH; [done| |].
    + intros s a' Hs. replace (S j + s)%nat with (j + S s)%nat by lia. by apply Hl.
    + intros s Hs. replace (S j + s)%nat with (j + S s)%nat by lia.
      apply Hnone. cbn. lia.
Qed.

Lemma flagged_flags_from {V} (key : V -> Z) prev (l : list V) pad :
  flagged l (flags_from prev ((key <$> l) ++ pad)) = heads_from key prev l.
Proof.
  revert prev. induction l as [|v l IH]; intros prev.
  - unfold flagged. by destruct (flags_from prev _).
  - cbn [fmap list_fmap app flags_from heads_from].
    unfold flagged in *. cbn [zip zip_with omap fst snd].
    destruct (Z.eqb_spec prev (key v)); cbn; by rewrite IH.
Qed.

Lemma flagged_FlagHeads {V} (key : V -> Z) (l : list V) pad :
  flagged l (FlagHeads ((key <$> l) ++ pad)) = run_heads key l.
Proof.
  destruct l as [|v l].
  - unfold flagged. by destruct (FlagHeads _).
  - cbn [fmap list_fmap app FlagHeads run_heads].
    unfold flagged. cbn [zip zip_with omap fst snd]. cbn.
    f_equal. apply (flagged_flags_from key).
Qed.

Section UniqueKernel.
Variable index_hash : Index3D -> Z.
Variables BLOCK_THREADS ITEMS_PER_THREAD : nat.
Variable d_in : list Vector3f.

Local Abbreviation cap := (BLOCK_THREADS * ITEMS_PER_THREAD)%nat.
Local Abbreviation key := (vertex_key index_hash).
Local Abbreviation n := (length d_in).
Local Abbreviation real := (take cap d_in).
Local Abbreviation loaded := (load_values index_hash BLOCK_THREADS ITEMS_PER_THREAD n d_in).
Local Abbreviation emit := (unique_emit n loaded (FlagHeads (loaded.*1))).

Lemma blockUniqueKernel_fold schedule d_out :
  blockUniqueKernel index_hash BLOCK_THREADS ITEMS_PER_THREAD schedule n d_in d_out
  = foldl append_step (d_out, 0) (emit <$> schedule).
Proof.
  unfold blockUniqueKernel.
  generalize (d_out, 0). induction schedule as [|s schedule IH]; intros st; [done|].
  cbn [foldl fmap list_fmap]. rewrite <- IH. f_equal.
  destruct st as [out output_index]. unfold unique_emit, append_step.
  destruct (loaded !! s) as [[k value]|]; [|done].
  destruct (FlagHeads (loaded.*1) !! s) as [flag|]; [|done].
  by destruct ((s <? n)%nat && (flag =? 1)).
Qed.

Lemma emit_slots :
  omap emit (slots BLOCK_THREADS ITEMS_PER_THREAD) = run_heads key real.
Proof.
  pose proof (load_values_split index_hash BLOCK_THREADS ITEMS_PER_THREAD d_in) as Hload.
  pose proof (m_min BLOCK_THREADS ITEMS_PER_THREAD d_in) as Hm.
  set (m := length real) in *.
  assert (Hkeys : loaded.*1
                  = (key <$> real)
                    ++ (replicate (cap - m) (SIZE_MAX, Vector3f_Zero)).*1).
  { rewrite Hload, fmap_app. f_equal. unfold keyed_values.
    rewrite <- list_fmap_compose. by apply list_fmap_ext. }
  rewrite <- (flagged_FlagHeads key real
                ((replicate (cap - m) (SIZE_MAX, Vector3f_Zero)).*1)).
  rewrite <- Hkeys. unfold flagged, slots.
  set (F := FlagHeads (loaded.*1)).
  assert (Hl : length loaded = cap).
  { rewrite Hload, length_app. unfold keyed_values.
    rewrite length_fmap, length_replicate. lia. }
  assert (HF : length F = cap).
  { subst F. by rewrite FlagHeads_length, length_fmap. }
  assert (Hz : length (zip real F) = m).
  { rewrite length_zip_with. lia. }
  replace (seq 0 cap) with (seq 0 (length (zip real F) + (cap - m)))
    by (f_equal; lia).
  apply omap_seq_lookup.
  - intros s [v flag] Hs. cbn [Nat.add fst snd].
    apply lookup_zip_with_Some in Hs as (v' & flag' & [= <- <-] & Hv & Hflag).
    unfold unique_emit. fold F. rewrite Hflag.
    rewrite Hload, lookup_app_l
      by (unfold keyed_values; rewrite length_fmap; by eapply lookup_lt_Some).
    unfold keyed_values. rewrite list_lookup_fmap, Hv. cbn -[Nat.ltb].
    apply lookup_lt_Some in Hv. fold m in Hv.
    by destruct (Nat.ltb_spec s n); [|lia].
  - intros s Hs. rewrite Hz in Hs. cbn [Nat.add]. unfold unique_emit.
    destruct (loaded !! s) as [[k value]|] eqn:Hls; [|done].
    apply lookup_lt_Some in Hls. rewrite Hl in Hls.
    destruct (F !! s) as [flag|]; [|done].
    by destruct (Nat.ltb_spec s n); [lia|].
Qed.

Lemma heads_from_length {V} (k : V -> Z) prev (l : list V) :
  (length (heads_from k prev l) <= length l)%nat.
Proof.
  revert prev. induction l as [|v l IH]; intros prev; cbn; [lia|].
  destruct (prev =? k v); cbn; specialize (IH (k v)); lia.
Qed.

Lemma run_heads_length {V} (k : V -> Z) (l : list V) :
  (length (run_heads k l) <= length l)%nat.
Proof. destruct l as [|v l]; cbn; [lia|]. pose proof (heads_from_length k (k v) l). lia. Qed.

(** [blockUniqueKernel] writes the vertices that open a run of equal keys,
    among those that get a slot, at the head of [d_out], in the order in which
    their slots reach the [atomicAdd], and counts them. *)
Lemma blockUniqueKernel_spec schedule d_out :
  schedule ≡ₚ slots BLOCK_THREADS ITEMS_PER_THREAD ->
  (length real <= length d_out)%nat ->
  let res := blockUniqueKernel index_hash BLOCK_THREADS ITEMS_PER_THREAD
               schedule n d_in d_out in
  let heads := omap emit schedule in
  heads ≡ₚ run_heads key real /\
  res.2 = Z.of_nat (length heads) /\
  res.1 = heads ++ drop (length heads) d_out.
Proof.
  intros Hperm Hout res heads. subst res.
  assert (Hheads : heads ≡ₚ run_heads key real).
  { subst heads. rewrite Hperm. by rewrite emit_slots. }
  split; [done|].
  rewrite blockUniqueKernel_fold. change 0 with (Z.of_nat 0).
  rewrite append_loop. cbn [fst snd Nat.add].
  assert (Heq : omap id (emit <$> schedule) = heads).
  { subst heads. clear. induction schedule as [|s schedule IH]; [done|].
    cbn. destruct (emit s); cbn; by rewrite IH. }
  rewrite Heq. split; [done|].
  assert (Hlen : (length heads <= length d_out)%nat).
  { rewrite Hheads. pose proof (run_heads_length key real). lia. }
  rewrite <- (take_drop (length heads) d_out) at 1.
  apply list_inserts_0_r. rewrite length_take. lia.
Qed.

End UniqueKernel.

(** ** Runs of a list with ascending keys *)

Section Runs.
Context {V : Type}.
Variable key : V -> Z.

Lemma run_heads_cons v (l : list V) :
  run_heads key (v :: l)
  = v :: match l with
         | [] => []
         | a :: _ => if key v =? key a then tail (run_heads key l) else run_heads key l
         end.
Proof.
  destruct l as [|a l]; [done|]. cbn. by destruct (key v =? key a).
Qed.

Lemma rank_cons_in k0 keys k : k0 ∈ keys -> rank (k0 :: keys) k = rank keys k.
Proof.
  intros Hin. unfold rank. f_equal. cbn [list_to_set foldr].
  apply set_eq. intros x. rewrite !elem_of_filter. set_solver.
Qed.

Lemma rank_cons_new k0 keys k :
  k0 ∉ keys -> k0 < k -> rank (k0 :: keys) k = S (rank keys k).
Proof.
  intros Hout Hlt. unfold rank. cbn [list_to_set foldr].
  assert (Heq : filter (fun k' => k' < k) ({[k0]} ∪ list_to_set keys : gset Z)
                = {[k0]} ∪ filter (fun k' => k' < k) (list_to_set keys : gset Z)).
  { apply set_eq. intros x. rewrite !elem_of_union, !elem_of_filter, elem_of_union.
    set_solver by lia. }
  rewrite Heq, size_union, size_singleton; [done|].
  intros x Hx1 Hx2. apply elem_of_singleton in Hx1 as ->.
  apply elem_of_filter in Hx2 as [_ Hx2]. by apply elem_of_list_to_set in Hx2.
Qed.

Lemma distinct_keys_cons_in k0 keys :
  k0 ∈ keys -> distinct_keys (k0 :: keys) = distinct_keys keys.
Proof.
  intros Hin. unfold distinct_keys. f_equal. cbn [list_to_set foldr]. set_solver.
Qed.

Lemma distinct_keys_cons_new k0 keys :
  k0 ∉ keys -> distinct_keys (k0 :: keys) = S (distinct_keys keys).
Proof.
  intros Hout. unfold distinct_keys. cbn [list_to_set foldr].
  rewrite size_union, size_singleton; [done|]. set_solver.
Qed.

Lemma rank_mono keys a b :
  a ∈ keys -> a < b -> (rank keys a < rank keys b)%nat.
Proof.
  intros Ha Hlt. unfold rank. apply subset_size. split.
  - intros x. rewrite !elem_of_filter. intros [? ?]. split; [lia|done].
  - intros Hsub. specialize (Hsub a). rewrite !elem_of_filter in Hsub.
    destruct Hsub as [? _]; [|lia]. split; [done|]. by apply elem_of_list_to_set.
Qed.

Lemma ascending_cons_head (a : V) a' (l : list V) :
  ascending (key <$> a :: a' :: l) -> key a <> key a' ->
  (key a ∉ key <$> (a' :: l)) /\ (forall k, k ∈ key <$> (a' :: l) -> key a < k).
Proof.
  intros Hs Hne. cbn in Hs. apply StronglySorted_inv in Hs as [Hs Ha].
  apply StronglySorted_inv in Hs as [_ Ha'].
  rewrite Forall_forall in Ha, Ha'.
  assert (Hlt : key a < key a').
  { assert (key a <= key a') by (apply Ha; left). lia. }
  assert (Hall : forall k, k ∈ (key <$> a' :: l) -> key a < k).
  { intros k Hk. cbn in Hk. apply elem_of_cons in Hk as [->|Hk]; [done|].
    specialize (Ha' k Hk). lia. }
  split; [|done]. intros Hin. specialize (Hall _ Hin). lia.
Qed.

Lemma run_heads_sorted_length (l : list V) :
  ascending (key <$> l) -> length (run_heads key l) = distinct_keys (key <$> l).
Proof.
  induction l as [|a l IH]; intros Hs.
  - unfold distinct_keys. cbn. by rewrite size_empty.
  - rewrite run_heads_cons. cbn [length fmap list_fmap].
    assert (Hs' : ascending (key <$> l)) by (cbn in Hs; by apply StronglySorted_inv in Hs as [? _]).
    specialize (IH Hs').
    destruct l as [|a' l].
    + unfold distinct_keys. cbn. rewrite size_union, size_singleton, size_empty; [done|set_solver].
    + destruct (Z.eqb_spec (key a) (key a')) as [Heq|Hne].
      * rewrite distinct_keys_cons_in by (rewrite Heq; cbn; left).
        rewrite <- IH. cbn. done.
      * destruct (ascending_cons_head a a' l Hs Hne) as [Hout _].
        rewrite distinct_keys_cons_new by done. by rewrite IH.
Qed.

Lemma run_heads_lookup (l : list V) v :
  ascending (key <$> l) -> v ∈ l ->
  exists q v0,
    list_find (fun v' => key v' = key v) l = Some (q, v0) /\
    run_heads key l !! rank (key <$> l) (key v) = Some v0.
Proof.
  induction l as [|a l IH]; intros Hs Hv; [by apply elem_of_nil in Hv|].
  destruct (decide (key a = key v)) as [Heq|Hne].
  - exists 0%nat, a. split.
    + cbn. by rewrite decide_True.
    + rewrite rank_min; [by rewrite run_heads_cons|].
      intros x Hx. cbn in Hs, Hx. apply StronglySorted_inv in Hs as [_ Ha].
      rewrite Forall_forall in Ha. rewrite <- Heq.
      apply elem_of_cons in Hx as [->|Hx]; [lia|by apply Ha].
  - apply elem_of_cons in Hv as [->|Hv]; [done|].
    assert (Hs' : ascending (key <$> l)) by (cbn in Hs; by apply StronglySorted_inv in Hs as [? _]).
    destruct (IH Hs' Hv) as (q & v0 & Hfind & Hlook).
    exists (S q), v0. split.
    { cbn. rewrite decide_False by done. by rewrite Hfind. }
    rewrite run_heads_cons. destruct l as [|a' l]; [by apply elem_of_nil in Hv|].
    assert (Hkv : key v ∈ key <$> a' :: l) by (apply list_elem_of_fmap; eauto).
    destruct (Z.eqb_spec (key a) (key a')) as [Heq'|Hne'].
    + cbn [fmap list_fmap].
      rewrite rank_cons_in by (rewrite Heq'; cbn; left).
      assert (Hlt : key a' < key v).
      { cbn in Hs'. apply StronglySorted_inv in Hs' as [_ Ha'].
        rewrite Forall_forall in Ha'. cbn in Hkv.
        apply elem_of_cons in Hkv as [Hk|Hk]; [congruence|].
        specialize (Ha' _ Hk). lia. }
      assert (Hr : (rank (key <$> a' :: l) (key a') < rank (key <$> a' :: l) (key v))%nat).
      { apply rank_mono; [cbn; left|done]. }
      change (key a' :: (key <$> l)) with (key <$> a' :: l).
      destruct (rank (key <$> a' :: l) (key v)) as [|r]; [lia|].
      change (tail (run_heads key (a' :: l)) !! r = Some v0).
      rewrite lookup_tail. exact Hlook.
    + destruct (ascending_cons_head a a' l Hs Hne') as [Hout Hall].
      cbn [fmap list_fmap] in *.
      rewrite rank_cons_new by (try done; by apply Hall).
      exact Hlook.
Qed.

End Runs.

Lemma rank_surj keys r :
  (r < distinct_keys keys)%nat -> exists k, k ∈ keys /\ rank keys k = r.
Proof.
  intros Hr. unfold distinct_keys in Hr.
  set (el := elements (list_to_set keys : gset Z)).
  assert (Hel : forall k, k ∈ el <-> k ∈ keys).
  { intros k. subst el. by rewrite elem_of_elements, elem_of_list_to_set. }
  assert (Hperm : rank keys <$> el ≡ₚ seq 0 (length el)).
  { apply submseteq_length_Permutation; [|by rewrite length_fmap, length_seq].
    apply NoDup_submseteq.
    - apply NoDup_fmap_2_strong; [|apply NoDup_elements].
      intros a b Ha Hb. apply rank_inj; by apply Hel.
    - intros x (k & -> & Hk)%list_elem_of_fmap. apply elem_of_seq.
      split; [lia|]. cbn. apply Hel in Hk.
      pose proof (rank_lt keys k Hk) as Hlt. unfold distinct_keys in Hlt.
      by subst el. }
  assert (Hin : r ∈ rank keys <$> el).
  { rewrite Hperm. apply elem_of_seq. split; [lia|]. cbn. by subst el. }
  apply list_elem_of_fmap in Hin as (k & -> & Hk). exists k. split; [by apply Hel|done].
Qed.

(** ** The three host functions within the capacity *)

Lemma combined_cub_spec (index_hash : Index3D -> Z)
    (input_vertices output_vertices : list Vector3f) (output_indices : list Z) :
  (length input_vertices <= kNumThreads * kNumItemsPerThread)%nat ->
  (length input_vertices <= length output_vertices)%nat ->
  (length input_vertices <= length output_indices)%nat ->
  let key := vertex_key index_hash in
  let keys := key <$> input_vertices in
  let res := combinedSingleBlockCubAsync index_hash input_vertices
               (iota (length input_vertices)) output_vertices output_indices in
  res.1.1 = too_long input_vertices /\
  length res.1.2 = distinct_keys keys /\
  length res.2 = length output_indices /\
  (forall p v, input_vertices !! p = Some v ->
     res.2 !! p = Some (Z.of_nat (rank keys (key v)))) /\
  (forall p, (length input_vertices <= p)%nat -> res.2 !! p = output_indices !! p) /\
  (forall p v q v0,
     input_vertices !! p = Some v ->
     list_find (fun v' => key v' = key v) input_vertices = Some (q, v0) ->
     res.1.2 !! rank keys (key v) = Some v0).
Proof.
  intros Hcap Hout Hind key keys res. subst res key.
  unfold combinedSingleBlockCubAsync.
  pose proof (combinedSingleBlockKernel_spec index_hash kNumThreads kNumItemsPerThread
                input_vertices output_vertices output_indices) as Hspec.
  rewrite (take_ge input_vertices) in Hspec by done.
  destruct (combinedSingleBlockKernel _ _ _ _ _ _ _ _) as [[d_out inds_out] num_out].
  cbn in Hspec. destruct Hspec as (-> & Hld & Hli & Hinds & Hrest & Hd & _).
  cbn [fst snd]. rewrite Nat2Z.id. fold keys in Hinds, Hd |- *.
  split; [done|]. split; [apply length_resize|]. split; [done|].
  split. { intros p v Hp. apply Hinds; [done|]. apply lookup_lt_Some in Hp. lia. }
  split; [done|].
  intros p v q v0 Hp Hfind.
  assert (Hrank : (rank keys (vertex_key index_hash v) < distinct_keys keys)%nat).
  { apply rank_lt, list_elem_of_fmap. exists v. split; [done|].
    by eapply list_elem_of_lookup_2. }
  pose proof (distinct_keys_le keys) as Hdl. unfold keys in Hdl at 2.
  rewrite length_fmap in Hdl.
  rewrite lookup_resize by lia. eapply Hd; [done..|lia].
Qed.

Lemma find_key_exists (key : Vector3f -> Z) (l : list Vector3f) p v :
  l !! p = Some v ->
  exists q v0, list_find (fun v' => key v' = key v) l = Some (q, v0).
Proof.
  intros Hp.
  destruct (list_find (fun v' => key v' = key v) l) as [[q v0]|] eqn:Hfind; [eauto|].
  apply list_find_None in Hfind. rewrite Forall_forall in Hfind.
  exfalso. apply (Hfind v); [by eapply list_elem_of_lookup_2|done].
Qed.

Lemma unique_cub_spec (index_hash : Index3D -> Z) (schedule : list nat)
    (input_vertices output_vertices : list Vector3f) :
  (length input_vertices <= length output_vertices)%nat ->
  schedule ≡ₚ slots kNumThreads kNumItemsPerThread ->
  let first := take (kNumThreads * kNumItemsPerThread) input_vertices in
  let res := uniqueSingleBlockCubAsync index_hash schedule
               input_vertices output_vertices in
  res.1 = too_long input_vertices /\
  res.2 ≡ₚ run_heads (vertex_key index_hash) first /\
  (schedule = slots kNumThreads kNumItemsPerThread ->
   res.2 = run_heads (vertex_key index_hash) first).
Proof.
  intros Hout Hperm first res. subst res. unfold uniqueSingleBlockCubAsync.
  pose proof (blockUniqueKernel_spec index_hash kNumThreads kNumItemsPerThread
                input_vertices schedule output_vertices Hperm) as Hspec.
  destruct (blockUniqueKernel _ _ _ _ _ _ _) as [d_out num_out].
  cbn [fst snd] in *. destruct Hspec as (Hheads & -> & ->).
  { rewrite length_take. lia. }
  rewrite Nat2Z.id, resize_app by done.
  split; [done|]. split; [done|].
  intros ->. by apply emit_slots.
Qed.


(** X23.  In the result of [combinedSingleBlockCubAsync], every output vertex
    is the first input vertex of its key, the output index at the position of
    that input vertex is the place of the output vertex, and the keys of the
    output vertices are strictly ascending. *)
Theorem combined_output_ascending (index_hash : Index3D -> Z)
    (input_vertices output_vertices : list Vector3f) (output_indices : list Z) :
  (length input_vertices <= kNumThreads * kNumItemsPerThread)%nat ->
  (length input_vertices <= length output_vertices)%nat ->
  (length input_vertices <= length output_indices)%nat ->
  let key := vertex_key index_hash in
  let res := combinedSingleBlockCubAsync index_hash input_vertices
               (iota (length input_vertices)) output_vertices output_indices in
  (forall r v0,
     res.1.2 !! r = Some v0 ->
     exists q,
       input_vertices !! q = Some v0 /\
       res.2 !! q = Some (Z.of_nat r) /\
       forall q' v', input_vertices !! q' = Some v' -> key v' = key v0 -> (q <= q')%nat) /\
  (forall r1 r2 v1 v2,
     (r1 < r2)%nat -> res.1.2 !! r1 = Some v1 -> res.1.2 !! r2 = Some v2 ->
     key v1 < key v2).
Proof.
  intros Hcap Hout Hind key res.
  destruct (combined_cub_spec index_hash input_vertices output_vertices output_indices
              Hcap Hout Hind) as (_ & Hlen & _ & Hinds & _ & Hd).
  fold key in Hinds, Hd, Hlen. fold res in Hinds, Hd, Hlen.
  set (keys := key <$> input_vertices) in *.
  assert (Hslot : forall r v0,
            res.1.2 !! r = Some v0 ->
            exists q, input_vertices !! q = Some v0 /\ rank keys (key v0) = r /\
              forall q' v', input_vertices !! q' = Some v' -> key v' = key v0 -> (q <= q')%nat).
  { intros r v0 Hr.
    assert (Hlt : (r < distinct_keys keys)%nat) by (rewrite <- Hlen; by eapply lookup_lt_Some).
    destruct (rank_surj keys r Hlt) as (k & Hk & Hrk).
    apply list_elem_of_fmap in Hk as (v & -> & Hv).
    apply list_elem_of_lookup_1 in Hv as [p Hp].
    destruct (find_key_exists key input_vertices p v Hp) as (q & v0' & Hfind).
    pose proof (Hd p v q v0' Hp Hfind) as Hv0. rewrite Hrk, Hr in Hv0.
    injection Hv0 as <-.
    apply list_find_Some in Hfind as (Hq & Hkey & Hfirst).
    exists q. split; [done|]. split; [by rewrite Hkey|].
    intros q' v' Hq' Hk'. destruct (decide (q <= q')%nat); [done|].
    exfalso. apply (Hfirst q' v'); [done|lia|congruence]. }
  split.
  - intros r v0 Hr. destruct (Hslot r v0 Hr) as (q & Hq & Hrk & Hfirst).
    exists q. split; [done|]. split; [|done]. by rewrite (Hinds q v0 Hq), Hrk.
  - intros r1 r2 v1 v2 Hlt H1 H2.
    destruct (Hslot r1 v1 H1) as (q1 & Hq1 & Hr1 & _).
    destruct (Hslot r2 v2 H2) as (q2 & Hq2 & Hr2 & _).
    assert (Hk1 : key v1 ∈ keys).
    { apply list_elem_of_fmap. exists v1. split; [done|]. by eapply list_elem_of_lookup_2. }
    assert (Hk2 : key v2 ∈ keys).
    { apply list_elem_of_fmap. exists v2. split; [done|]. by eapply list_elem_of_lookup_2. }
    destruct (Z.lt_trichotomy (key v1) (key v2)) as [?|[Heq|Hgt]]; [done| |].
    + rewrite Heq in Hr1. lia.
    + pose proof (rank_mono keys (key v2) (key v1) Hk2 Hgt). lia.
Qed.

(** ** Empty input *)

(** X26.  Empty input: the three cub host functions log no error; the sort
    leaves the output as it was, the unique path returns no vertex, the
    combined path returns no vertex and leaves the output indices alone;
    [weldSingleBlockThrustAsync] returns no vertex and the indices it was
    given. *)
Theorem empty_input_is_left_alone (T : Thrust) (index_hash : Index3D -> Z)
    (schedule : list nat) (output_vertices : list Vector3f)
    (output_indices : list Z) :
  thrust_contract T ->
  schedule ≡ₚ slots kNumThreads kNumItemsPerThread ->
  sortSingleBlockCubAsync index_hash [] output_vertices = (false, output_vertices) /\
  uniqueSingleBlockCubAsync index_hash schedule [] output_vertices = (false, []) /\
  combinedSingleBlockCubAsync index_hash [] [] output_vertices output_indices
  = (false, [], output_indices) /\
  weldSingleBlockThrustAsync [] output_indices = ([], output_indices).
Proof.
  intros HT Hperm.
  assert (Hcap : (length (@nil Vector3f) <= kNumThreads * kNumItemsPerThread)%nat)
    by (cbn; lia).
  split; [|split; [|split]].
  - unfold sortSingleBlockCubAsync.
    rewrite blockSortKernel_spec by (cbn; lia).
    by rewrite take_nil.
  - destruct (unique_cub_spec index_hash schedule [] output_vertices
                ltac:(cbn; lia) Hperm) as (Herr & Hheads & _).
    rewrite take_nil in Hheads.
    destruct (uniqueSingleBlockCubAsync _ _ _ _) as [err heads].
    cbn [fst snd] in *. apply Permutation_nil_r in Hheads. by subst.
  - destruct (combined_cub_spec index_hash [] output_vertices output_indices Hcap
                ltac:(cbn; lia) ltac:(cbn; lia)) as (Herr & Hlen & Hli & _ & Hrest & _).
    change (iota (length (@nil Vector3f))) with (@nil Z) in *.
    destruct (combinedSingleBlockCubAsync _ _ _ _ _) as [[err d_out] inds_out].
    cbn [fst snd] in *.
    assert (d_out = []) as ->.
    { apply length_zero_iff_nil. rewrite Hlen. unfold distinct_keys. cbn.
      by rewrite size_empty. }
    assert (inds_out = output_indices) as ->.
    { apply list_eq. intros p. apply Hrest. cbn. lia. }
    by subst.
  - unfold weldSingleBlockThrustAsync, thrust_sort.
    assert (Hso : sort_order [] = []).
    { apply Permutation_nil_r. apply (sort_order_perm T HT []). constructor. }
    rewrite Hso. done.
Qed.

(** ** The cub paths against the thrust path *)

Lemma float_to_int_canon f :
  float_to_int (SFmul prec emax (canon_float f) kValueScale)
  = float_to_int (SFmul prec emax f kValueScale).
Proof. by destruct f as [[|]| | |]. Qed.

Lemma quantize_canon v : quantize (canon v) = quantize v.
Proof. unfold quantize, canon. cbn [vec_x vec_y vec_z]. by rewrite !float_to_int_canon. Qed.

Lemma vertex_key_canon index_hash v :
  vertex_key index_hash (canon v) = vertex_key index_hash v.
Proof. unfold vertex_key. by rewrite quantize_canon. Qed.

Lemma distinct_keys_fmap_canon index_hash (l : list Vector3f) :
  (distinct_keys (vertex_key index_hash <$> l)
   <= length (remove_dups (canon <$> l)))%nat.
Proof.
  set (l' := remove_dups (canon <$> l)).
  assert (Heq : distinct_keys (vertex_key index_hash <$> l)
                = distinct_keys (vertex_key index_hash <$> l')).
  { unfold distinct_keys. f_equal. apply set_eq. intros k.
    rewrite !elem_of_list_to_set, !list_elem_of_fmap. split.
    - intros (v & -> & Hv). exists (canon v). split; [by rewrite vertex_key_canon|].
      subst l'. apply elem_of_remove_dups, list_elem_of_fmap. eauto.
    - intros (c & -> & Hc). subst l'.
      apply elem_of_remove_dups, list_elem_of_fmap in Hc as (v & -> & Hv).
      exists v. split; [by rewrite vertex_key_canon|done]. }
  rewrite Heq. etrans; [apply distinct_keys_le|]. by rewrite length_fmap.
Qed.

(** X25.  Input vertices free of NaN that are equal ([==]) get the same output
    index from [combinedSingleBlockCubAsync], and it returns no more vertices
    than [weldSingleBlockThrustAsync] on the same input. *)
Theorem cub_merges_what_thrust_merges (T : Thrust) (index_hash : Index3D -> Z)
    (input_vertices output_vertices : list Vector3f)
    (input_indices output_indices : list Z) :
  thrust_contract T ->
  all_nan_free input_vertices ->
  (length input_vertices <= kNumThreads * kNumItemsPerThread)%nat ->
  (length input_vertices <= length output_vertices)%nat ->
  (length input_vertices <= length output_indices)%nat ->
  let cub := combinedSingleBlockCubAsync index_hash input_vertices
               (iota (length input_vertices)) output_vertices output_indices in
  let thrust := weldSingleBlockThrustAsync input_vertices input_indices in
  (forall p q vp vq,
     input_vertices !! p = Some vp -> input_vertices !! q = Some vq ->
     vec_eqb vp vq = true -> cub.2 !! p = cub.2 !! q) /\
  (length cub.1.2 <= length thrust.1)%nat.
Proof.
  intros HT Hnf Hcap Hout Hind cub thrust.
  destruct (combined_cub_spec index_hash input_vertices output_vertices output_indices
              Hcap Hout Hind) as (_ & Hlen & _ & Hinds & _).
  fold cub in Hlen, Hinds. split.
  - intros p q vp vq Hp Hq Heq.
    rewrite (Hinds p vp Hp), (Hinds q vq Hq). do 3 f_equal.
    unfold all_nan_free in Hnf. rewrite Forall_forall in Hnf.
    apply vec_eqb_canon in Heq; [|apply Hnf; by eapply list_elem_of_lookup_2..].
    by rewrite <- (vertex_key_canon index_hash vp), Heq, vertex_key_canon.
  - rewrite Hlen. subst thrust. cbn [fst weldSingleBlockThrustAsync].
    rewrite (welded_length T HT input_vertices Hnf).
    apply distinct_keys_fmap_canon.
Qed.

(** ** Sorting and then compacting, against the combined kernel *)

Lemma list_find_head_filter {A} (P : A -> Prop) `{!forall x, Decision (P x)} (l : list A) :
  snd <$> list_find P l = head (filter P l).
Proof.
  induction l as [|x l IH]; [done|].
  cbn [list_find]. rewrite filter_cons.
  destruct (decide (P x)); [done|].
  rewrite <- IH. by destruct (list_find P l) as [[i y]|].
Qed.

Lemma run_heads_sorted_values (index_hash : Index3D -> Z)
    (input_vertices output_vertices : list Vector3f) (output_indices : list Z) :
  (length input_vertices <= kNumThreads * kNumItemsPerThread)%nat ->
  (length input_vertices <= length output_vertices)%nat ->
  (length input_vertices <= length output_indices)%nat ->
  run_heads (vertex_key index_hash) (sorted_values index_hash input_vertices)
  = (combinedSingleBlockCubAsync index_hash input_vertices
       (iota (length input_vertices)) output_vertices output_indices).1.2.
Proof.
  intros Hcap Hout Hind.
  destruct (combined_cub_spec index_hash input_vertices output_vertices output_indices
              Hcap Hout Hind) as (_ & Hlen & _ & _ & _ & Hd).
  set (key := vertex_key index_hash) in *.
  set (keys := key <$> input_vertices) in *.
  set (sorted := sorted_values index_hash input_vertices).
  set (combined := (combinedSingleBlockCubAsync _ _ _ _ _).1.2) in *.
  assert (Hperm : sorted ≡ₚ input_vertices) by apply sorted_values_perm.
  assert (Hasc : ascending (key <$> sorted)) by apply sorted_values_ascending.
  assert (Hkeys : key <$> sorted ≡ₚ keys) by (by rewrite Hperm).
  assert (Hlen' : length (run_heads key sorted) = distinct_keys keys).
  { rewrite run_heads_sorted_length by done. by apply distinct_keys_perm. }
  apply list_eq. intros r.
  destruct (decide (r < distinct_keys keys)%nat) as [Hr|Hr].
  2: { rewrite !lookup_ge_None_2; [done|lia..]. }
  destruct (rank_surj keys r Hr) as (k & Hk & Hrk).
  apply list_elem_of_fmap in Hk as (v & -> & Hv).
  destruct (run_heads_lookup key sorted v Hasc) as (q & v0 & Hfind & Hlook);
    [by rewrite Hperm|].
  rewrite (rank_perm _ keys) in Hlook by done. rewrite Hrk in Hlook.
  rewrite Hlook. symmetry.
  apply list_elem_of_lookup_1 in Hv as [p Hp].
  destruct (find_key_exists key input_vertices p v Hp) as (q' & v0' & Hfind').
  rewrite <- Hrk. rewrite (Hd p v q' v0' Hp Hfind'). f_equal.
  pose proof (list_find_head_filter (fun v' => key v' = key v) sorted) as H1.
  pose proof (list_find_head_filter (fun v' => key v' = key v) input_vertices) as H2.
  rewrite Hfind in H1. rewrite Hfind' in H2.
  subst sorted. unfold key in H1. rewrite sorted_values_stable in H1.
  fold key in H1. rewrite <- H2 in H1. cbn in H1. congruence.
Qed.

(** X24.  On fewer than 2048 vertices, [sortSingleBlockCubAsync] followed by
    [uniqueSingleBlockCubAsync] returns the vertices that
    [combinedSingleBlockCubAsync] returns: the same list when the slots of the
    unique kernel reach the [atomicAdd] in order, a permutation of it
    otherwise. *)
Theorem sort_then_unique_is_combined (index_hash : Index3D -> Z) (schedule : list nat)
    (input_vertices sort_output unique_output combined_output : list Vector3f)
    (output_indices : list Z) :
  (length input_vertices < kNumThreads * kNumItemsPerThread)%nat ->
  length sort_output = length input_vertices ->
  (length input_vertices <= length unique_output)%nat ->
  (length input_vertices <= length combined_output)%nat ->
  (length input_vertices <= length output_indices)%nat ->
  schedule ≡ₚ slots kNumThreads kNumItemsPerThread ->
  let sorted := (sortSingleBlockCubAsync index_hash input_vertices sort_output).2 in
  let unique := (uniqueSingleBlockCubAsync index_hash schedule sorted unique_output).2 in
  let combined := (combinedSingleBlockCubAsync index_hash input_vertices
                     (iota (length input_vertices)) combined_output output_indices).1.2 in
  unique ≡ₚ combined /\
  (schedule = slots kNumThreads kNumItemsPerThread -> unique = combined).
Proof.
  intros Hcap Hsort Huniq Hcomb Hind Hperm sorted unique combined.
  assert (Hsorted : sorted = sorted_values index_hash input_vertices).
  { subst sorted. unfold sortSingleBlockCubAsync. cbn [snd].
    rewrite blockSortKernel_spec by (rewrite length_take; lia).
    rewrite (take_ge input_vertices) by lia.
    rewrite drop_ge by lia. apply app_nil_r. }
  assert (Hlen : length sorted = length input_vertices).
  { by rewrite Hsorted, sorted_values_perm. }
  destruct (unique_cub_spec index_hash schedule sorted unique_output
              ltac:(lia) Hperm) as (_ & Hheads & Hord).
  rewrite (take_ge sorted) in Hheads, Hord by lia.
  fold unique in Hheads, Hord.
  assert (Heq : run_heads (vertex_key index_hash) sorted = combined).
  { rewrite Hsorted. apply run_heads_sorted_values; lia. }
  rewrite Heq in Hheads, Hord. done.
Qed.

(** ** Examples *)

Lemma sort_cub_is_stable_witness :
  let input_vertices := vertices duplicate_block in
  let res := sortSingleBlockCubAsync example_hash input_vertices input_vertices in
  let sorted := take (length input_vertices) res.2 in
  res.1 = false /\
  length res.2 = length input_vertices /\
  drop (length input_vertices) res.2 = drop (length input_vertices) input_vertices /\
  sorted ≡ₚ input_vertices /\
  ascending (vertex_key example_hash <$> sorted) /\
  forall k,
    filter (fun v => vertex_key example_hash v = k) sorted
    = filter (fun v => vertex_key example_hash v = k) input_vertices.
Proof.
  apply (sort_cub_is_stable example_hash (vertices duplicate_block)
           (vertices duplicate_block)).
  - unfold kNumThreads, kNumItemsPerThread. cbn. lia.
  - reflexivity.
Defined.


Lemma combined_output_ascending_witness :
  let key := vertex_key example_hash in
  let input_vertices := vertices duplicate_block in
  let res := combinedSingleBlockCubAsync example_hash input_vertices
               (iota (length input_vertices)) input_vertices
               (iota (length input_vertices)) in
  (forall r v0,
     res.1.2 !! r = Some v0 ->
     exists q,
       input_vertices !! q = Some v0 /\
       res.2 !! q = Some (Z.of_nat r) /\
       forall q' v', input_vertices !! q' = Some v' -> key v' = key v0 -> (q <= q')%nat) /\
  (forall r1 r2 v1 v2,
     (r1 < r2)%nat -> res.1.2 !! r1 = Some v1 -> res.1.2 !! r2 = Some v2 ->
     key v1 < key v2).
Proof.
  apply (combined_output_ascending example_hash (vertices duplicate_block)
           (vertices duplicate_block) (iota (length (vertices duplicate_block)))).
  - unfold kNumThreads, kNumItemsPerThread. cbn. lia.
  - reflexivity.
  - reflexivity.
Defined.

Lemma empty_input_is_left_alone_witness :
  sortSingleBlockCubAsync example_hash [] [Vector3f_Zero] = (false, [Vector3f_Zero]) /\
  uniqueSingleBlockCubAsync example_hash (slots kNumThreads kNumItemsPerThread)
    [] [Vector3f_Zero] = (false, []) /\
  combinedSingleBlockCubAsync example_hash [] [] [Vector3f_Zero] [7]
  = (false, [], [7]) /\
  weldSingleBlockThrustAsync (T:=sequential_thrust) [] [7] = ([], [7]).
Proof.
  apply (empty_input_is_left_alone sequential_thrust example_hash
           (slots kNumThreads kNumItemsPerThread) [Vector3f_Zero] [7]).
  - apply sequential_thrust_contract.
  - reflexivity.
Defined.

Lemma cub_merges_what_thrust_merges_witness :
  let input_vertices := vertices signed_zero_block in
  let cub := combinedSingleBlockCubAsync example_hash input_vertices
               (iota (length input_vertices)) input_vertices
               (iota (length input_vertices)) in
  let thrust := weldSingleBlockThrustAsync (T:=sequential_thrust)
                  input_vertices (iota (length input_vertices)) in
  (forall p q vp vq,
     input_vertices !! p = Some vp -> input_vertices !! q = Some vq ->
     vec_eqb vp vq = true -> cub.2 !! p = cub.2 !! q) /\
  (length cub.1.2 <= length thrust.1)%nat.
Proof.
  apply (cub_merges_what_thrust_merges sequential_thrust example_hash
           (vertices signed_zero_block) (vertices signed_zero_block)
           (iota (length (vertices signed_zero_block)))
           (iota (length (vertices signed_zero_block)))).
  - apply sequential_thrust_contract.
  - repeat constructor.
  - unfold kNumThreads, kNumItemsPerThread. cbn. lia.
  - reflexivity.
  - reflexivity.
Defined.

Lemma sort_then_unique_is_combined_witness :
  let input_vertices := vertices duplicate_block in
  let schedule := slots kNumThreads kNumItemsPerThread in
  let sorted :=
    (sortSingleBlockCubAsync example_hash input_vertices input_vertices).2 in
  let unique :=
    (uniqueSingleBlockCubAsync example_hash schedule sorted input_vertices).2 in
  let combined :=
    (combinedSingleBlockCubAsync example_hash input_vertices
       (iota (length input_vertices)) input_vertices
       (iota (length input_vertices))).1.2 in
  unique ≡ₚ combined /\ (schedule = slots kNumThreads kNumItemsPerThread -> unique = combined).
Proof.
  apply (sort_then_unique_is_combined example_hash
           (slots kNumThreads kNumItemsPerThread)
           (vertices duplicate_block) (vertices duplicate_block)
           (vertices duplicate_block) (vertices duplicate_block)
           (iota (length (vertices duplicate_block)))).
  - unfold kNumThreads, kNumItemsPerThread. cbn. lia.
  - reflexivity.
  - reflexivity.
  - reflexivity.
  - reflexivity.
  - reflexivity.
Defined.

Lemma heads_from_sublist {V} (key : V -> Z) prev (l : list V) :
  heads_from key prev l `sublist_of` l.
Proof.
  revert prev. induction l as [|v l IH]; intros prev; [done|]. cbn.
  destruct (prev =? key v); [apply sublist_cons, IH|apply sublist_skip, IH].
Qed.

Lemma run_heads_sublist {V} (key : V -> Z) (l : list V) :
  run_heads key l `sublist_of` l.
Proof. destruct l as [|v l]; [done|]. apply sublist_skip, heads_from_sublist. Qed.

(** X22.  [uniqueSingleBlockCubAsync] on 2048 vertices or more logs the error
    and works on the first 2048 only: it returns the vertices that open a run
    of equal keys among these, at most 2048 of them, and no vertex past
    them. *)
Theorem unique_cub_truncates (index_hash : Index3D -> Z) (schedule : list nat)
    (input_vertices output_vertices : list Vector3f) :
  (kNumThreads * kNumItemsPerThread <= length input_vertices)%nat ->
  (length input_vertices <= length output_vertices)%nat ->
  schedule ≡ₚ slots kNumThreads kNumItemsPerThread ->
  let first := take (kNumThreads * kNumItemsPerThread) input_vertices in
  let res := uniqueSingleBlockCubAsync index_hash schedule
               input_vertices output_vertices in
  res.1 = true /\
  res.2 ≡ₚ run_heads (vertex_key index_hash) first /\
  (length res.2 <= kNumThreads * kNumItemsPerThread)%nat /\
  (forall v, v ∈ res.2 -> v ∈ first).
Proof.
  intros Hcap Hout Hperm first res.
  destruct (unique_cub_spec index_hash schedule input_vertices output_vertices
              Hout Hperm) as (Herr & Hheads & _).
  fold first in Hheads. fold res in Herr, Hheads.
  pose proof (run_heads_sublist (vertex_key index_hash) first) as Hsub.
  split; [|split; [done|split]].
  - rewrite Herr. unfold too_long. by apply Nat.leb_le.
  - rewrite Hheads. etrans; [apply sublist_length, Hsub|].
    subst first. rewrite length_take. lia.
  - intros v Hv. rewrite Hheads in Hv. by eapply elem_of_sublist.
Qed.

Lemma unique_cub_truncates_witness :
  let schedule := slots kNumThreads kNumItemsPerThread in
  let first := take (kNumThreads * kNumItemsPerThread) over_full_input in
  let res := uniqueSingleBlockCubAsync example_hash schedule
               over_full_input over_full_input in
  res.1 = true /\
  res.2 ≡ₚ run_heads (vertex_key example_hash) first /\
  (length res.2 <= kNumThreads * kNumItemsPerThread)%nat /\
  (forall v, v ∈ res.2 -> v ∈ first).
Proof.
  exact (unique_cub_truncates example_hash (slots kNumThreads kNumItemsPerThread)
           over_full_input over_full_input over_full_input_long
           (le_n (length over_full_input))
           (Permutation_refl (slots kNumThreads kNumItemsPerThread))).
Defined.

End KernelFacts.
